(** * A shallow embedding of the pankti (vabna) interpreter core

    The development follows the Go packages of the repository:
    [token], [number], [ast], [errs], [lexer], [parser], [object] and
    [evaluator].  Packages whose sources are not part of the tree that
    is verified here ([token], [number], [ast], [errs], [lexer],
    [object]) are represented by their data types, as far as the parser
    and the evaluator use them, and by a record of operations (the
    _host_) over which the parser and the evaluator are parameterised. *)

From stdpp Require Import gmap strings list fin_maps.
From Stdlib Require Import ZArith String Ascii DecimalString Permutation.

Set Warnings "-register-all".

(** ** Go strings and slices *)

Module gostr.

(** [len(s)] as a Go [int]. *)
Definition len (s : string) : Z := Z.of_nat (String.length s).

(** The first [n] bytes of a string, and the rest. *)
Fixpoint take (n : nat) (s : string) : string :=
  match n, s with
  | S n, String c rest => String c (take n rest)
  | _, _ => EmptyString
  end.

Fixpoint drop (n : nat) (s : string) : string :=
  match n, s with
  | S n, String _ rest => drop n rest
  | _, _ => s
  end.

(** [s[:i]]; [None] is the run-time panic of a slice bound out of range. *)
Definition slice_to (s : string) (i : Z) : option string :=
  if bool_decide (0 ≤ i ∧ i ≤ len s)%Z then Some (take (Z.to_nat i) s) else None.

(** [s[i:]]. *)
Definition slice_from (s : string) (i : Z) : option string :=
  if bool_decide (0 ≤ i ∧ i ≤ len s)%Z then Some (drop (Z.to_nat i) s) else None.

(** [strconv.Itoa]. *)
Definition Itoa (n : Z) : string := NilZero.string_of_int (Z.to_int n).

Definition newline : string := String (ascii_of_nat 10) EmptyString.

(** The double quote, for source texts that contain string literals. *)
Definition dq : string := String (ascii_of_nat 34) EmptyString.

(** [strings.Split(s, "\n")]: the result always has at least one element. *)
Fixpoint split_lines_aux (cur : string) (s : string) : list string :=
  match s with
  | EmptyString => [String.rev cur]
  | String c rest =>
      if Ascii.eqb c (ascii_of_nat 10)
      then String.rev cur :: split_lines_aux EmptyString rest
      else split_lines_aux (String c cur) rest
  end.

Definition split_lines (s : string) : list string :=
  split_lines_aux EmptyString s.

(** [strings.Join(l, "")]. *)
Definition join (l : list string) : string :=
  foldr String.append EmptyString l.

(** [strings.Contains]. *)
Fixpoint contains (needle s : string) : bool :=
  String.prefix needle s
  || match s with
     | EmptyString => false
     | String _ rest => contains needle rest
     end.

End gostr.

(** ** Outcomes of a Go computation

    A computation over a state [S] either returns a value and a new
    state, or panics (a nil dereference, an index or slice bound out of
    range), or the recursion budget of the model is exhausted. *)

Inductive Res (S A : Type) : Type :=
| Ok (a : A) (s : S)
| Panic
| OutOfFuel.
Arguments Ok {S A} a s.
Arguments Panic {S A}.
Arguments OutOfFuel {S A}.

Definition M (S A : Type) : Type := S → Res S A.

Definition ret {S A} (a : A) : M S A := λ s, Ok a s.

Definition bind {S A B} (m : M S A) (k : A → M S B) : M S B :=
  λ s, match m s with
       | Ok a s' => k a s'
       | Panic => Panic
       | OutOfFuel => OutOfFuel
       end.

Definition panic {S A} : M S A := λ _, Panic.
Definition out_of_fuel {S A} : M S A := λ _, OutOfFuel.
Definition get_state {S} : M S S := λ s, Ok s s.
Definition put_state {S} (s : S) : M S unit := λ _, Ok tt s.
Definition modify {S} (f : S → S) : M S unit := λ s, Ok tt (f s).

(** A pure partial operation: [None] is a panic. *)
Definition lift_opt {S A} (o : option A) : M S A :=
  match o with Some a => ret a | None => panic end.

Declare Scope go_scope.
Delimit Scope go_scope with go.
Notation "'do' x <- m ; k" := (bind m (λ x, k))
  (at level 10, x pattern, m at level 100, k at level 200) : go_scope.
Notation "m ;; k" := (bind m (λ _, k))
  (at level 100, k at level 200, right associativity) : go_scope.
Local Open Scope go_scope.

(** ** Package token *)

Module token.

Inductive TokenType : Set :=
| IDENT | NUM | STRING
| LPAREN | RPAREN | LBRACE | RBRACE | LS_BRACKET | RS_BRACKET
| COMMA | COLON | SEMICOLON
| PLUS | MINUS | MUL | DIV | EQ | EQEQ | NOT_EQ | LT | GT | LTE | GTE | EXC
| LET | EKTI | FUNC | IF | TAHOLE | ELSE | END | WHILE
| TRUE | FALSE | RETURN | SHOW | INCLUDE
| COMMENT | EOF | ILLEGAL.

#[global] Instance TokenType_eq_dec : EqDecision TokenType.
Proof. solve_decision. Defined.

Record Token : Set := mkToken
  { Type_ : TokenType; Literal : string; LineNo : Z; Column : Z }.

(** The zero value of the struct is not expressible with an enumerated
    kind; objects built without a token carry this one (line 0). *)
Definition virtual : Token :=
  {| Type_ := ILLEGAL; Literal := ""; LineNo := 0; Column := 0 |}.

End token.

(** ** Package number

    Modelled from the spec: the package [number] is not among the
    sources.  A number is an arbitrary-precision integer or an
    arbitrary-precision float; the float is kept as mantissa and binary
    exponent.  The struct has a [Value] that may be nil (comparison
    results of [NumberOperation]) and the flag [IsInt].  All operations on
    numbers are fields of the host. *)

Module number.

Inductive NumberValue : Set :=
| IntNumber (Value : Z)
| FloatNumber (mant expo : Z).

Record Number : Set := mkNumber
  { Value : option NumberValue; IsInt : bool }.

End number.

(** ** Package ast *)

Module ast.

Definition Identifier : Set := (token.Token * string)%type.

(** An expression field of a node is a Go interface value and may be
    nil: it is an [option Expr].  The pairs of a hash literal are a Go
    map keyed by the key node; they are kept in insertion order here,
    and the order in which [range] visits them is decided by the host. *)
Inductive Expr : Type :=
| Ident (Token : token.Token) (Value : string)
| NumberLit (Token : token.Token) (Value : number.Number) (IsInt : bool)
| StringLit (Token : token.Token) (Value : string)
| Boolean (Token : token.Token) (Value : bool)
| PrefixExpr (Token : token.Token) (Op : string) (Right : option Expr)
| InfixExpr (Token : token.Token) (Op : string) (Left Right : option Expr)
| IfExpr (Token : token.Token) (Cond : option Expr)
    (TrueBlock : BlockStmt) (ElseBlock : option BlockStmt)
| WhileExpr (Token : token.Token) (Cond : option Expr) (StmtBlock : BlockStmt)
| FunctionLit (Token : token.Token) (Params : list Identifier) (Body : BlockStmt)
| CallExpr (Token : token.Token) (Func : option Expr) (Args : list (option Expr))
| ArrLit (Token : token.Token) (Elms : list (option Expr))
| HashLit (Token : token.Token) (Pairs : list (option Expr * option Expr))
| IndexExpr (Token : token.Token) (Left Index : option Expr)
with Stmt : Type :=
| LetStmt (Token : token.Token) (Name : Identifier) (Value : option Expr)
| NilLetStmt
    (** the nil [*ast.LetStmt] that [parseLetStmt] returns on a failed
        expectation, wrapped into a non-nil [ast.Stmt] by [parseStmt] *)
| ReturnStmt (Token : token.Token) (ReturnVal : option Expr)
| ShowStmt (Token : token.Token) (Value : list (option Expr))
| IncludeStmt (Token : token.Token) (Filename : option Expr)
| ExprStmt (Token : token.Token) (Expr_ : option Expr)
| Comment (Token : token.Token) (Value : string)
with BlockStmt : Type :=
| Block (Token : token.Token) (Stmts : list Stmt).

Record Program : Type := mkProgram { Stmts : list Stmt }.

Definition block_stmts (b : BlockStmt) : list Stmt :=
  match b with Block _ l => l end.

(** [ast.Node]: what [Eval] is called on. *)
Inductive Node : Type :=
| NodeNil
| NodeProgram (p : Program)
| NodeStmt (s : Stmt)
| NodeBlock (b : BlockStmt)
| NodeExpr (e : Expr).

Definition of_expr (e : option Expr) : Node :=
  match e with Some e => NodeExpr e | None => NodeNil end.

End ast.

(** ** Package errs *)

Module errs.

Inductive ParserError : Type :=
| PeekError (Expected : string) (Got : token.Token) (ErrLine : string)
| NoEktiError (Type_ : token.TokenType) (ErrLine : string)
| NoPrefixSuffixError (Token : token.Token) (ErrLine : string).

End errs.

(** ** Package lexer

    Modelled from the spec: the package [lexer] is not among the
    sources.  [NextToken] pulls one token and returns [EOF] thereafter;
    [GetLine n] retrieves the n-th source line.  A lexer is the list of
    tokens it has not handed out yet, its end-of-file token and its line
    table ([None]: the call panics). *)

Module lexer.

Record Lexer : Type := mkLexer
  { pending : list token.Token;
    eof : token.Token;
    GetLine : Z → option string }.

Definition NextToken (l : Lexer) : token.Token * Lexer :=
  match pending l with
  | [] => (eof l, l)
  | t :: rest => (t, {| pending := rest; eof := eof l; GetLine := GetLine l |})
  end.

End lexer.

(** ** Package parser *)

Module parser.

Import token.

(** What the parser takes from packages that are not among the
    sources and from the Go library: the string behind a token kind
    and the [token.HumanFriendly] table (for [peekErr]),
    [number.IsFloat], and [SetString] of [big.Int] (base 10) and of
    [big.Float] ([None]: the conversion fails and returns a nil
    pointer). *)
Record Host : Type := mkHost
  { tt_string : TokenType → string;
    HumanFriendly : string → string;
    IsFloat : string → bool;
    IntSetString : string → option Z;
    FloatSetString : string → option (Z * Z) }.

Definition LOWEST : Z := 1.
Definition EQUALS : Z := 2.
Definition LTGT : Z := 3.
Definition SUM : Z := 4.
Definition PROD : Z := 5.
Definition PREFIX : Z := 6.
Definition CALL : Z := 7.
Definition INDEX : Z := 8.

Definition precedences (t : TokenType) : option Z :=
  match t with
  | EQEQ | NOT_EQ => Some EQUALS
  | LT | GT | GTE | LTE => Some LTGT
  | PLUS | MINUS => Some SUM
  | DIV | MUL => Some PROD
  | LPAREN => Some CALL
  | LS_BRACKET => Some INDEX
  | _ => None
  end.

Record Parser : Type := mkParser
  { lx : lexer.Lexer;
    curTok : Token;
    peekTok : Token;
    errs : list errs.ParserError }.

Definition P (A : Type) : Type := M Parser A.

(** [MakeErrorLine]: both slices can be out of range. *)
Definition MakeErrorLine (t : Token) (line : string) : option string :=
  let Lindex := (Column t - 1)%Z in
  let RIndex := (Column t + gostr.len (Literal t) - 1)%Z in
  let RIndex := if bool_decide (gostr.len (Literal t) ≤ 1)%Z
                then (Lindex + 1)%Z else RIndex in
  a ← gostr.slice_to line RIndex;
  b ← gostr.slice_from line RIndex;
  let newL := a +:+ " <-- " +:+ b in
  c ← gostr.slice_to newL Lindex;
  d ← gostr.slice_from newL Lindex;
  let newLine := c +:+ " --> " +:+ d in
  Some (gostr.Itoa (LineNo t) +:+ "| " +:+ newLine).

Definition isCurToken (t : TokenType) : P bool :=
  λ p, Ok (bool_decide (Type_ (curTok p) = t)) p.

Definition isPeekToken (t : TokenType) : P bool :=
  λ p, Ok (bool_decide (Type_ (peekTok p) = t)) p.

Definition nextToken : P unit :=
  λ p, let '(t, l) := lexer.NextToken (lx p) in
       Ok tt {| lx := l; curTok := peekTok p; peekTok := t; errs := errs p |}.

Definition add_err (e : errs.ParserError) : P unit :=
  modify (λ p, {| lx := lx p; curTok := curTok p; peekTok := peekTok p;
                  errs := errs p ++ [e] |}).

(** The error line of a token: [MakeErrorLine(t, p.lx.GetLine(t.LineNo))]. *)
Definition error_line (t : Token) : P string :=
  λ p, match lexer.GetLine (lx p) (LineNo t) ≫= MakeErrorLine t with
       | Some s => Ok s p
       | None => Panic
       end.

Definition peekPrec : P Z :=
  λ p, Ok (default LOWEST (precedences (Type_ (peekTok p)))) p.

Definition curPrec : P Z :=
  λ p, Ok (default LOWEST (precedences (Type_ (curTok p)))) p.

Definition cur : P Token := λ p, Ok (curTok p) p.

Section WithHost.

Variable H : Host.

Definition peekErr (t : TokenType) : P unit :=
  let expectedToken :=
    if bool_decide (gostr.len (tt_string H t) > 1)%Z
    then HumanFriendly H (tt_string H t) else tt_string H t in
  do c <- cur;
  do line <- error_line c;
  λ p, add_err (errs.PeekError expectedToken (peekTok p) line) p.

Definition peek (t : TokenType) : P bool :=
  do b <- isPeekToken t;
  if b then (nextToken;; ret true) else (peekErr t;; ret false).

Definition noPrefixFunctionErr (t : Token) : P unit :=
  do line <- error_line t;
  if bool_decide (Type_ t = FUNC)
  then add_err (errs.NoEktiError (Type_ t) line)
  else do c <- cur; add_err (errs.NoPrefixSuffixError c line).

Definition parseIdent : P (option ast.Expr) :=
  do c <- cur; ret (Some (ast.Ident c (Literal c))).

Definition parseBool : P (option ast.Expr) :=
  do c <- cur; do b <- isCurToken TRUE; ret (Some (ast.Boolean c b)).

Definition parseStringLit : P (option ast.Expr) :=
  do c <- cur; ret (Some (ast.StringLit c (Literal c))).

(** [*v] panics when [SetString] failed. *)
Definition parseNumLit : P (option ast.Expr) :=
  do c <- cur;
  if IsFloat H (Literal c)
  then
    do v <- lift_opt (FloatSetString H (Literal c));
    ret (Some (ast.NumberLit c
      {| number.Value := Some (number.FloatNumber v.1 v.2);
         number.IsInt := false |} false))
  else
    do v <- lift_opt (IntSetString H (Literal c));
    ret (Some (ast.NumberLit c
      {| number.Value := Some (number.IntNumber v);
         number.IsInt := true |} true)).

Definition comment_stmt : P ast.Stmt :=
  do c <- cur; ret (ast.Comment c (Literal c)).

(** The loop of [parseFuncParams]: [for p.isPeekToken(token.COMMA)]. *)
Fixpoint parseFuncParams_loop (fuel : nat) (ids : list ast.Identifier)
  : P (list ast.Identifier) :=
  match fuel with
  | O => out_of_fuel
  | S fuel =>
      do b <- isPeekToken COMMA;
      if b then
        nextToken;; nextToken;;
        do c <- cur;
        parseFuncParams_loop fuel (ids ++ [(c, Literal c)])
      else ret ids
  end.

(** A nil slice and an empty one are the same list. *)
Definition parseFuncParams (fuel : nat) : P (list ast.Identifier) :=
  do b <- isPeekToken RPAREN;
  if b then (nextToken;; ret [])
  else
    nextToken;;
    do c <- cur;
    do ids <- parseFuncParams_loop fuel [(c, Literal c)];
    do ok <- peek RPAREN;
    if ok then ret ids else ret [].

(** The loop of [parseLetStmt]: [for p.isPeekToken(token.SEMICOLON)]. *)
Fixpoint skip_semicolons (fuel : nat) : P unit :=
  match fuel with
  | O => out_of_fuel
  | S fuel =>
      do b <- isPeekToken SEMICOLON;
      if b then (nextToken;; skip_semicolons fuel) else ret tt
  end.

Definition optional_semicolon : P unit :=
  do b <- isPeekToken SEMICOLON;
  if b then nextToken else ret tt.

(** [hash.Pairs[k] = val] on the Go map: node pointers are pairwise
    different, so only the nil key can be present already. *)
Definition is_nil_key (kv : option ast.Expr * option ast.Expr) : bool :=
  match kv.1 with None => true | Some _ => false end.

Definition pairs_insert (k v : option ast.Expr)
    (pairs : list (option ast.Expr * option ast.Expr))
  : list (option ast.Expr * option ast.Expr) :=
  match k with
  | Some _ => pairs ++ [(k, v)]
  | None =>
      if existsb is_nil_key pairs
      then map (λ kv, if is_nil_key kv then (None, v) else kv) pairs
      else pairs ++ [(k, v)]
  end.

(** The recursive descent.  [parseExpr] and [parseStmt] call each other
    through every production; the productions are written over the two
    calls of the level below, and the knot is tied by [parseExpr] and
    [parseStmt] at the end.  The [for] loops get the budget [fuel].  The
    calls of the logger ([log.Info]) are left out. *)
Section Productions.

Variable parseExpr : Z → P (option ast.Expr).
Variable parseStmt : P ast.Stmt.
Variable fuel : nat.

Fixpoint parseExprList_loop (n : nat) (exprs : list (option ast.Expr))
  : P (list (option ast.Expr)) :=
  match n with
  | O => out_of_fuel
  | S n =>
      do b <- isPeekToken COMMA;
      if b then
        nextToken;; nextToken;;
        do e <- parseExpr LOWEST;
        parseExprList_loop n (exprs ++ [e])
      else ret exprs
  end.

Definition parseExprList (endtok : TokenType) : P (list (option ast.Expr)) :=
  do b <- isPeekToken endtok;
  if b then (nextToken;; ret [])
  else
    nextToken;;
    do e <- parseExpr LOWEST;
    do exprs <- parseExprList_loop fuel [e];
    do ok <- peek endtok;
    if ok then ret exprs else ret [].

(** The loop of [parseHashLit]; [None]: the production returned nil from
    inside the loop. *)
Fixpoint parseHashLit_loop (n : nat)
    (pairs : list (option ast.Expr * option ast.Expr))
  : P (option (list (option ast.Expr * option ast.Expr))) :=
  match n with
  | O => out_of_fuel
  | S n =>
      do stop <- isPeekToken RBRACE;
      if stop then ret (Some pairs)
      else
        nextToken;;
        do k <- parseExpr LOWEST;
        do ok <- peek COLON;
        if negb ok then ret None
        else
          nextToken;;
          do val <- parseExpr LOWEST;
          let pairs := pairs_insert k val pairs in
          do close <- isPeekToken RBRACE;
          if close then parseHashLit_loop n pairs
          else
            do comma <- peek COMMA;
            if comma then parseHashLit_loop n pairs else ret None
  end.

Definition parseHashLit : P (option ast.Expr) :=
  do c <- cur;
  do r <- parseHashLit_loop fuel [];
  match r with
  | None => ret None
  | Some pairs =>
      do ok <- peek RBRACE;
      if ok then ret (Some (ast.HashLit c pairs)) else ret None
  end.

Definition parseIndexExpr (l : option ast.Expr) : P (option ast.Expr) :=
  do c <- cur;
  nextToken;;
  do index <- parseExpr LOWEST;
  do ok <- peek RS_BRACKET;
  if ok then ret (Some (ast.IndexExpr c l index)) else ret None.

Definition parseArrLit : P (option ast.Expr) :=
  do c <- cur;
  do elms <- parseExprList RS_BRACKET;
  ret (Some (ast.ArrLit c elms)).

Definition parseCallExpr (function : option ast.Expr) : P (option ast.Expr) :=
  do c <- cur;
  do args <- parseExprList RPAREN;
  ret (Some (ast.CallExpr c function args)).

(** The loop of [parseBlockStmt] and the first loop of [parseIfExpr]:
    statements are collected until the current token is [eT] or [EOF].
    [parseStmt] never returns a nil interface, so every statement is
    appended. *)
Fixpoint block_loop (n : nat) (eT : TokenType) (stmts : list ast.Stmt)
  : P (list ast.Stmt) :=
  match n with
  | O => out_of_fuel
  | S n =>
      do a <- isCurToken eT;
      do b <- isCurToken EOF;
      if negb a && negb b then
        do s <- parseStmt;
        nextToken;;
        block_loop n eT (stmts ++ [s])
      else ret stmts
  end.

Definition parseBlockStmt (eT : TokenType) : P ast.BlockStmt :=
  do c <- cur;
  nextToken;;
  do stmts <- block_loop fuel eT [];
  ret (ast.Block c stmts).

Definition parseFunc : P (option ast.Expr) :=
  do ok <- peek FUNC;
  if negb ok then ret None
  else
    do c <- cur;
    do ok <- peek LPAREN;
    if negb ok then ret None
    else
      do params <- parseFuncParams fuel;
      do body <- parseBlockStmt END;
      ret (Some (ast.FunctionLit c params body)).

Definition parseGroupedExpr : P (option ast.Expr) :=
  nextToken;;
  do exp <- parseExpr LOWEST;
  do ok <- peek RPAREN;
  if ok then ret exp else ret None.

Definition parsePrefixExpr : P (option ast.Expr) :=
  do c <- cur;
  nextToken;;
  do rhs <- parseExpr PREFIX;
  ret (Some (ast.PrefixExpr c (Literal c) rhs)).

Definition parseInfixExpr (lhs : option ast.Expr) : P (option ast.Expr) :=
  do c <- cur;
  do prec <- curPrec;
  nextToken;;
  do rhs <- parseExpr prec;
  ret (Some (ast.InfixExpr c (Literal c) lhs rhs)).

(** [parseIfExpr]: the true block is a loop, the else block a single
    [if]. *)
Definition parseIfExpr : P (option ast.Expr) :=
  do tok <- cur;
  do ok <- peek LPAREN;
  if negb ok then ret None
  else
    nextToken;;
    do cond <- parseExpr LOWEST;
    do ok <- peek RPAREN;
    if negb ok then ret None
    else
      do ok <- peek TAHOLE;
      if negb ok then ret None
      else
        nextToken;;
        do c <- cur;
        do tb <- block_loop fuel ELSE [];
        nextToken;;
        do a <- isCurToken END;
        do b <- isCurToken EOF;
        do eb <- (if negb a && negb b
                  then do s <- parseStmt; nextToken;; ret [s]
                  else ret []);
        ret (Some (ast.IfExpr tok cond (ast.Block c tb) (Some (ast.Block c eb)))).

Definition parseWhileExpr : P (option ast.Expr) :=
  do tok <- cur;
  do ok <- peek LPAREN;
  if negb ok then ret None
  else
    nextToken;;
    do cond <- parseExpr LOWEST;
    do ok <- peek RPAREN;
    if negb ok then ret None
    else
      do body <- parseBlockStmt END;
      ret (Some (ast.WhileExpr tok cond body)).

(** [p.prefixParseFns] and [p.infixParseFns] as registered by
    [NewParser]. *)
Definition prefixParseFns (t : TokenType) : option (P (option ast.Expr)) :=
  match t with
  | IDENT => Some parseIdent
  | NUM => Some parseNumLit
  | MINUS | EXC => Some parsePrefixExpr
  | TRUE | FALSE => Some parseBool
  | LPAREN => Some parseGroupedExpr
  | IF => Some parseIfExpr
  | WHILE => Some parseWhileExpr
  | EKTI => Some parseFunc
  | STRING => Some parseStringLit
  | LS_BRACKET => Some parseArrLit
  | LBRACE => Some parseHashLit
  | _ => None
  end.

Definition infixParseFns (t : TokenType)
  : option (option ast.Expr → P (option ast.Expr)) :=
  match t with
  | PLUS | MINUS | DIV | MUL | EQEQ | NOT_EQ | LT | GTE | GT | LTE =>
      Some parseInfixExpr
  | LPAREN => Some parseCallExpr
  | LS_BRACKET => Some parseIndexExpr
  | _ => None
  end.

Fixpoint parseExpr_loop (n : nat) (prec : Z) (leftExpr : option ast.Expr)
  : P (option ast.Expr) :=
  match n with
  | O => out_of_fuel
  | S n =>
      do semi <- isPeekToken SEMICOLON;
      do pp <- peekPrec;
      if negb semi && bool_decide (prec < pp)%Z then
        λ p, match infixParseFns (Type_ (peekTok p)) with
             | None => Ok leftExpr p
             | Some infix =>
                 (nextToken;;
                  do l <- infix leftExpr;
                  parseExpr_loop n prec l) p
             end
      else ret leftExpr
  end.

Definition parseExpr_body (prec : Z) : P (option ast.Expr) :=
  do c <- cur;
  match prefixParseFns (Type_ c) with
  | None => noPrefixFunctionErr c;; ret None
  | Some prefix =>
      do leftExpr <- prefix;
      parseExpr_loop fuel prec leftExpr
  end.

Definition parseReturnStmt : P ast.Stmt :=
  do c <- cur;
  nextToken;;
  do v <- parseExpr LOWEST;
  optional_semicolon;;
  ret (ast.ReturnStmt c v).

Definition parseShowStmt : P ast.Stmt :=
  do c <- cur;
  nextToken;;
  do v <- parseExprList RPAREN;
  optional_semicolon;;
  ret (ast.ShowStmt c v).

Definition parseIncludeStmt : P ast.Stmt :=
  do c <- cur;
  nextToken;;
  do f <- parseExpr LOWEST;
  optional_semicolon;;
  ret (ast.IncludeStmt c f).

Definition parseLetStmt : P ast.Stmt :=
  do tok <- cur;
  do ok <- peek IDENT;
  if negb ok then ret ast.NilLetStmt
  else
    do c <- cur;
    do ok <- peek EQ;
    if negb ok then ret ast.NilLetStmt
    else
      nextToken;;
      do v <- parseExpr LOWEST;
      skip_semicolons fuel;;
      ret (ast.LetStmt tok (c, Literal c) v).

Definition parseExprStmt : P ast.Stmt :=
  do c <- cur;
  do e <- parseExpr LOWEST;
  optional_semicolon;;
  ret (ast.ExprStmt c e).

Definition parseStmt_body : P ast.Stmt :=
  do c <- cur;
  match Type_ c with
  | LET => parseLetStmt
  | RETURN => parseReturnStmt
  | INCLUDE => parseIncludeStmt
  | COMMENT => comment_stmt
  | SHOW => parseShowStmt
  | _ => parseExprStmt
  end.

End Productions.

Fixpoint parseExpr (fuel : nat) : Z → P (option ast.Expr) :=
  match fuel with
  | O => λ _, out_of_fuel
  | S n => parseExpr_body (λ prec p, parseExpr n prec p) (λ p, parseStmt n p) n
  end
with parseStmt (fuel : nat) : P ast.Stmt :=
  match fuel with
  | O => out_of_fuel
  | S n => parseStmt_body (λ prec p, parseExpr n prec p) n
  end.

(** The loop of [ParseProg]; [n] bounds the number of statements. *)
Fixpoint ParseProg_loop (n fuel : nat) (stmts : list ast.Stmt)
  : P (list ast.Stmt) :=
  match n with
  | O => out_of_fuel
  | S n =>
      do stop <- isCurToken EOF;
      if stop then ret stmts
      else
        do stmt <- parseStmt fuel;
        nextToken;;
        ParseProg_loop n fuel (stmts ++ [stmt])
  end.

Definition ParseProg (fuel : nat) : P ast.Program :=
  do stmts <- ParseProg_loop fuel fuel [];
  ret (ast.mkProgram stmts).

End WithHost.

(** [NewParser]: the two calls of [nextToken] load [curTok] and
    [peekTok]; before them both are the zero token. *)
Definition NewParser (l : lexer.Lexer) : Parser :=
  let p := {| lx := l; curTok := token.virtual; peekTok := token.virtual;
              errs := [] |} in
  match (nextToken;; nextToken) p with
  | Ok _ p' => p'
  | _ => p
  end.

Definition GetErrors (p : Parser) : list errs.ParserError := errs p.

End parser.


(** ** Package object

    Modelled from the spec: the package [object] is not among the
    sources.  [Object] is the closed tagged variant of the data model.
    A value of the Go interface [object.Obj] may be nil: results, array
    elements and bindings are [option Obj] ([Val]).  [NULL], [TRUE] and
    [FALSE] are singletons; arrays, hashes, functions and return values
    are allocated when they are built and compared by pointer by the
    operators [==] and [!=], so they carry the identity [id] of their
    allocation.  A function holds the address of its captured
    environment. *)

Module object.

Inductive ObjType : Set :=
| NULL_OBJ | BOOL_OBJ | NUM_OBJ | STRING_OBJ | ARRAY_OBJ | HASH_OBJ
| FUNC_OBJ | BUILTIN_OBJ | RETURN_VAL_OBJ | ERR_OBJ.

#[global] Instance ObjType_eq_dec : EqDecision ObjType.
Proof. solve_decision. Defined.

Definition ObjType_code (t : ObjType) : nat :=
  match t with
  | NULL_OBJ => 0 | BOOL_OBJ => 1 | NUM_OBJ => 2 | STRING_OBJ => 3
  | ARRAY_OBJ => 4 | HASH_OBJ => 5 | FUNC_OBJ => 6 | BUILTIN_OBJ => 7
  | RETURN_VAL_OBJ => 8 | ERR_OBJ => 9
  end.

Definition ObjType_decode (n : nat) : option ObjType :=
  match n with
  | 0 => Some NULL_OBJ | 1 => Some BOOL_OBJ | 2 => Some NUM_OBJ
  | 3 => Some STRING_OBJ | 4 => Some ARRAY_OBJ | 5 => Some HASH_OBJ
  | 6 => Some FUNC_OBJ | 7 => Some BUILTIN_OBJ | 8 => Some RETURN_VAL_OBJ
  | 9 => Some ERR_OBJ | _ => None
  end.

#[global] Instance ObjType_countable : Countable ObjType.
Proof.
  apply (inj_countable ObjType_code ObjType_decode).
  intros []; reflexivity.
Defined.

(** [HashKey = (type_tag, 64-bit digest)]. *)
Definition HashKey : Set := (ObjType * Z)%type.

Inductive Obj : Type :=
| Null
| Boolean (Value : bool)
| Number (Value : number.Number) (IsInt : bool) (Token : token.Token)
| String (Value : string) (Token : token.Token)
| Array (id : nat) (Elms : list (option Obj)) (Token : token.Token)
| Hash (id : nat) (Pairs : gmap HashKey (option Obj * option Obj))
| Function (id : nat) (Params : list ast.Identifier) (Body : ast.BlockStmt)
    (Env : nat) (Token : token.Token)
| Builtin (name : string)
| ReturnValue (id : nat) (Value : option Obj)
| Error (Msg : string).

Abbreviation Val := (option Obj).

Definition Type_ (o : Obj) : ObjType :=
  match o with
  | Null => NULL_OBJ
  | Boolean _ => BOOL_OBJ
  | Number _ _ _ => NUM_OBJ
  | String _ _ => STRING_OBJ
  | Array _ _ _ => ARRAY_OBJ
  | Hash _ _ => HASH_OBJ
  | Function _ _ _ _ _ => FUNC_OBJ
  | Builtin _ => BUILTIN_OBJ
  | ReturnValue _ _ => RETURN_VAL_OBJ
  | Error _ => ERR_OBJ
  end.

(** [GetToken]: the token the evaluator stored in the object, the
    virtual token for objects constructed without one. *)
Definition GetToken (o : Obj) : token.Token :=
  match o with
  | Number _ _ t | String _ t | Array _ _ t | Function _ _ _ _ t => t
  | _ => token.virtual
  end.

(** [Environment = { bindings, outer }]; environments live in a heap
    and are referred to by address, since closures share them. *)
Record Env : Type := mkEnv
  { store : gmap string Val; outer : option nat }.

Abbreviation Heap := (list Env).

(** [Set] writes into the innermost frame. *)
Definition Set_ (h : Heap) (a : nat) (name : string) (v : Val) : option Heap :=
  e ← h !! a;
  Some (<[a := {| store := <[name := v]> (store e); outer := outer e |}]> h).

End object.

(** ** Package evaluator *)

Module evaluator.

Import object.

Definition NULL : Val := Some Null.
Definition TRUE : Val := Some (Boolean true).
Definition FALSE : Val := Some (Boolean false).

Record ErrorHelper : Set := mkErrorHelper { Source : string }.

(** [GetLine]: the index can be out of range. *)
Definition GetLine (e : ErrorHelper) (t : token.Token) : option string :=
  if bool_decide (0 ≤ token.LineNo t - 1)%Z
  then gostr.split_lines (Source e) !! Z.to_nat (token.LineNo t - 1)
  else None.

Definition MakeErrorLine (e : ErrorHelper) (t : token.Token) (showHint : bool)
  : option string :=
  if bool_decide (token.LineNo t ≤ 0)%Z then Some ""
  else
    xLine ← GetLine e t;
    if showHint then
      let Lindex := (token.Column t - 1)%Z in
      let Lindex := if bool_decide (Lindex < 0)%Z then 0%Z else Lindex in
      let RIndex := (token.Column t + gostr.len (token.Literal t) - 1)%Z in
      let RIndex := if bool_decide (gostr.len (token.Literal t) ≤ 1)%Z
                    then (Lindex + 1)%Z else RIndex in
      a ← gostr.slice_to xLine RIndex;
      b ← gostr.slice_from xLine RIndex;
      let newL := a +:+ " <-- " +:+ b in
      c ← gostr.slice_to newL Lindex;
      d ← gostr.slice_from newL Lindex;
      let newLine := c +:+ " --> " +:+ d in
      Some (gostr.Itoa (token.LineNo t) +:+ "| " +:+ newLine)
    else Some (gostr.Itoa (token.LineNo t) +:+ "| " +:+ xLine).

(** What the evaluator takes from packages that are not among the
    sources, from the Go run time and from the operating system:
    - the parser's host;
    - the string behind an [ObjType] (for [%s]), [Inspect], and the
      interface [Hashable] with its method [HashKey] ([None]: the object
      is not hashable);
    - [number.NumberOperation], [number.MakeNeg], [number.GetAsInt];
    - the table [builtins] and the native function of a builtin, which
      may allocate objects (it is handed the next free identity);
    - [os.Stat] (is the error [fs.ErrNotExist]?), [os.ReadFile] and
      [lexer.NewLexer];
    - the order in which the [n]-th [range] statement of the run visits
      the pairs of a Go map. *)
Record Host : Type := mkHost
  { phost : parser.Host;
    type_name : ObjType → string;
    Inspect : Obj → string;
    HashKeyOf : Obj → option HashKey;
    NumberOperation : string → number.Number → number.Number
                      → number.Number * bool * bool;
    MakeNeg : number.Number → number.Number;
    GetAsInt : number.Number → Z * bool;
    builtins : string → bool;
    builtin_Fn : string → list Val → nat → Val * nat;
    stat_not_exist : string → bool;
    ReadFile : string → option string;
    NewLexer : string → lexer.Lexer;
    range_order : nat → list (option ast.Expr * option ast.Expr)
                  → list (option ast.Expr * option ast.Expr) }.

(** The state of a run: the heap of environments, the print buffer,
    the next free object identity and the number of [range] statements
    over maps executed so far. *)
Record State : Type := mkState
  { heap : Heap; printBuff : string; next_id : nat; ranges : nat }.

Definition E (A : Type) : Type := M State A.

Definition with_heap (h : Heap) (s : State) : State :=
  {| heap := h; printBuff := printBuff s; next_id := next_id s;
     ranges := ranges s |}.

(** [object.NewEnv] and [object.NewEnclosedEnv]. *)
Definition alloc_env (e : Env) : E nat :=
  λ s, Ok (List.length (heap s)) (with_heap (heap s ++ [e]) s).

Definition NewEnv : E nat := alloc_env {| store := ∅; outer := None |}.

Definition NewEnclosedEnv (o : nat) : E nat :=
  alloc_env {| store := ∅; outer := Some o |}.

Definition env_Set (a : nat) (name : string) (v : Val) : E unit :=
  λ s, match Set_ (heap s) a name v with
       | Some h => Ok tt (with_heap h s)
       | None => Panic
       end.

(** [Get]: lookup walks the [outer] chain; [n] bounds the walk. *)
Fixpoint env_Get (n : nat) (a : nat) (name : string) : E (option Val) :=
  match n with
  | O => out_of_fuel
  | S n =>
      λ s, match heap s !! a with
           | None => Panic
           | Some e =>
               match store e !! name with
               | Some v => Ok (Some v) s
               | None =>
                   match outer e with
                   | Some o => env_Get n o name s
                   | None => Ok None s
                   end
               end
           end
  end.

(** [*env = *e]: the frame at [a] is overwritten by a copy of the one at [b]. *)
Definition env_assign (a b : nat) : E unit :=
  λ s, match heap s !! a, heap s !! b with
       | Some _, Some e => Ok tt (with_heap (<[a := e]> (heap s)) s)
       | _, _ => Panic
       end.

Definition fresh_id : E nat :=
  λ s, Ok (next_id s)
          {| heap := heap s; printBuff := printBuff s;
             next_id := S (next_id s); ranges := ranges s |}.

Definition next_range : E nat :=
  λ s, Ok (ranges s)
          {| heap := heap s; printBuff := printBuff s;
             next_id := next_id s; ranges := S (ranges s) |}.

Definition write_buff (out : string) : E unit :=
  λ s, Ok tt {| heap := heap s; printBuff := printBuff s +:+ out;
                next_id := next_id s; ranges := ranges s |}.

Definition isErr (obj : Val) : bool :=
  match obj with
  | Some o => bool_decide (Type_ o = ERR_OBJ)
  | None => false
  end.

Definition isTruthy (obj : Val) : bool :=
  match obj with
  | Some Null => false
  | Some (Boolean b) => b
  | _ => true
  end.

Definition getBoolObj (inp : bool) : Val := if inp then TRUE else FALSE.

Definition evalBangOp (r : Val) : Val :=
  match r with
  | Some (Boolean true) => FALSE
  | Some (Boolean false) => TRUE
  | Some Null => TRUE
  | _ => FALSE
  end.

Definition unwrapRValue (o : Val) : Val :=
  match o with
  | Some (ReturnValue _ v) => v
  | _ => o
  end.

(** [l == r] on two interface values: pointer equality.  Numbers,
    strings and errors are allocated afresh by every evaluation and two
    of them of the same kind never reach this comparison. *)
Definition same_obj (l r : Val) : bool :=
  match l, r with
  | None, None => true
  | Some Null, Some Null => true
  | Some (Boolean a), Some (Boolean b) => bool_decide (a = b)
  | Some (Array i _ _), Some (Array j _ _)
  | Some (Hash i _), Some (Hash j _)
  | Some (Function i _ _ _ _), Some (Function j _ _ _ _)
  | Some (ReturnValue i _), Some (ReturnValue j _) => bool_decide (i = j)
  | Some (Builtin a), Some (Builtin b) => bool_decide (a = b)
  | _, _ => false
  end.

Section WithHost.

Variable H : Host.
Variable eh : ErrorHelper.

Definition NewBareErr (msg : string) : E Val := ret (Some (Error msg)).

Definition NewErr (t : token.Token) (showHint : bool) (msg : string) : E Val :=
  do line <- lift_opt (MakeErrorLine eh t showHint);
  ret (Some (Error (line +:+ gostr.newline +:+ msg))).

(** A method call on a nil interface value panics. *)
Definition deref (v : Val) : E Obj := lift_opt v.

Definition evalMinusPrefOp (r : Val) : E Val :=
  do o <- deref r;
  match o with
  | Number v isInt _ =>
      ret (Some (Number (MakeNeg H v) isInt token.virtual))
  | _ => NewBareErr ("unknown Operator : -" +:+ type_name H (Type_ o))
  end.

Definition evalPrefixExpr (op : string) (r : Val) : E Val :=
  if bool_decide (op = "!") then ret (evalBangOp r)
  else if bool_decide (op = "-") then evalMinusPrefOp r
  else
    do o <- deref r;
    NewBareErr ("Unknown Operator : " +:+ op +:+ type_name H (Type_ o)).

Definition evalNumInfixExpr (op : string) (lval rval : number.Number) : E Val :=
  let '(val, cval, noerr) := NumberOperation H op lval rval in
  match number.Value val, noerr with
  | Some _, true => ret (Some (Number val (number.IsInt val) token.virtual))
  | None, true => ret (getBoolObj cval)
  | _, false => NewBareErr ("Unknown Operator for Numbers " +:+ op)
  end.

Definition evalStringInfixExpr (op : string) (l r : Obj) (lval rval : string)
  : E Val :=
  if bool_decide (op = "+") then ret (Some (String (lval +:+ rval) token.virtual))
  else if bool_decide (op = "==") then ret (getBoolObj (bool_decide (lval = rval)))
  else if bool_decide (op = "!=") then ret (getBoolObj (negb (bool_decide (lval = rval))))
  else NewErr (GetToken l) false
         ("Unknown Operator " +:+ type_name H (Type_ l) +:+ " " +:+ op +:+ " "
          +:+ type_name H (Type_ r)).

(** The cases of the [switch] are tried in order; [r.Type()] is only
    evaluated where the Go condition reaches it. *)
Definition evalInfixExpr (op : string) (l r : Val) : E Val :=
  do lo <- deref l;
  let rest : E Val :=
    if bool_decide (op = "==") then ret (getBoolObj (same_obj l r))
    else if bool_decide (op = "!=") then ret (getBoolObj (negb (same_obj l r)))
    else
      do ro <- deref r;
      if bool_decide (Type_ lo ≠ Type_ ro)
      then NewErr (GetToken lo) false
             ("Type mismatch:  " +:+ type_name H (Type_ lo) +:+ " " +:+ op +:+ " "
              +:+ type_name H (Type_ ro) +:+ " ")
      else NewErr (GetToken lo) false
             ("unknown Operator : " +:+ type_name H (Type_ lo) +:+ " " +:+ op
              +:+ " " +:+ type_name H (Type_ ro))
  in
  match lo with
  | Number lval _ _ =>
      do ro <- deref r;
      match ro with
      | Number rval _ _ => evalNumInfixExpr op lval rval
      | _ => rest
      end
  | String lval _ =>
      do ro <- deref r;
      match ro with
      | String rval _ => evalStringInfixExpr op lo ro lval rval
      | _ => rest
      end
  | _ => rest
  end.

Definition evalArrIndexExpr (elms : list Val) (id : number.Number) : E Val :=
  let '(idx, noerr) := GetAsInt H id in
  if negb noerr then NewBareErr "Arr Index Failed"
  else
    let max := (Z.of_nat (List.length elms) - 1)%Z in
    if bool_decide (idx < 0)%Z || bool_decide (idx > max)%Z then ret NULL
    else lift_opt (elms !! Z.to_nat idx).

Definition evalHashIndexExpr (pairs : gmap HashKey (Val * Val)) (index : Val)
  : E Val :=
  match index ≫= HashKeyOf H with
  | None =>
      do i <- deref index;
      NewErr (GetToken i) true
        ("This cannot be used as hash key " +:+ type_name H (Type_ i))
  | Some key =>
      match pairs !! key with
      | None => ret NULL
      | Some kv => ret kv.2
      end
  end.

Definition evalIndexExpr (left index : Val) : E Val :=
  do l <- deref left;
  let unsupported : E Val :=
    NewErr (GetToken l) true
      ("Unsupported Index Operator " +:+ type_name H (Type_ l) +:+ " ") in
  match l with
  | Array _ elms _ =>
      do i <- deref index;
      match i with
      | Number v _ _ => evalArrIndexExpr elms v
      | _ => unsupported
      end
  | Hash _ pairs => evalHashIndexExpr pairs index
  | _ => unsupported
  end.

(** [evalShowStmt]: standard output is redirected into a pipe for the
    duration of one [fmt.Println], and what was printed is written to
    the buffer. *)
Fixpoint inspect_all (args : list Val) : E (list string) :=
  match args with
  | [] => ret []
  | item :: rest =>
      do o <- deref item;
      do out <- inspect_all rest;
      ret (Inspect H o :: out)
  end.

Definition evalShowStmt (args : list Val) : E Val :=
  do output <- inspect_all args;
  write_buff (gostr.join output +:+ gostr.newline);;
  ret NULL.

(** The tree walk.  Every function of the evaluator calls [Eval] on
    the children of its node; the functions are written over the [Eval]
    of the level below, and the knot is tied by [Eval] at the end.  The
    loop of [evalWhileExpr], the walk of [Get] along the environment
    chain and the parser run by an include get the budget [fuel]. *)
Section Walk.

Variable Eval : ast.Node → nat → E Val.
Variable fuel : nat.

Fixpoint evalProg_loop (stmts : list ast.Stmt) (env : nat) (res : Val) : E Val :=
  match stmts with
  | [] => ret res
  | stmt :: rest =>
      do res <- Eval (ast.NodeStmt stmt) env;
      match res with
      | Some (ReturnValue _ v) => ret v
      | Some (Error _) => ret res
      | _ => evalProg_loop rest env res
      end
  end.

Definition evalProg (prog : ast.Program) (env : nat) : E Val :=
  evalProg_loop (ast.Stmts prog) env None.

Fixpoint evalBlockStmt_loop (stmts : list ast.Stmt) (env : nat) (res : Val)
  : E Val :=
  match stmts with
  | [] => ret res
  | stmt :: rest =>
      do res <- Eval (ast.NodeStmt stmt) env;
      match res with
      | Some o =>
          if bool_decide (Type_ o = RETURN_VAL_OBJ)
             || bool_decide (Type_ o = ERR_OBJ)
          then ret res
          else evalBlockStmt_loop rest env res
      | None => evalBlockStmt_loop rest env res
      end
  end.

Definition evalBlockStmt (block : ast.BlockStmt) (env : nat) : E Val :=
  evalBlockStmt_loop (ast.block_stmts block) env None.

Fixpoint evalExprs_loop (es : list (option ast.Expr)) (env : nat)
    (res : list Val) : E (list Val) :=
  match es with
  | [] => ret res
  | e :: rest =>
      do ev <- Eval (ast.of_expr e) env;
      if isErr ev then ret [ev]
      else evalExprs_loop rest env (res ++ [ev])
  end.

Definition evalExprs (es : list (option ast.Expr)) (env : nat) : E (list Val) :=
  evalExprs_loop es env [].

Definition evalId (t : token.Token) (name : string) (env : nat) : E Val :=
  do r <- env_Get fuel env name;
  match r with
  | Some val => ret val
  | None =>
      if builtins H name then ret (Some (Builtin name))
      else NewErr t true ("id not found : " +:+ name)
  end.

Definition evalIfExpr (cond : option ast.Expr) (tb : ast.BlockStmt)
    (eb : option ast.BlockStmt) (env : nat) : E Val :=
  do c <- Eval (ast.of_expr cond) env;
  if isErr c then ret c
  else if isTruthy c then Eval (ast.NodeBlock tb) env
  else match eb with
       | Some eb => Eval (ast.NodeBlock eb) env
       | None => ret NULL
       end.

(** The loop of [evalWhileExpr]: [for isTruthy(cond) { ... }]. *)
Fixpoint while_loop (n : nat) (wcond : option ast.Expr) (body : ast.BlockStmt)
    (env : nat) (cond result : Val) : E Val :=
  match n with
  | O => out_of_fuel
  | S n =>
      if isTruthy cond then
        do result <- Eval (ast.NodeBlock body) env;
        do cond <- Eval (ast.of_expr wcond) env;
        while_loop n wcond body env cond result
      else ret result
  end.

Definition evalWhileExpr (wcond : option ast.Expr) (body : ast.BlockStmt)
    (env : nat) : E Val :=
  do cond <- Eval (ast.of_expr wcond) env;
  if isErr cond then ret cond
  else while_loop fuel wcond body env cond None.

(** The loop of [evalHashLit] over the pairs in the order of the
    [range]. *)
Fixpoint evalHashLit_loop (t : token.Token)
    (nodes : list (option ast.Expr * option ast.Expr)) (env : nat)
    (pairs : gmap HashKey (Val * Val)) : E (Val + gmap HashKey (Val * Val)) :=
  match nodes with
  | [] => ret (inr pairs)
  | (kNode, vNode) :: rest =>
      do key <- Eval (ast.of_expr kNode) env;
      if isErr key then ret (inl key)
      else
        match key ≫= HashKeyOf H with
        | None =>
            do k <- deref key;
            do err <- NewErr t true
                        ("object cannot be used as hash key "
                         +:+ type_name H (Type_ k));
            ret (inl err)
        | Some hashed =>
            do val <- Eval (ast.of_expr vNode) env;
            if isErr val then ret (inl val)
            else evalHashLit_loop t rest env (<[hashed := (key, val)]> pairs)
        end
  end.

Definition evalHashLit (t : token.Token)
    (nodes : list (option ast.Expr * option ast.Expr)) (env : nat) : E Val :=
  do n <- next_range;
  do r <- evalHashLit_loop t (range_order H n nodes) env ∅;
  match r with
  | inl v => ret v
  | inr pairs => do id <- fresh_id; ret (Some (Hash id pairs))
  end.

Fixpoint bind_params (env : nat) (params : list ast.Identifier)
    (args : list Val) : E unit :=
  match params, args with
  | param :: params, arg :: args =>
      env_Set env param.2 arg;; bind_params env params args
  | [], _ => ret tt
  | _ :: _, [] => panic
  end.

Definition extendFuncEnv (fenv : nat) (params : list ast.Identifier)
    (args : list Val) : E nat :=
  do env <- NewEnclosedEnv fenv;
  bind_params env params args;;
  ret env.

(** [applyFunc], in both versions of the sources (the later one threads
    the flag [isGui] through and names the unwrapping
    [unwrapReturnValue]). *)
Definition applyFunc (fn : Val) (caller : token.Token) (args : list Val)
  : E Val :=
  do f <- deref fn;
  match f with
  | Function _ params body fenv _ =>
      if bool_decide (List.length params = List.length args) then
        do eEnv <- extendFuncEnv fenv params args;
        do evd <- Eval (ast.NodeBlock body) eEnv;
        ret (unwrapRValue evd)
      else
        NewErr caller false
          ("Function call doesn't have required arguments provided; wanted = "
           +:+ gostr.Itoa (Z.of_nat (List.length params)) +:+ " but got "
           +:+ gostr.Itoa (Z.of_nat (List.length args)))
  | Builtin name =>
      λ s, let '(v, n) := builtin_Fn H name args (next_id s) in
           Ok v {| heap := heap s; printBuff := printBuff s; next_id := n;
                   ranges := ranges s |}
  | _ => NewBareErr (type_name H (Type_ f) +:+ " is not a function")
  end.

(** The parser of an include runs on its own state.  Its errors are
    printed to the standard output of the process, which is not the
    print buffer. *)
Definition run_parser (l : lexer.Lexer)
  : E (ast.Program * list errs.ParserError) :=
  λ s, match parser.ParseProg (phost H) fuel (parser.NewParser l) with
       | Ok prog p => Ok (prog, parser.GetErrors p) s
       | Panic => Panic
       | OutOfFuel => OutOfFuel
       end.

Definition evalIncludeStmt (t : token.Token) (filename : option ast.Expr)
    (e : nat) : E (nat * Val) :=
  do rawFilename <- Eval (ast.of_expr filename) e;
  do enx <- NewEnv;
  do raw <- deref rawFilename;
  match raw with
  | String includeFilename _ =>
      if stat_not_exist H includeFilename then
        do err <- NewErr t true
                    (includeFilename +:+ " include file doesnot exists");
        ret (enx, err)
      else
        match ReadFile H includeFilename with
        | None =>
            do err <- NewErr (GetToken raw) true
                        ("Failed to read include file " +:+ includeFilename);
            ret (enx, err)
        | Some fdata =>
            let l := NewLexer H fdata in
            do ex <- NewEnv;
            do parsed <- run_parser l;
            Eval (ast.NodeProgram parsed.1) ex;;
            if bool_decide (List.length parsed.2 ≠ 0) then
              do err <- NewErr (GetToken raw) true
                          "Include file contains parsing errors";
              ret (enx, err)
            else ret (ex, NULL)
        end
  | _ =>
      do err <- NewErr (GetToken raw) true
                  ("include filename is invalid " +:+ Inspect H raw);
      ret (enx, err)
  end.

Definition Eval_expr (e : ast.Expr) (env : nat) : E Val :=
  match e with
  | ast.Boolean _ v => ret (getBoolObj v)
  | ast.NumberLit t v isInt => ret (Some (Number v isInt t))
  | ast.PrefixExpr _ op rhs =>
      do r <- Eval (ast.of_expr rhs) env;
      if isErr r then ret r else evalPrefixExpr op r
  | ast.InfixExpr _ op lhs rhs =>
      do l <- Eval (ast.of_expr lhs) env;
      if isErr l then ret l
      else
        do r <- Eval (ast.of_expr rhs) env;
        if isErr r then ret r else evalInfixExpr op l r
  | ast.IfExpr _ cond tb eb => evalIfExpr cond tb eb env
  | ast.WhileExpr _ cond body => evalWhileExpr cond body env
  | ast.Ident t name => evalId t name env
  | ast.FunctionLit t pms body =>
      do id <- fresh_id; ret (Some (Function id pms body env t))
  | ast.CallExpr t func args =>
      do fnc <- Eval (ast.of_expr func) env;
      if isErr fnc then ret fnc
      else
        do args <- evalExprs args env;
        match args with
        | [a] => if isErr a then ret a else applyFunc fnc t args
        | _ => applyFunc fnc t args
        end
  | ast.StringLit t v => ret (Some (String v t))
  | ast.ArrLit t elms =>
      do elms <- evalExprs elms env;
      let arr : E Val := do id <- fresh_id; ret (Some (Array id elms t)) in
      match elms with
      | [a] => if isErr a then ret a else arr
      | _ => arr
      end
  | ast.IndexExpr _ lhs index =>
      do lv <- Eval (ast.of_expr lhs) env;
      if isErr lv then ret None
      else
        do iv <- Eval (ast.of_expr index) env;
        if isErr iv then ret iv else evalIndexExpr lv iv
  | ast.HashLit t pairs => evalHashLit t pairs env
  end.

Definition Eval_stmt (s : ast.Stmt) (env : nat) : E Val :=
  match s with
  | ast.ExprStmt _ e => Eval (ast.of_expr e) env
  | ast.ReturnStmt _ rv =>
      do val <- Eval (ast.of_expr rv) env;
      if isErr val then ret val
      else do id <- fresh_id; ret (Some (ReturnValue id val))
  | ast.ShowStmt _ values =>
      do args <- evalExprs values env;
      evalShowStmt args
  | ast.LetStmt _ name value =>
      do val <- Eval (ast.of_expr value) env;
      if isErr val then ret val
      else env_Set env name.2 val;; ret None
  | ast.NilLetStmt => panic
  | ast.IncludeStmt t filename =>
      do r <- evalIncludeStmt t filename env;
      do v <- deref r.2;
      if bool_decide (Type_ v ≠ ERR_OBJ) then
        do e <- NewEnclosedEnv r.1;
        env_assign env e;;
        ret None
      else ret r.2
  | ast.Comment _ _ => ret None
  end.

Definition Eval_body (node : ast.Node) (env : nat) : E Val :=
  match node with
  | ast.NodeNil => ret None
  | ast.NodeProgram p => evalProg p env
  | ast.NodeStmt s => Eval_stmt s env
  | ast.NodeBlock b => evalBlockStmt b env
  | ast.NodeExpr e => Eval_expr e env
  end.

End Walk.

Fixpoint Eval (fuel : nat) (node : ast.Node) (env : nat) : E Val :=
  match fuel with
  | O => out_of_fuel
  | S n => Eval_body (λ node env s, Eval n node env s) n node env
  end.

End WithHost.

(** One run: lex, parse and evaluate a source text in a fresh
    environment with an empty buffer. *)
Definition initial : State :=
  {| heap := []; printBuff := ""; next_id := 0; ranges := 0 |}.

Definition run (H : Host) (fuel : nat) (src : string) : Res State Val :=
  let p := parser.NewParser (NewLexer H src) in
  match parser.ParseProg (phost H) fuel p with
  | Ok prog _ =>
      (do env <- NewEnv;
       Eval H {| Source := src |} fuel (ast.NodeProgram prog) env) initial
  | Panic => Panic
  | OutOfFuel => OutOfFuel
  end.

End evaluator.


(** ** An instance of the host

    The scenarios are run on this instance.  Every part of it stands for
    code that is not among the sources. *)

Module demo.

Import token.

Definition is_letter (c : ascii) : bool :=
  let n := nat_of_ascii c in
  (Nat.leb 97 n && Nat.leb n 122) || (Nat.leb 65 n && Nat.leb n 90)
  || Nat.eqb n 95 || Nat.leb 128 n.

Definition is_digit (c : ascii) : bool :=
  let n := nat_of_ascii c in Nat.leb 48 n && Nat.leb n 57.

Definition is_space (c : ascii) : bool :=
  let n := nat_of_ascii c in
  Nat.eqb n 32 || Nat.eqb n 9 || Nat.eqb n 10 || Nat.eqb n 13.

Definition keywords (s : string) : TokenType :=
  if bool_decide (s = "dhori") then LET
  else if bool_decide (s = "ekti") then EKTI
  else if bool_decide (s = "kaj") then FUNC
  else if bool_decide (s = "jodi") then IF
  else if bool_decide (s = "tahole") then TAHOLE
  else if bool_decide (s = "nahole") then ELSE
  else if bool_decide (s = "sesh") then END
  else if bool_decide (s = "jotokhon") then WHILE
  else if bool_decide (s = "sotto") then TRUE
  else if bool_decide (s = "mittha") then FALSE
  else if bool_decide (s = "fero") then RETURN
  else if bool_decide (s = "dekhao") then SHOW
  else if bool_decide (s = "anoo") then INCLUDE
  else IDENT.

(** What the scanner is in the middle of; literals are accumulated in
    reverse. *)
Inductive Mode : Set :=
| Idle
| InWord (col : Z) (acc : string)
| InNumber (col : Z) (acc : string)
| InString (col : Z) (acc : string) (escaped : bool)
| InComment (col : Z) (acc : string)
| Pending (col : Z) (c : ascii).

Definition single (c : ascii) : TokenType :=
  match nat_of_ascii c with
  | 40 => LPAREN | 41 => RPAREN | 123 => LBRACE | 125 => RBRACE
  | 91 => LS_BRACKET | 93 => RS_BRACKET | 44 => COMMA | 58 => COLON
  | 59 => SEMICOLON | 43 => PLUS | 45 => MINUS | 42 => MUL | 47 => DIV
  | 61 => EQ | 33 => EXC | 60 => LT | 62 => GT
  | _ => ILLEGAL
  end.

Definition double (c : ascii) : TokenType :=
  match nat_of_ascii c with
  | 61 => EQEQ | 33 => NOT_EQ | 60 => LTE | 62 => GTE
  | _ => ILLEGAL
  end.

Definition str1 (c : ascii) : string := String c EmptyString.

(** The tokens that end when the scanner leaves mode [m]. *)
Definition flush (line : Z) (m : Mode) : list Token :=
  match m with
  | Idle => []
  | InWord col acc =>
      let s := String.rev acc in [mkToken (keywords s) s line col]
  | InNumber col acc => [mkToken NUM (String.rev acc) line col]
  | InString col acc _ => [mkToken STRING (String.rev acc) line col]
  | InComment col acc => [mkToken COMMENT (String.rev acc) line col]
  | Pending col c => [mkToken (single c) (str1 c) line col]
  end.

(** A character met outside of any token. *)
Definition start (c : ascii) (col : Z) : Mode * list Token :=
  let n := nat_of_ascii c in
  if is_space c then (Idle, [])
  else if is_letter c then (InWord col (str1 c), [])
  else if is_digit c then (InNumber col (str1 c), [])
  else if Nat.eqb n 34 then (InString (col + 1) EmptyString false, [])
  else if Nat.eqb n 35 then (InComment (col + 1) EmptyString, [])
  else if Nat.eqb n 61 || Nat.eqb n 33 || Nat.eqb n 60 || Nat.eqb n 62
       then (Pending col c, [])
  else (Idle, [mkToken (single c) (str1 c) 0 col]).

Definition at_line (line : Z) (t : Token) : Token :=
  mkToken (Type_ t) (Literal t) line (Column t).

Definition unescape (c : ascii) : ascii :=
  match nat_of_ascii c with
  | 110 => ascii_of_nat 10
  | 116 => ascii_of_nat 9
  | _ => c
  end.

Definition step (c : ascii) (line col : Z) (m : Mode) : Mode * list Token :=
  let restart :=
    let '(m', out) := start c col in (m', flush line m ++ map (at_line line) out) in
  match m with
  | Idle => restart
  | InWord k acc =>
      if is_letter c || is_digit c then (InWord k (String c acc), []) else restart
  | InNumber k acc =>
      if is_digit c || Nat.eqb (nat_of_ascii c) 46
      then (InNumber k (String c acc), []) else restart
  | InString k acc true => (InString k (String (unescape c) acc) false, [])
  | InString k acc false =>
      if Nat.eqb (nat_of_ascii c) 92 then (InString k acc true, [])
      else if Nat.eqb (nat_of_ascii c) 34 then (Idle, flush line m)
      else (InString k (String c acc) false, [])
  | InComment k acc =>
      if Nat.eqb (nat_of_ascii c) 10 then (Idle, flush line m)
      else (InComment k (String c acc), [])
  | Pending k p =>
      if Nat.eqb (nat_of_ascii c) 61
      then (Idle, [mkToken (double p) (str1 p +:+ str1 c) line k])
      else restart
  end.

Fixpoint scan (s : string) (line col : Z) (m : Mode) : list Token * Token :=
  match s with
  | EmptyString => (flush line m, mkToken EOF "" line col)
  | String c rest =>
      let '(m', out) := step c line col m in
      let '(line', col') :=
        if Nat.eqb (nat_of_ascii c) 10 then ((line + 1)%Z, 1%Z)
        else (line, (col + 1)%Z) in
      let '(toks, e) := scan rest line' col' m' in
      (out ++ toks, e)
  end.

(** Modelled from the spec: the lexer of section 4.1 (whitespace,
    identifiers and keywords, numbers, strings with escapes, comments,
    one- and two-character operators, 1-based lines and columns,
    [ILLEGAL] for an unknown character). *)
Definition NewLexer (src : string) : lexer.Lexer :=
  let '(toks, e) := scan src 1 1 Idle in
  {| lexer.pending := toks; lexer.eof := e;
     lexer.GetLine := λ n,
       if bool_decide (1 ≤ n)%Z
       then gostr.split_lines src !! Z.to_nat (n - 1) else None |}.

Definition parser_host : parser.Host :=
  {| parser.tt_string := λ t,
       match t with
       | IDENT => "IDENT" | NUM => "NUM" | STRING => "STRING" | EOF => "EOF"
       | LPAREN => "(" | RPAREN => ")" | LBRACE => "{" | RBRACE => "}"
       | LS_BRACKET => "[" | RS_BRACKET => "]" | COMMA => ","
       | COLON => ":" | SEMICOLON => ";" | EQ => "="
       | FUNC => "kaj" | TAHOLE => "tahole" | _ => "TOKEN"
       end;
     parser.HumanFriendly := λ s, s;
     parser.IsFloat := gostr.contains ".";
     parser.IntSetString := λ s, Z.of_int <$> NilZero.int_of_string s;
     parser.FloatSetString := λ _, None |}.

Import object.

Definition type_name (t : ObjType) : string :=
  match t with
  | NULL_OBJ => "NULL" | BOOL_OBJ => "BOOLEAN" | NUM_OBJ => "NUMBER"
  | STRING_OBJ => "STRING" | ARRAY_OBJ => "ARRAY" | HASH_OBJ => "HASH"
  | FUNC_OBJ => "FUNCTION" | BUILTIN_OBJ => "BUILTIN"
  | RETURN_VAL_OBJ => "RETURN_VALUE" | ERR_OBJ => "ERROR"
  end.

Definition sep_by (sep : string) (l : list string) : string :=
  match l with
  | [] => ""
  | x :: r => x +:+ gostr.join (map (String.append sep) r)
  end.

(** Modelled from the spec: the renderings of section 6 (numbers in
    decimal, strings as their raw value, arrays as [[e1, e2, …]], hashes
    as [{k: v, …}], [null], [sotto] and [mittha], an opaque tag for
    functions).  [n] bounds the nesting that is rendered. *)
Fixpoint inspect (n : nat) (o : Obj) : string :=
  match n with
  | O => "…"
  | S n =>
      let val (v : Val) := from_option (inspect n) "<nil>" v in
      match o with
      | Null => "null"
      | Boolean true => "sotto"
      | Boolean false => "mittha"
      | Number {| number.Value := Some (number.IntNumber z) |} _ _ => gostr.Itoa z
      | Number _ _ _ => "<float>"
      | String s _ => s
      | Array _ elms _ => "[" +:+ sep_by ", " (map val elms) +:+ "]"
      | Hash _ pairs =>
          "{" +:+ sep_by ", "
            (map (λ kv, val kv.2.1 +:+ ": " +:+ val kv.2.2) (map_to_list pairs))
          +:+ "}"
      | Function _ _ _ _ _ => "<function>"
      | Builtin _ => "<builtin>"
      | ReturnValue _ v => val v
      | Error msg => "ERROR: " +:+ msg
      end
  end.

Definition fnv1a (s : string) : Z :=
  foldl (λ h c, (Z.lxor h (Z.of_nat (nat_of_ascii c)) * 1099511628211)
                 mod 2 ^ 64)%Z
        14695981039346656037%Z (list_ascii_of_string s).

(** Modelled from the spec: only strings, numbers and booleans are
    hashable; the digest of a boolean is 1 or 0, of an integer its
    low-order 64 bits, of a string FNV-1a 64. *)
Definition HashKeyOf (o : Obj) : option HashKey :=
  match o with
  | Boolean b => Some (BOOL_OBJ, if b then 1 else 0)%Z
  | Number {| number.Value := Some (number.IntNumber z) |} _ _ =>
      Some (NUM_OBJ, z mod 2 ^ 64)%Z
  | Number {| number.Value := Some (number.FloatNumber m e) |} _ _ =>
      Some (NUM_OBJ, (m * 2 ^ e) mod 2 ^ 64)%Z
  | String s _ => Some (STRING_OBJ, fnv1a s)
  | _ => None
  end.

Definition int_result (z : Z) : number.Number * bool * bool :=
  ({| number.Value := Some (number.IntNumber z); number.IsInt := true |},
   false, true).

Definition bool_result (b : bool) : number.Number * bool * bool :=
  ({| number.Value := None; number.IsInt := false |}, b, true).

Definition no_result : number.Number * bool * bool :=
  ({| number.Value := None; number.IsInt := false |}, false, false).

(** Modelled from the spec: the numeric semantics of section 4.3 on
    integers (division truncates toward zero); this instance has no
    floats. *)
Definition NumberOperation (op : string) (l r : number.Number)
  : number.Number * bool * bool :=
  match number.Value l, number.Value r with
  | Some (number.IntNumber a), Some (number.IntNumber b) =>
      if bool_decide (op = "+") then int_result (a + b)
      else if bool_decide (op = "-") then int_result (a - b)
      else if bool_decide (op = "*") then int_result (a * b)
      else if bool_decide (op = "/")
           then if bool_decide (b = 0)%Z then no_result
                else int_result (Z.quot a b)
      else if bool_decide (op = "==") then bool_result (bool_decide (a = b))
      else if bool_decide (op = "!=") then bool_result (negb (bool_decide (a = b)))
      else if bool_decide (op = "<") then bool_result (bool_decide (a < b)%Z)
      else if bool_decide (op = ">") then bool_result (bool_decide (a > b)%Z)
      else if bool_decide (op = "<=") then bool_result (bool_decide (a ≤ b)%Z)
      else if bool_decide (op = ">=") then bool_result (bool_decide (a >= b)%Z)
      else no_result
  | _, _ => no_result
  end.

Definition MakeNeg (n : number.Number) : number.Number :=
  match number.Value n with
  | Some (number.IntNumber a) =>
      {| number.Value := Some (number.IntNumber (- a)); number.IsInt := true |}
  | Some (number.FloatNumber m e) =>
      {| number.Value := Some (number.FloatNumber (- m) e); number.IsInt := false |}
  | None => n
  end.

Definition GetAsInt (n : number.Number) : Z * bool :=
  match number.Value n with
  | Some (number.IntNumber a) => (a, true)
  | _ => (0%Z, false)
  end.

(** A host without builtins over a file system given by [files]; every
    [range] visits the pairs in the order [order]. *)
Definition host (files : string → option string)
    (order : nat → list (option ast.Expr * option ast.Expr)
             → list (option ast.Expr * option ast.Expr)) : evaluator.Host :=
  {| evaluator.phost := parser_host;
     evaluator.type_name := type_name;
     evaluator.Inspect := inspect 64;
     evaluator.HashKeyOf := HashKeyOf;
     evaluator.NumberOperation := NumberOperation;
     evaluator.MakeNeg := MakeNeg;
     evaluator.GetAsInt := GetAsInt;
     evaluator.builtins := λ _, false;
     evaluator.builtin_Fn := λ _ _ n, (None, n);
     evaluator.stat_not_exist := λ f, bool_decide (files f = None);
     evaluator.ReadFile := files;
     evaluator.NewLexer := NewLexer;
     evaluator.range_order := order |}.

Definition no_files : string → option string := λ _, None.

Definition in_order : nat → list (option ast.Expr * option ast.Expr)
                      → list (option ast.Expr * option ast.Expr) := λ _ l, l.

Definition reversed : nat → list (option ast.Expr * option ast.Expr)
                      → list (option ast.Expr * option ast.Expr) := λ _ l, rev l.

(** The result and the print buffer of a run. *)
Definition outcome (r : Res evaluator.State Val) : option (Val * string) :=
  match r with
  | Ok v s => Some (v, evaluator.printBuff s)
  | _ => None
  end.

End demo.

(** ** Vocabulary of the properties *)

(** The two insertions of the markers: slicing at [R] and then at
    [L ≤ R] goes through exactly when [0 ≤ L] and [R ≤ len line]. *)
Definition marked (line : string) (L R : Z) : string :=
  gostr.take (Z.to_nat L) line +:+ " --> "
  +:+ gostr.drop (Z.to_nat L) (gostr.take (Z.to_nat R) line) +:+ " <-- "
  +:+ gostr.drop (Z.to_nat R) line.

Definition insert_markers (line : string) (L R : Z) : option string :=
  a ← gostr.slice_to line R;
  b ← gostr.slice_from line R;
  let newL := a +:+ " <-- " +:+ b in
  c ← gostr.slice_to newL L;
  d ← gostr.slice_from newL L;
  Some (c +:+ " --> " +:+ d).

(** The index [RIndex] of the right marker, given the left one. *)
Definition right_index (t : token.Token) (L : Z) : Z :=
  if bool_decide (gostr.len (token.Literal t) ≤ 1)%Z then (L + 1)%Z
  else (token.Column t + gostr.len (token.Literal t) - 1)%Z.

Definition eof_at_line_end : token.Token := token.mkToken token.EOF "" 1 1.
Definition virtual_ident : token.Token := token.mkToken token.IDENT "x" 0 0.
Definition column_zero : token.Token := token.mkToken token.IDENT "x" 1 0.

(** ** Frames that a computation leaves alone

    [extends b st st']: the environments at the addresses below [b] are
    the same in [st'] as in [st], and the heap has not shrunk.
    [pres b m Q]: started in a heap of at least [b] environments, a
    result of [m] satisfies [Q] and the final state extends the initial
    one. *)

Definition extends (b : nat) (st st' : evaluator.State) : Prop :=
  (∀ a, a < b → evaluator.heap st' !! a = evaluator.heap st !! a)
  ∧ List.length (evaluator.heap st) ≤ List.length (evaluator.heap st').

Definition pres {A : Type} (b : nat) (m : evaluator.E A) (Q : A → Prop) : Prop :=
  ∀ st r st', b ≤ List.length (evaluator.heap st) → m st = Ok r st' →
    Q r ∧ extends b st st'.

(** The state after [include] has allocated its first environment, and
    after it has allocated both. *)
Definition fresh_env : object.Env := {| object.store := ∅; object.outer := None |}.

Definition enclosed (o : nat) : object.Env :=
  {| object.store := ∅; object.outer := Some o |}.

Definition alloc1 (st : evaluator.State) : evaluator.State :=
  evaluator.with_heap (evaluator.heap st ++ [fresh_env]) st.

Definition alloc2 (st : evaluator.State) : evaluator.State :=
  evaluator.with_heap (evaluator.heap st ++ [fresh_env; fresh_env]) st.

Definition include_error (line msg : string) : object.Val :=
  Some (object.Error (line +:+ gostr.newline +:+ msg)).

(** [frames_kept st st']: every environment of [st] is the same in [st']. *)
Definition frames_kept (st st' : evaluator.State) : Prop :=
  ∀ a, a < List.length (evaluator.heap st) →
    evaluator.heap st' !! a = evaluator.heap st !! a.

(** The state in which a successful include at [env] ends: a new
    environment enclosed over [ex] is allocated and copied over the frame
    at [env]. *)
Definition spliced (env ex : nat) (st : evaluator.State) : evaluator.State :=
  evaluator.with_heap
    (<[env := enclosed ex]> (evaluator.heap st ++ [enclosed ex])) st.

(** ** Programs whose evaluation does not depend on the order of [range]

    A number, string or boolean literal, and the object it evaluates
    to. *)
Definition literal (e : option ast.Expr) : option object.Obj :=
  match e with
  | Some (ast.NumberLit t v isInt) => Some (object.Number v isInt t)
  | Some (ast.StringLit t v) => Some (object.String v t)
  | Some (ast.Boolean _ v) => Some (object.Boolean v)
  | _ => None
  end.

(** The hash key of a pair whose key is a literal, under the hash
    function [hk] of the host. *)
Definition literal_key (hk : object.Obj → option object.HashKey)
    (kv : option ast.Expr * option ast.Expr) : option object.HashKey :=
  literal kv.1 ≫= hk.

(** The pairs whose value is not a literal. *)
Definition computed (pairs : list (option ast.Expr * option ast.Expr))
  : list (option ast.Expr * option ast.Expr) :=
  filter (λ kv, literal kv.2 = None) pairs.

(** The pairs of a hash literal can be visited in any order: there is
    at most one pair, or every key is a literal, the keys are pairwise
    different as hash keys, and at most one value is not a literal. *)
Definition order_free (hk : object.Obj → option object.HashKey)
    (pairs : list (option ast.Expr * option ast.Expr)) : bool :=
  Nat.leb (List.length pairs) 1
  || (forallb (λ kv, bool_decide (is_Some (literal_key hk kv))) pairs
      && bool_decide (NoDup (omap (literal_key hk) pairs))
      && Nat.leb (List.length (computed pairs)) 1).

(** [plain_expr_by ok], [plain_stmt_by ok], [plain_block_by ok]: the
    node contains no include statement, and the pairs of every hash
    literal in it satisfy [ok]. *)
Fixpoint plain_expr_by (ok : list (option ast.Expr * option ast.Expr) → bool)
    (e : ast.Expr) : bool :=
  let opt (o : option ast.Expr) : bool :=
    match o with Some e => plain_expr_by ok e | None => true end in
  match e with
  | ast.Ident _ _ | ast.NumberLit _ _ _ | ast.StringLit _ _ | ast.Boolean _ _ => true
  | ast.PrefixExpr _ _ r => opt r
  | ast.InfixExpr _ _ l r => opt l && opt r
  | ast.IfExpr _ c tb eb =>
      opt c && plain_block_by ok tb
      && match eb with Some b => plain_block_by ok b | None => true end
  | ast.WhileExpr _ c body => opt c && plain_block_by ok body
  | ast.FunctionLit _ _ body => plain_block_by ok body
  | ast.CallExpr _ f args =>
      opt f && forallb (λ a, match a with Some e => plain_expr_by ok e | None => true end) args
  | ast.ArrLit _ elms =>
      forallb (λ a, match a with Some e => plain_expr_by ok e | None => true end) elms
  | ast.HashLit _ pairs =>
      ok pairs
      && forallb (λ kv, match kv.1 with Some e => plain_expr_by ok e | None => true end
                        && match kv.2 with Some e => plain_expr_by ok e | None => true end)
           pairs
  | ast.IndexExpr _ l i => opt l && opt i
  end
with plain_stmt_by (ok : list (option ast.Expr * option ast.Expr) → bool)
    (s : ast.Stmt) : bool :=
  let opt (o : option ast.Expr) : bool :=
    match o with Some e => plain_expr_by ok e | None => true end in
  match s with
  | ast.LetStmt _ _ v => opt v
  | ast.NilLetStmt => true
  | ast.ReturnStmt _ v => opt v
  | ast.ShowStmt _ vs =>
      forallb (λ a, match a with Some e => plain_expr_by ok e | None => true end) vs
  | ast.IncludeStmt _ _ => false
  | ast.ExprStmt _ e => opt e
  | ast.Comment _ _ => true
  end
with plain_block_by (ok : list (option ast.Expr * option ast.Expr) → bool)
    (b : ast.BlockStmt) : bool :=
  match b with
  | ast.Block _ stmts => forallb (plain_stmt_by ok) stmts
  end.

Definition plain_opt_by (ok : list (option ast.Expr * option ast.Expr) → bool)
    (o : option ast.Expr) : bool :=
  match o with Some e => plain_expr_by ok e | None => true end.

Definition plain_node_by (ok : list (option ast.Expr * option ast.Expr) → bool)
    (n : ast.Node) : bool :=
  match n with
  | ast.NodeNil => true
  | ast.NodeProgram p => forallb (plain_stmt_by ok) (ast.Stmts p)
  | ast.NodeStmt s => plain_stmt_by ok s
  | ast.NodeBlock b => plain_block_by ok b
  | ast.NodeExpr e => plain_expr_by ok e
  end.

(** A node is _plain_ under the hash function [hk] when it contains no
    include statement and the pairs of each of its hash literals can be
    visited in any order. *)
Abbreviation plain_expr hk := (plain_expr_by (order_free hk)).
Abbreviation plain_stmt hk := (plain_stmt_by (order_free hk)).
Abbreviation plain_block hk := (plain_block_by (order_free hk)).
Abbreviation plain_opt hk := (plain_opt_by (order_free hk)).
Abbreviation plain_node hk := (plain_node_by (order_free hk)).

(** A statement without include statements, whatever its hash literals
    are. *)
Definition include_free (s : ast.Stmt) : bool := plain_stmt_by (λ _, true) s.

Section Plain.

Variable hk : object.Obj → option object.HashKey.

(** [plain_obj hk]: every function inside the object has a plain body. *)
Inductive plain_obj : object.Obj → Prop :=
| plain_Null : plain_obj object.Null
| plain_Boolean b : plain_obj (object.Boolean b)
| plain_Number v i t : plain_obj (object.Number v i t)
| plain_String s t : plain_obj (object.String s t)
| plain_Array id elms t :
    (∀ o, Some o ∈ elms → plain_obj o) → plain_obj (object.Array id elms t)
| plain_Hash id (pairs : gmap object.HashKey (object.Val * object.Val)) :
    (∀ k kv o, pairs !! k = Some kv → kv.1 = Some o ∨ kv.2 = Some o → plain_obj o) →
    plain_obj (object.Hash id pairs)
| plain_Function id params body env t :
    plain_block hk body = true → plain_obj (object.Function id params body env t)
| plain_Builtin name : plain_obj (object.Builtin name)
| plain_ReturnValue id v :
    (∀ o, v = Some o → plain_obj o) → plain_obj (object.ReturnValue id v)
| plain_Error msg : plain_obj (object.Error msg).

Definition plain_val (v : object.Val) : Prop := ∀ o, v = Some o → plain_obj o.

Definition plain_state (st : evaluator.State) : Prop :=
  ∀ a e name v, evaluator.heap st !! a = Some e →
    object.store e !! name = Some v → plain_val v.

Definition plain_pairs (pairs : gmap object.HashKey (object.Val * object.Val))
  : Prop :=
  ∀ k kv o, pairs !! k = Some kv → kv.1 = Some o ∨ kv.2 = Some o → plain_obj o.

(** [agree m1 m2 Q]: from a plain state the two computations have the
    same outcome; a result satisfies [Q] and comes with a plain state. *)
Definition agree {A : Type} (m1 m2 : evaluator.E A) (Q : A → Prop) : Prop :=
  ∀ st, plain_state st →
    m1 st = m2 st ∧ ∀ r st', m1 st = Ok r st' → plain_state st' ∧ Q r.

(** The entry that a pair with a literal key files in the map of a
    hash; [val] is the value of the pair's value expression when that
    is not a literal. *)
Definition entry (val : object.Val) (kv : option ast.Expr * option ast.Expr)
  : option (object.HashKey * (object.Val * object.Val)) :=
  match literal kv.1 with
  | Some k =>
      match hk k with
      | Some h =>
          Some (h, (Some k, match literal kv.2 with
                            | Some o => Some o
                            | None => val
                            end))
      | None => None
      end
  | None => None
  end.

Definition entries (val : object.Val)
    (pairs : list (option ast.Expr * option ast.Expr))
  : list (object.HashKey * (object.Val * object.Val)) :=
  omap (entry val) pairs.

End Plain.

Definition file_entry (m : gmap object.HashKey (object.Val * object.Val))
    (e : object.HashKey * (object.Val * object.Val))
  : gmap object.HashKey (object.Val * object.Val) :=
  <[e.1 := e.2]> m.

(** The builtins of a host return plain values on plain arguments. *)
Definition plain_builtins (H : evaluator.Host) : Prop :=
  ∀ name args n, Forall (plain_val (evaluator.HashKeyOf H)) args →
    plain_val (evaluator.HashKeyOf H) (evaluator.builtin_Fn H name args n).1.

(** The host [H] with the order [o] of [range]. *)
Definition with_order (H : evaluator.Host)
    (o : nat → list (option ast.Expr * option ast.Expr)
         → list (option ast.Expr * option ast.Expr)) : evaluator.Host :=
  {| evaluator.phost := evaluator.phost H;
     evaluator.type_name := evaluator.type_name H;
     evaluator.Inspect := evaluator.Inspect H;
     evaluator.HashKeyOf := evaluator.HashKeyOf H;
     evaluator.NumberOperation := evaluator.NumberOperation H;
     evaluator.MakeNeg := evaluator.MakeNeg H;
     evaluator.GetAsInt := evaluator.GetAsInt H;
     evaluator.builtins := evaluator.builtins H;
     evaluator.builtin_Fn := evaluator.builtin_Fn H;
     evaluator.stat_not_exist := evaluator.stat_not_exist H;
     evaluator.ReadFile := evaluator.ReadFile H;
     evaluator.NewLexer := evaluator.NewLexer H;
     evaluator.range_order := o |}.

(** An order of [range] visits every pair once. *)
Definition is_order
    (o : nat → list (option ast.Expr * option ast.Expr)
         → list (option ast.Expr * option ast.Expr)) : Prop :=
  ∀ n l, o n l ≡ₚ l.

(** A source text is parsed into a plain program: no include
    statement, and the pairs of every hash literal can be visited in any
    order. *)
Definition parses_plain (H : evaluator.Host) (fuel : nat) (src : string) : Prop :=
  ∀ prog p,
    parser.ParseProg (evaluator.phost H) fuel
      (parser.NewParser (evaluator.NewLexer H src)) = Ok prog p →
    forallb (plain_stmt (evaluator.HashKeyOf H)) (ast.Stmts prog) = true.

(** A source text is parsed into a program without include statements. *)
Definition parses_include_free (H : evaluator.Host) (fuel : nat) (src : string)
  : Prop :=
  ∀ prog p,
    parser.ParseProg (evaluator.phost H) fuel
      (parser.NewParser (evaluator.NewLexer H src)) = Ok prog p →
    forallb include_free (ast.Stmts prog) = true.

(** ** The programs of the scenarios *)

Module scenario.

Import token.

(** The host of the scenarios: no files, [range] in insertion order. *)
Definition h0 : evaluator.Host := demo.host demo.no_files demo.in_order.

(** A state with one empty top-level environment at address 0. *)
Definition top : evaluator.State :=
  {| evaluator.heap := [{| object.store := ∅; object.outer := None |}];
     evaluator.printBuff := ""; evaluator.next_id := 0; evaluator.ranges := 0 |}.

(** [y[0]], with [y] unbound. *)
Definition src_index : string := "y[0]".
Definition y_ident : ast.Expr := ast.Ident (mkToken IDENT "y" 1 1) "y".
Definition zero_lit : ast.Expr :=
  ast.NumberLit (mkToken NUM "0" 1 3)
    {| number.Value := Some (number.IntNumber 0); number.IsInt := true |} true.
Definition y_index : ast.Expr :=
  ast.IndexExpr (mkToken LS_BRACKET "[" 1 2) (Some y_ident) (Some zero_lit).
Definition y_not_found : string :=
  "1|  --> y <-- [0]" +:+ gostr.newline +:+ "id not found : y".

(** [dekhao(1 + "x");] *)
Definition src_show : string :=
  "dekhao(1 + " +:+ gostr.dq +:+ "x" +:+ gostr.dq +:+ ");".
Definition int_lit (z : Z) (lit : string) (col : Z) : ast.Expr :=
  ast.NumberLit (mkToken NUM lit 1 col)
    {| number.Value := Some (number.IntNumber z); number.IsInt := true |} true.
Definition one_plus_x : ast.Expr :=
  ast.InfixExpr (mkToken PLUS "+" 1 10) "+"
    (Some (int_lit 1 "1" 8)) (Some (ast.StringLit (mkToken STRING "x" 1 13) "x")).
Definition show_stmt : ast.Stmt :=
  ast.ShowStmt (mkToken SHOW "dekhao" 1 1) [Some one_plus_x].
Definition type_mismatch : string :=
  "1| " +:+ src_show +:+ gostr.newline +:+ "Type mismatch:  NUMBER + STRING ".

(** [dhori x = 5;] *)
Definition src_let : string := "dhori x = 5;".
Definition x_name : ast.Identifier := (mkToken IDENT "x" 1 7, "x").
Definition let_stmt : ast.Stmt :=
  ast.LetStmt (mkToken LET "dhori" 1 1) x_name (Some (int_lit 5 "5" 11)).
Definition five : object.Val :=
  Some (object.Number
          {| number.Value := Some (number.IntNumber 5); number.IsInt := true |}
          true (mkToken NUM "5" 1 11)).

(** The frame [e] after [name] is bound to [v] in it. *)
Definition bound (name : string) (v : object.Val) (e : object.Env) : object.Env :=
  {| object.store := <[name := v]> (object.store e);
     object.outer := object.outer e |}.

(** [jodi (sotto) tahole 1; nahole 2; 3; sesh] *)
Definition src_if_else : string := "jodi (sotto) tahole 1; nahole 2; 3; sesh".
Definition expr_stmt (z : Z) (lit : string) (col : Z) : ast.Stmt :=
  ast.ExprStmt (mkToken NUM lit 1 col) (Some (int_lit z lit col)).
Definition if_else_expr : ast.Expr :=
  ast.IfExpr (mkToken IF "jodi" 1 1)
    (Some (ast.Boolean (mkToken TRUE "sotto" 1 7) true))
    (ast.Block (mkToken NUM "1" 1 21) [expr_stmt 1 "1" 21])
    (Some (ast.Block (mkToken NUM "1" 1 21) [expr_stmt 2 "2" 31])).
Definition sesh_token : Token := mkToken END "sesh" 1 37.
Definition sesh_error : errs.ParserError :=
  errs.NoPrefixSuffixError sesh_token
    "1| jodi (sotto) tahole 1; nahole 2; 3;  --> sesh <-- ".

(** [dhori xs = [10, 20, 30]; dekhao(xs[5]);] *)
Definition src_array : string := "dhori xs = [10, 20, 30]; dekhao(xs[5]);".

Definition array_10_20_30 : list object.Val :=
  [Some (object.Number
           {| number.Value := Some (number.IntNumber 10); number.IsInt := true |}
           true (mkToken NUM "10" 1 13));
   Some (object.Number
           {| number.Value := Some (number.IntNumber 20); number.IsInt := true |}
           true (mkToken NUM "20" 1 17));
   Some (object.Number
           {| number.Value := Some (number.IntNumber 30); number.IsInt := true |}
           true (mkToken NUM "30" 1 21))].

(** The bindings of a call: the parameters are bound to the arguments
    in order, a later parameter of the same name overriding an earlier
    one. *)
Definition bindings (params : list ast.Identifier) (args : list object.Val)
  : gmap string object.Val :=
  foldl (λ m pa, <[pa.1.2 := pa.2]> m) ∅ (zip params args).

Definition arity_message (M N : nat) : string :=
  "Function call doesn't have required arguments provided; wanted = "
  +:+ gostr.Itoa (Z.of_nat M) +:+ " but got " +:+ gostr.Itoa (Z.of_nat N).

(** [dhori f = ekti kaj (a) fero a; sesh f(1, 2)]: the call has one
    argument too many. *)
Definition src_arity : string := "dhori f = ekti kaj (a) fero a; sesh f(1, 2)".
Definition a_param : ast.Identifier := (mkToken IDENT "a" 1 21, "a").
Definition fero_a : ast.BlockStmt :=
  ast.Block (mkToken RPAREN ")" 1 22)
    [ast.ReturnStmt (mkToken RETURN "fero" 1 24)
       (Some (ast.Ident (mkToken IDENT "a" 1 29) "a"))].
Definition f_value : object.Val :=
  Some (object.Function 0 [a_param] fero_a 0 (mkToken FUNC "kaj" 1 16)).
Definition call_token : Token := mkToken LPAREN "(" 1 38.

(** [jotokhon (c) dhori c = mittha; sotto sesh]: the loop runs once
    when [c] is bound to [TRUE]. *)
Definition tk (t : TokenType) (lit : string) (col : Z) : Token :=
  mkToken t lit 1 col.
Definition src_loop : string := "jotokhon (c) dhori c = mittha; sotto sesh".
Definition loop_cond : ast.Expr := ast.Ident (tk IDENT "c" 11) "c".
Definition loop_body : ast.BlockStmt :=
  ast.Block (tk RPAREN ")" 12)
    [ast.LetStmt (tk LET "dhori" 14) (tk IDENT "c" 20, "c")
       (Some (ast.Boolean (tk FALSE "mittha" 24) false));
     ast.ExprStmt (tk TRUE "sotto" 32)
       (Some (ast.Boolean (tk TRUE "sotto" 32) true))].
Definition loop_expr : ast.Expr :=
  ast.WhileExpr (tk WHILE "jotokhon" 1) (Some loop_cond) loop_body.

(** A state whose top-level environment binds the given names. *)
Definition with_bindings (m : gmap string object.Val) : evaluator.State :=
  {| evaluator.heap := [{| object.store := m; object.outer := None |}];
     evaluator.printBuff := ""; evaluator.next_id := 0; evaluator.ranges := 0 |}.

(** [jotokhon (mittha) 1; sesh]: the loop never runs. *)
Definition src_loop_never : string := "jotokhon (mittha) 1; sesh".

(** [jotokhon (sotto) y sesh]: the body evaluates to an [Error] every
    time ([y] is unbound). *)
Definition src_loop_forever : string := "jotokhon (sotto) y sesh".
Definition forever_cond : ast.Expr := ast.Boolean (tk TRUE "sotto" 11) true.
Definition forever_body : ast.BlockStmt :=
  ast.Block (tk RPAREN ")" 16)
    [ast.ExprStmt (tk IDENT "y" 18) (Some (ast.Ident (tk IDENT "y" 18) "y"))].
Definition forever_expr : ast.Expr :=
  ast.WhileExpr (tk WHILE "jotokhon" 1) (Some forever_cond) forever_body.

(** A loop whose body evaluates to an [Error] in its first iteration
    and to [TRUE] in its second and last one ([y] is unbound). *)
Definition src_loop_error : string :=
  "jotokhon (c) dhori c = f; dhori f = mittha; "
  +:+ "jodi (c) tahole y nahole sotto sesh sesh".

(** [anoo "lib.pnk";] over a file system with the one file [lib.pnk],
    which holds [dhori z = sotto;], and [anoo "nofile.pnk";]. *)
Definition lib_files (f : string) : option string :=
  if bool_decide (f = "lib.pnk") then Some "dhori z = sotto;" else None.
Definition lib_host : evaluator.Host := demo.host lib_files demo.in_order.
Definition src_include : string :=
  "anoo " +:+ gostr.dq +:+ "lib.pnk" +:+ gostr.dq +:+ ";".
Definition include_stmt : ast.Stmt :=
  ast.IncludeStmt (tk INCLUDE "anoo" 1)
    (Some (ast.StringLit (tk STRING "lib.pnk" 7) "lib.pnk")).
Definition src_include_missing : string :=
  "anoo " +:+ gostr.dq +:+ "nofile.pnk" +:+ gostr.dq +:+ ";".
Definition include_missing_stmt : ast.Stmt :=
  ast.IncludeStmt (tk INCLUDE "anoo" 1)
    (Some (ast.StringLit (tk STRING "nofile.pnk" 7) "nofile.pnk")).
Definition missing_line : string :=
  "1|  --> anoo <--  " +:+ gostr.dq +:+ "nofile.pnk" +:+ gostr.dq +:+ ";".

(** The state after the included program has been evaluated in the
    environment at address 2. *)
Definition lib_loaded : evaluator.State :=
  {| evaluator.heap :=
       [{| object.store := ∅; object.outer := None |};
        {| object.store := ∅; object.outer := None |};
        {| object.store := {["z" := Some (object.Boolean true)]};
           object.outer := None |}];
     evaluator.printBuff := ""; evaluator.next_id := 0; evaluator.ranges := 0 |}.

(** [dhori h = {"a": 1, "a": 2}; dekhao(h["a"]);]: the value that is
    printed is that of the pair that [range] visits last. *)
Definition quoted (s : string) : string := gostr.dq +:+ s +:+ gostr.dq.
Definition src_hash_two : string :=
  "dhori h = {" +:+ quoted "a" +:+ ": 1, " +:+ quoted "a" +:+ ": 2}; dekhao(h["
  +:+ quoted "a" +:+ "]);".

(** [dhori m = {"k": 1}; dekhao(m["k"]);] *)
Definition src_hash_one : string :=
  "dhori m = {" +:+ quoted "k" +:+ ": 1}; dekhao(m[" +:+ quoted "k" +:+ "]);".

(** The statements that the parser makes of a source text, and its
    errors. *)
Definition parse (fuel : nat) (src : string)
  : option (list ast.Stmt * list errs.ParserError) :=
  match parser.ParseProg demo.parser_host fuel
          (parser.NewParser (demo.NewLexer src)) with
  | Ok prog p => Some (ast.Stmts prog, parser.GetErrors p)
  | _ => None
  end.

(** The condition and the body of a source text that is one while
    expression. *)
Definition while_parts (src : string) : option (option ast.Expr * ast.BlockStmt) :=
  match parse 30 src with
  | Some ([ast.ExprStmt _ (Some (ast.WhileExpr _ c b))], []) => Some (c, b)
  | _ => None
  end.

Definition add_output (out : string) (s : evaluator.State) : evaluator.State :=
  {| evaluator.heap := evaluator.heap s;
     evaluator.printBuff := evaluator.printBuff s +:+ out;
     evaluator.next_id := evaluator.next_id s;
     evaluator.ranges := evaluator.ranges s |}.

End scenario.

(** ** The iterations of a while expression

    [while_runs ev wcond body env k cond last st res st']: with the
    value [cond] of the condition and the last body value [last] in
    state [st], the loop makes [k] more iterations, none of which
    evaluates the body or the condition to an [Error], and ends in state
    [st'] with the value [res]. *)

Inductive while_runs (ev : ast.Node → nat → evaluator.E object.Val)
    (wcond : option ast.Expr) (body : ast.BlockStmt) (env : nat)
  : nat → object.Val → object.Val → evaluator.State
    → object.Val → evaluator.State → Prop :=
| while_stop cond last st :
    evaluator.isTruthy cond = false →
    while_runs ev wcond body env 0 cond last st last st
| while_iter k cond last st r st1 cond' st2 res st' :
    evaluator.isTruthy cond = true →
    ev (ast.NodeBlock body) env st = Ok r st1 →
    evaluator.isErr r = false →
    ev (ast.of_expr wcond) env st1 = Ok cond' st2 →
    evaluator.isErr cond' = false →
    while_runs ev wcond body env k cond' r st2 res st' →
    while_runs ev wcond body env (S k) cond last st res st'.

(** ** Hash literals of more than one pair *)

Module hashes.

(** [dhori m = {"k": 1, "j": 2}; dekhao(m["k"] + m["j"]);] *)
Definition src_two_keys : string :=
  "dhori m = {" +:+ scenario.quoted "k" +:+ ": 1, " +:+ scenario.quoted "j"
  +:+ ": 2}; dekhao(m[" +:+ scenario.quoted "k" +:+ "] + m["
  +:+ scenario.quoted "j" +:+ "]);".

(** [{"a": x, "b": y}], with [x] and [y] unbound: two values that are
    not literals. *)
Definition src_two_unbound : string :=
  "{" +:+ scenario.quoted "a" +:+ ": x, " +:+ scenario.quoted "b" +:+ ": y}".

(** [dhori k = "b"; dhori h = {k: 1, "b": 2}; dekhao(h["b"]);]: a key
    that is not a literal. *)
Definition src_computed_key : string :=
  "dhori k = " +:+ scenario.quoted "b" +:+ "; dhori h = {k: 1, "
  +:+ scenario.quoted "b" +:+ ": 2}; dekhao(h[" +:+ scenario.quoted "b" +:+ "]);".

End hashes.

(** ** Errors whose line cannot be formatted *)

(** What [NewErr] with a hint makes of the message [msg] at the token
    [tok] in the state [st]: the [Error] that starts with the marked line
    of the token, or a panic when that line cannot be formatted. *)
Definition include_report (eh : evaluator.ErrorHelper) (tok : token.Token)
    (msg : string) (st : evaluator.State) : Res evaluator.State object.Val :=
  match evaluator.MakeErrorLine eh tok true with
  | Some line => Ok (include_error line msg) st
  | None => Panic
  end.

(** Included files whose evaluation goes wrong under the error helper
    of the including file. *)
Module beyond.

(** [bad.pnk]: a let statement without a name. *)
Definition bad_pnk : string := "dhori 5;".

(** [two.pnk]: on its second line, the include of a file that does not
    exist. *)
Definition two_pnk : string :=
  gostr.newline +:+ "anoo " +:+ scenario.quoted "nofile.pnk" +:+ ";".

(** [calls.pnk]: on its second line, a call with two arguments of a
    function of one parameter. *)
Definition calls_pnk : string :=
  "dhori f = ekti kaj (a) fero a; sesh" +:+ gostr.newline +:+ "f(1, 2)".

Definition files (f : string) : option string :=
  if bool_decide (f = "bad.pnk") then Some bad_pnk
  else if bool_decide (f = "two.pnk") then Some two_pnk
  else if bool_decide (f = "calls.pnk") then Some calls_pnk
  else None.

Definition host : evaluator.Host := demo.host files demo.in_order.

(** [anoo "<file>";] *)
Definition src_include (file : string) : string :=
  "anoo " +:+ scenario.quoted file +:+ ";".

(** [anoo y[0];], with [y] unbound. *)
Definition src_include_nil : string := "anoo y[0];".

End beyond.

(** ** Vocabulary of the further properties *)

(** A result that ends a block: a return value or an error. *)
Definition stops (v : object.Val) : bool :=
  match v with
  | Some o =>
      bool_decide (object.Type_ o = object.RETURN_VAL_OBJ)
      || bool_decide (object.Type_ o = object.ERR_OBJ)
  | None => false
  end.

(** The outcome of [m] with its result mapped by [f]. *)
Definition map_res {S A B} (f : A → S → Res S B) (r : Res S A) : Res S B :=
  match r with
  | Ok a s => f a s
  | Panic => Panic
  | OutOfFuel => OutOfFuel
  end.

(** [grows s s']: the heap of [s'] has at least the environments of
    [s], and its print buffer is the one of [s] followed by whole lines. *)
Definition whole_lines (out : string) : Prop :=
  out = "" ∨ ∃ o, out = o +:+ gostr.newline.

Definition grows (s s' : evaluator.State) : Prop :=
  List.length (evaluator.heap s) ≤ List.length (evaluator.heap s')
  ∧ ∃ out, evaluator.printBuff s' = evaluator.printBuff s +:+ out
           ∧ whole_lines out.

Definition keeps {A : Type} (m : evaluator.E A) : Prop :=
  ∀ s r s', m s = Ok r s' → grows s s'.

(** [filed H pairs]: every entry of the hash is stored under the hash
    key of its own key object, and neither its key nor its value is an
    error. *)
Definition filed (H : evaluator.Host)
    (pairs : gmap object.HashKey (object.Val * object.Val)) : Prop :=
  ∀ hk key val, pairs !! hk = Some (key, val) →
    key ≫= evaluator.HashKeyOf H = Some hk
    ∧ evaluator.isErr key = false ∧ evaluator.isErr val = false.

(** The tokens ahead of the parser: the current one, the next one and
    those the lexer has not handed out, followed by the end-of-file token
    for ever.  [stream p i] is the [i]-th of them. *)
Definition window (p : parser.Parser) : list token.Token :=
  parser.curTok p :: parser.peekTok p :: lexer.pending (parser.lx p).

Definition stream (p : parser.Parser) (i : nat) : token.Token :=
  default (lexer.eof (parser.lx p)) (window p !! i).

(** [advances p p']: [p'] is [p] moved forward by some number [k] of
    tokens, with the same end-of-file token and line table, and with the
    errors of [p] followed by further ones. *)
Definition advances (p p' : parser.Parser) : Prop :=
  (∃ k, lexer.pending (parser.lx p') = drop k (lexer.pending (parser.lx p))
        ∧ ∀ i, stream p' i = stream p (k + i))
  ∧ lexer.eof (parser.lx p') = lexer.eof (parser.lx p)
  ∧ lexer.GetLine (parser.lx p') = lexer.GetLine (parser.lx p)
  ∧ parser.errs p `prefix_of` parser.errs p'.

Definition forward {A : Type} (m : parser.P A) : Prop :=
  ∀ p r p', m p = Ok r p' → advances p p'.

(** The token kinds for which [NewParser] registers a prefix function:
    those an expression can start with. *)
Definition starts_expr (t : token.TokenType) : bool :=
  match t with
  | token.IDENT | token.NUM | token.MINUS | token.EXC | token.TRUE | token.FALSE
  | token.LPAREN | token.IF | token.WHILE | token.EKTI | token.STRING
  | token.LS_BRACKET | token.LBRACE => true
  | _ => false
  end.

(** The parser [p] with one more error. *)
Definition with_error (e : errs.ParserError) (p : parser.Parser) : parser.Parser :=
  {| parser.lx := parser.lx p; parser.curTok := parser.curTok p;
     parser.peekTok := parser.peekTok p; parser.errs := parser.errs p ++ [e] |}.

(** The error that [noPrefixFunctionErr] records for the token [t]
    while the current token is [c]. *)
Definition no_prefix_error (t c : token.Token) (line : string) : errs.ParserError :=
  if bool_decide (token.Type_ t = token.FUNC)
  then errs.NoEktiError (token.Type_ t) line
  else errs.NoPrefixSuffixError c line.

(** The state of a run that has allocated its top-level environment
    and done nothing else. *)
Definition started : evaluator.State :=
  {| evaluator.heap := [fresh_env]; evaluator.printBuff := "";
     evaluator.next_id := 0; evaluator.ranges := 0 |}.

(** The token kinds of the binary operators, for which [NewParser]
    registers [parseInfixExpr], and the precedence of a token kind as
    [peekPrec] and [curPrec] look it up. *)
Definition binop (t : token.TokenType) : bool :=
  match t with
  | token.PLUS | token.MINUS | token.DIV | token.MUL | token.EQEQ | token.NOT_EQ
  | token.LT | token.GTE | token.GT | token.LTE => true
  | _ => false
  end.

Definition prec_of (t : token.TokenType) : Z :=
  default parser.LOWEST (parser.precedences t).

(** The nodes that [parseIdent] and [parseInfixExpr] build. *)
Definition ident_of (t : token.Token) : option ast.Expr :=
  Some (ast.Ident t (token.Literal t)).

Definition infix_of (o : token.Token) (l r : option ast.Expr) : option ast.Expr :=
  Some (ast.InfixExpr o (token.Literal o) l r).

(** A parser at the current token [c] and the next token [pk], with
    the tokens [pend] left in the lexer. *)
Definition parser_at (c pk : token.Token) (pend : list token.Token)
    (l : lexer.Lexer) (es : list errs.ParserError) : parser.Parser :=
  {| parser.lx := {| lexer.pending := pend; lexer.eof := lexer.eof l;
                     lexer.GetLine := lexer.GetLine l |};
     parser.curTok := c; parser.peekTok := pk; parser.errs := es |}.

(** ** Further programs *)

Module sample.

Import token.

(** [dekhao(5)] *)
Definition src_show_five : string := "dekhao(5)".
Definition show_five : ast.Stmt :=
  ast.ShowStmt (scenario.tk SHOW "dekhao" 1) [Some (scenario.int_lit 5 "5" 8)].

(** The state after the call [f(5)] of [ekti kaj (a) fero a; sesh] in
    the state [scenario.top]: the frame of the call binds [a], and the
    return value has taken one identity. *)
Definition after_call : evaluator.State :=
  {| evaluator.heap :=
       [fresh_env; scenario.bound "a" scenario.five (enclosed 0)];
     evaluator.printBuff := ""; evaluator.next_id := 1; evaluator.ranges := 0 |}.

(** [{"k": 1}] *)
Definition src_hash : string := "{" +:+ scenario.quoted "k" +:+ ": 1}".
Definition k_lit : ast.Expr := ast.StringLit (scenario.tk STRING "k" 3) "k".
Definition hash_lit : ast.Expr :=
  ast.HashLit (scenario.tk LBRACE "{" 1)
    [(Some k_lit, Some (scenario.int_lit 1 "1" 7))].
Definition k_value : object.Val := Some (object.String "k" (scenario.tk STRING "k" 3)).
Definition one_value : object.Val :=
  Some (object.Number
          {| number.Value := Some (number.IntNumber 1); number.IsInt := true |}
          true (scenario.tk NUM "1" 7)).
Definition k_pairs : gmap object.HashKey (object.Val * object.Val) :=
  {[ (object.STRING_OBJ, demo.fnv1a "k") := (k_value, one_value) ]}.
Definition after_hash : evaluator.State :=
  {| evaluator.heap := [fresh_env]; evaluator.printBuff := "";
     evaluator.next_id := 1; evaluator.ranges := 1 |}.

(** The error of indexing a string. *)
Definition string_not_indexed : object.Val :=
  Some (object.Error
          ("" +:+ gostr.newline +:+ "Unsupported Index Operator STRING ")).

(** [ab cd]: the token [cd]. *)
Definition cd_token : Token := scenario.tk IDENT "cd" 4.

(** [jodi (mittha) tahole 1 nahole sesh]: the else block is empty. *)
Definition src_if_empty_else : string := "jodi (mittha) tahole 1 nahole sesh".
Definition if_empty_else : ast.Expr :=
  ast.IfExpr (scenario.tk IF "jodi" 1)
    (Some (ast.Boolean (scenario.tk FALSE "mittha" 7) false))
    (ast.Block (scenario.tk NUM "1" 22) [scenario.expr_stmt 1 "1" 22])
    (Some (ast.Block (scenario.tk NUM "1" 22) [])).

(** The parser of the specification's lexer on a source text, and the
    parser at the end of a source text of one line and [n] characters. *)
Definition parser_on (src : string) : parser.Parser :=
  parser.NewParser (demo.NewLexer src).

Definition parser_at_end (src : string) (n : Z) (es : list errs.ParserError)
  : parser.Parser :=
  parser_at (mkToken EOF "" 1 (n + 1)) (mkToken EOF "" 1 (n + 1)) []
    (demo.NewLexer src) es.

(** [dhori x = 5;;; 1] *)
Definition src_let_semicolons : string := "dhori x = 5;;; 1".

(** [a + b * c;] *)
Definition src_sum_product : string := "a + b * c;".

(** [jotokhon (c) 1 sesh 2] *)
Definition src_while_then : string := "jotokhon (c) 1 sesh 2".

End sample.

(** [remaining p N]: at most [N] tokens are ahead of the parser: from
    the [N]-th on, every token is an end-of-file token.  [halts N m M]:
    started with at most [N] tokens ahead, [m] does not run out of its
    budget, and when it returns, at most [M] tokens are ahead. *)
Definition remaining (p : parser.Parser) (N : nat) : Prop :=
  ∀ i, N ≤ i → token.Type_ (stream p i) = token.EOF.

Definition halts {A : Type} (N : nat) (m : parser.P A) (M : nat) : Prop :=
  ∀ p, remaining p N →
    match m p with
    | Ok _ p' => remaining p' M
    | Panic => True
    | OutOfFuel => False
    end.

(** The node that [parsePrefixExpr] builds. *)
Definition prefix_of (o : token.Token) (r : option ast.Expr) : option ast.Expr :=
  Some (ast.PrefixExpr o (token.Literal o) r).

Definition prefix_op (t : token.TokenType) : bool :=
  match t with token.MINUS | token.EXC => true | _ => false end.


(** ** Trees without a nil node

    [complete_expr e]: no expression field under [e] is nil (an operand,
    a condition, the function or an argument of a call, an element, a key
    or a value), the else block of every if expression is there, and every
    statement in a block is complete.  A statement is complete when its
    expression fields are; the nil let statement is not. *)
Inductive complete_expr : ast.Expr → Prop :=
| complete_Ident t v : complete_expr (ast.Ident t v)
| complete_NumberLit t v i : complete_expr (ast.NumberLit t v i)
| complete_StringLit t v : complete_expr (ast.StringLit t v)
| complete_Boolean t v : complete_expr (ast.Boolean t v)
| complete_PrefixExpr t op r :
    complete_expr r → complete_expr (ast.PrefixExpr t op (Some r))
| complete_InfixExpr t op l r :
    complete_expr l → complete_expr r →
    complete_expr (ast.InfixExpr t op (Some l) (Some r))
| complete_IfExpr t c tb eb :
    complete_expr c → complete_block tb → complete_block eb →
    complete_expr (ast.IfExpr t (Some c) tb (Some eb))
| complete_WhileExpr t c b :
    complete_expr c → complete_block b →
    complete_expr (ast.WhileExpr t (Some c) b)
| complete_FunctionLit t ps b :
    complete_block b → complete_expr (ast.FunctionLit t ps b)
| complete_CallExpr t f args :
    complete_expr f →
    Forall (λ a, ∃ e, a = Some e ∧ complete_expr e) args →
    complete_expr (ast.CallExpr t (Some f) args)
| complete_ArrLit t elms :
    Forall (λ a, ∃ e, a = Some e ∧ complete_expr e) elms →
    complete_expr (ast.ArrLit t elms)
| complete_HashLit t pairs :
    Forall (λ kv : option ast.Expr * option ast.Expr,
              (∃ k, kv.1 = Some k ∧ complete_expr k)
              ∧ (∃ v, kv.2 = Some v ∧ complete_expr v)) pairs →
    complete_expr (ast.HashLit t pairs)
| complete_IndexExpr t l i :
    complete_expr l → complete_expr i →
    complete_expr (ast.IndexExpr t (Some l) (Some i))
with complete_stmt : ast.Stmt → Prop :=
| complete_LetStmt t n v :
    complete_expr v → complete_stmt (ast.LetStmt t n (Some v))
| complete_ReturnStmt t v :
    complete_expr v → complete_stmt (ast.ReturnStmt t (Some v))
| complete_ShowStmt t l :
    Forall (λ a, ∃ e, a = Some e ∧ complete_expr e) l →
    complete_stmt (ast.ShowStmt t l)
| complete_IncludeStmt t f :
    complete_expr f → complete_stmt (ast.IncludeStmt t (Some f))
| complete_ExprStmt t e :
    complete_expr e → complete_stmt (ast.ExprStmt t (Some e))
| complete_Comment t v : complete_stmt (ast.Comment t v)
with complete_block : ast.BlockStmt → Prop :=
| complete_Block t l : Forall complete_stmt l → complete_block (ast.Block t l).

Definition complete_opt (a : option ast.Expr) : Prop :=
  ∃ e, a = Some e ∧ complete_expr e.

Definition complete_pair (kv : option ast.Expr * option ast.Expr) : Prop :=
  complete_opt kv.1 ∧ complete_opt kv.2.

(** [clean m C]: a run of [m] keeps the errors recorded so far in
    front of those it records, and when it records none, its result
    satisfies [C]. *)
Definition clean {A : Type} (m : parser.P A) (C : A → Prop) : Prop :=
  ∀ p r p', m p = Ok r p' →
    parser.errs p `prefix_of` parser.errs p'
    ∧ (parser.errs p' = parser.errs p → C r).


(** ** Values that hold no error

    [sound o]: no [Error] is held in [o], at any depth: not as an
    element of an array, not as a key or a value of a hash, and not as
    the value of a return value.  ([o] itself may be an [Error].)
    [stored v]: [v] is not an [Error] and holds none.  [stored_state s]:
    every binding of every environment is [stored]. *)
Inductive sound : object.Obj → Prop :=
| sound_Null : sound object.Null
| sound_Boolean b : sound (object.Boolean b)
| sound_Number v i t : sound (object.Number v i t)
| sound_String s t : sound (object.String s t)
| sound_Array id elms t :
    (∀ v, v ∈ elms →
       evaluator.isErr v = false ∧ ∀ o, v = Some o → sound o) →
    sound (object.Array id elms t)
| sound_Hash id (pairs : gmap object.HashKey (object.Val * object.Val)) :
    (∀ k kv, pairs !! k = Some kv →
       (evaluator.isErr kv.1 = false ∧ ∀ o, kv.1 = Some o → sound o)
       ∧ (evaluator.isErr kv.2 = false ∧ ∀ o, kv.2 = Some o → sound o)) →
    sound (object.Hash id pairs)
| sound_Function id params body env t :
    sound (object.Function id params body env t)
| sound_Builtin name : sound (object.Builtin name)
| sound_ReturnValue id v :
    evaluator.isErr v = false → (∀ o, v = Some o → sound o) →
    sound (object.ReturnValue id v)
| sound_Error msg : sound (object.Error msg).

Definition sound_val (v : object.Val) : Prop := ∀ o, v = Some o → sound o.

Definition stored (v : object.Val) : Prop :=
  evaluator.isErr v = false ∧ sound_val v.

Definition stored_state (s : evaluator.State) : Prop :=
  ∀ a e name v, evaluator.heap s !! a = Some e →
    object.store e !! name = Some v → stored v.

Definition stored_pairs (pairs : gmap object.HashKey (object.Val * object.Val))
  : Prop :=
  ∀ k kv, pairs !! k = Some kv → stored kv.1 ∧ stored kv.2.

(** The builtins of a host return values that hold no error when
    their arguments are neither errors nor hold any. *)
Definition sound_builtins (H : evaluator.Host) : Prop :=
  ∀ name args n, Forall stored args →
    sound_val (evaluator.builtin_Fn H name args n).1.

(** [safe m Q]: started in a state without a stored error, a result
    of [m] satisfies [Q], and no error is stored in the final state. *)
Definition safe {A : Type} (m : evaluator.E A) (Q : A → Prop) : Prop :=
  ∀ s r s', stored_state s → m s = Ok r s' → Q r ∧ stored_state s'.

(** The values of a list of expressions: all of them stored, or the
    one error. *)
Definition values_or_error (vs : list object.Val) : Prop :=
  Forall stored vs ∨ ∃ e, vs = [e] ∧ evaluator.isErr e = true ∧ sound_val e.


(** * Properties *)

(** ** Strings *)

Lemma length_take (n : nat) (s : string) :
  n ≤ String.length s → String.length (gostr.take n s) = n.
Proof.
  revert n; induction s as [|c s IH]; intros [|n] Hn; simpl in *; try lia.
  rewrite IH; lia.
Qed.

Lemma length_drop (n : nat) (s : string) :
  String.length (gostr.drop n s) = String.length s - n.
Proof.
  revert n; induction s as [|c s IH]; intros [|n]; simpl; auto.
Qed.

Lemma append_cons (c : ascii) (a b : string) :
  String c a +:+ b = String c (a +:+ b).
Proof. reflexivity. Qed.

Lemma length_append (a b : string) :
  String.length (a +:+ b) = String.length a + String.length b.
Proof.
  induction a as [|c a IH]; [done|].
  rewrite append_cons. simpl. by rewrite IH.
Qed.

Lemma take_drop (n : nat) (s : string) :
  gostr.take n s +:+ gostr.drop n s = s.
Proof.
  revert n; induction s as [|c s IH]; intros [|n]; simpl; try done.
  rewrite append_cons. f_equal. apply IH.
Qed.

Lemma take_append_le (n : nat) (a b : string) :
  n ≤ String.length a → gostr.take n (a +:+ b) = gostr.take n a.
Proof.
  revert n; induction a as [|c a IH]; intros [|n] Hn;
    rewrite ?append_cons; simpl in *; try done; try lia.
  rewrite IH; [done | lia].
Qed.

Lemma drop_append_le (n : nat) (a b : string) :
  n ≤ String.length a → gostr.drop n (a +:+ b) = gostr.drop n a +:+ b.
Proof.
  revert n; induction a as [|c a IH]; intros [|n] Hn;
    rewrite ?append_cons; simpl in *; try done; try lia.
  apply IH; lia.
Qed.

Lemma take_take (n m : nat) (s : string) :
  n ≤ m → gostr.take n (gostr.take m s) = gostr.take n s.
Proof.
  revert n m; induction s as [|c s IH]; intros [|n] [|m] Hn; simpl; try done; try lia.
  rewrite IH; [done | lia].
Qed.

Lemma slice_to_Some (s : string) (i : Z) :
  (0 ≤ i ≤ gostr.len s)%Z → gostr.slice_to s i = Some (gostr.take (Z.to_nat i) s).
Proof. intros Hi. unfold gostr.slice_to. by rewrite bool_decide_eq_true_2. Qed.

Lemma slice_from_Some (s : string) (i : Z) :
  (0 ≤ i ≤ gostr.len s)%Z → gostr.slice_from s i = Some (gostr.drop (Z.to_nat i) s).
Proof. intros Hi. unfold gostr.slice_from. by rewrite bool_decide_eq_true_2. Qed.

Lemma slice_to_None (s : string) (i : Z) :
  ¬ (0 ≤ i ≤ gostr.len s)%Z → gostr.slice_to s i = None.
Proof. intros Hi. unfold gostr.slice_to. by rewrite bool_decide_eq_false_2. Qed.

Lemma insert_markers_spec (line : string) (L R : Z) :
  (L ≤ R)%Z →
  insert_markers line L R =
    if bool_decide (0 ≤ L ∧ R ≤ gostr.len line)%Z
    then Some (marked line L R) else None.
Proof.
  intros HLR. unfold insert_markers.
  destruct (decide (0 ≤ R ≤ gostr.len line)%Z) as [HR|HR].
  - rewrite slice_to_Some, slice_from_Some by done. simpl.
    assert (Hlen : String.length (gostr.take (Z.to_nat R) line) = Z.to_nat R).
    { apply length_take. unfold gostr.len in HR. lia. }
    destruct (decide (0 ≤ L)%Z) as [HL|HL].
    + rewrite bool_decide_eq_true_2 by lia.
      rewrite slice_to_Some, slice_from_Some; simpl.
      * rewrite take_append_le, take_take by lia.
        rewrite drop_append_le by lia. done.
      * unfold gostr.len. rewrite length_append. lia.
      * unfold gostr.len. rewrite length_append. lia.
    + rewrite bool_decide_eq_false_2 by lia.
      rewrite slice_to_None; [done | lia].
  - rewrite slice_to_None by done. simpl.
    rewrite bool_decide_eq_false_2; [done | lia].
Qed.

Lemma append_empty_r (s : string) : s +:+ "" = s.
Proof. induction s as [|c s IH]; [done|]. rewrite append_cons. by rewrite IH. Qed.

Lemma parser_MakeErrorLine_markers (t : token.Token) (line : string) :
  parser.MakeErrorLine t line =
    nl ← insert_markers line (token.Column t - 1)
           (right_index t (token.Column t - 1));
    Some (gostr.Itoa (token.LineNo t) +:+ "| " +:+ nl).
Proof.
  unfold parser.MakeErrorLine, insert_markers, right_index.
  destruct (gostr.slice_to line _); [|done]; simpl.
  destruct (gostr.slice_from line _); [|done]; simpl.
  destruct (gostr.slice_to _ _); [|done]; simpl.
  by destruct (gostr.slice_from _ _).
Qed.

Lemma evaluator_MakeErrorLine_markers (e : evaluator.ErrorHelper)
    (t : token.Token) (xLine : string) :
  (0 < token.LineNo t)%Z →
  evaluator.GetLine e t = Some xLine →
  evaluator.MakeErrorLine e t true =
    nl ← insert_markers xLine (Z.max (token.Column t - 1) 0)
           (right_index t (Z.max (token.Column t - 1) 0));
    Some (gostr.Itoa (token.LineNo t) +:+ "| " +:+ nl).
Proof.
  intros Hl Hx. unfold evaluator.MakeErrorLine.
  rewrite bool_decide_eq_false_2 by lia. rewrite Hx. simpl.
  replace (if bool_decide (token.Column t - 1 < 0)%Z then 0%Z
           else (token.Column t - 1)%Z)
    with (Z.max (token.Column t - 1) 0) by (case_bool_decide; lia).
  unfold insert_markers, right_index.
  destruct (gostr.slice_to xLine _); [|done]; simpl.
  destruct (gostr.slice_from xLine _); [|done]; simpl.
  destruct (gostr.slice_to _ _); [|done]; simpl.
  by destruct (gostr.slice_from _ _).
Qed.

(** C10, amended: both formatters slice without bounds checks.  The
    parser's [MakeErrorLine] returns the line with the two markers
    exactly when [column ≥ 1] and the right index [R] is at most
    [len(line)], where [R = column] for a literal of length at most 1 and
    [R = column + len(literal) - 1] otherwise; otherwise it panics.  The
    evaluator's [MakeErrorLine] returns the empty string for a token
    with [line_no ≤ 0]; otherwise it panics when the line number is not
    within the source, returns the unmarked line when no hint is asked
    for, and with a hint returns the marked line exactly when its right
    index (computed from the left index clamped to 0) lies in
    [[0, len(line)]]. *)
Theorem MakeErrorLine_returns_iff_in_bounds
    (e : evaluator.ErrorHelper) (t : token.Token) (line : string) (showHint : bool) :
  parser.MakeErrorLine t line =
    (let L := (token.Column t - 1)%Z in
     let R := right_index t L in
     if bool_decide (1 ≤ token.Column t ∧ R ≤ gostr.len line)%Z
     then Some (gostr.Itoa (token.LineNo t) +:+ "| " +:+ marked line L R)
     else None)
  ∧ evaluator.MakeErrorLine e t showHint =
    (let L := Z.max (token.Column t - 1) 0 in
     let R := right_index t L in
     if bool_decide (token.LineNo t ≤ 0)%Z then Some ""
     else
       match gostr.split_lines (evaluator.Source e)
               !! Z.to_nat (token.LineNo t - 1) with
       | None => None
       | Some xLine =>
           if showHint then
             if bool_decide (0 ≤ R ∧ R ≤ gostr.len xLine)%Z
             then Some (gostr.Itoa (token.LineNo t) +:+ "| " +:+ marked xLine L R)
             else None
           else Some (gostr.Itoa (token.LineNo t) +:+ "| " +:+ xLine)
       end).
Proof.
  split.
  - rewrite parser_MakeErrorLine_markers. cbv zeta.
    assert (Hle : (token.Column t - 1 ≤ right_index t (token.Column t - 1))%Z).
    { unfold right_index, gostr.len. case_bool_decide; lia. }
    rewrite insert_markers_spec by done.
    repeat case_bool_decide; try done; lia.
  - cbv zeta. destruct (decide (token.LineNo t ≤ 0)%Z) as [Hl|Hl].
    { unfold evaluator.MakeErrorLine. by rewrite !bool_decide_eq_true_2. }
    rewrite (bool_decide_eq_false_2 _ Hl).
    assert (Hget : evaluator.GetLine e t
                   = gostr.split_lines (evaluator.Source e)
                       !! Z.to_nat (token.LineNo t - 1)).
    { unfold evaluator.GetLine. rewrite bool_decide_eq_true_2; [done | lia]. }
    destruct (gostr.split_lines _ !! _) as [xLine|] eqn:Hx.
    + destruct showHint.
      * rewrite (evaluator_MakeErrorLine_markers e t xLine) by (done || lia).
        set (L := Z.max (token.Column t - 1) 0).
        assert (HL : (0 ≤ L)%Z) by (subst L; lia).
        assert (Hcase : (L ≤ right_index t L ∨ right_index t L < 0)%Z).
        { subst L. unfold right_index, gostr.len. case_bool_decide; lia. }
        clearbody L.
        destruct Hcase as [Hle|Hle].
        -- rewrite insert_markers_spec by done.
           repeat case_bool_decide; try done; exfalso; lia.
        -- unfold insert_markers. rewrite slice_to_None by lia. simpl.
           rewrite bool_decide_eq_false_2; [done | lia].
      * unfold evaluator.MakeErrorLine.
        rewrite bool_decide_eq_false_2 by done. by rewrite Hget.
    + unfold evaluator.MakeErrorLine.
      rewrite bool_decide_eq_false_2 by done. by rewrite Hget.
Qed.

(** C10, as stated, fails in both directions: the end-of-file token
    with an empty literal just behind an empty line meets the stated
    precondition and both formatters panic on it; a virtual token (line
    0, column 0) and a token in column 0 violate it and the evaluator's
    formatter returns. *)
Lemma MakeErrorLine_precondition_counterexample :
  ((token.Column eof_at_line_end >= 1)%Z
   ∧ (token.Column eof_at_line_end + gostr.len (token.Literal eof_at_line_end) - 1
      ≤ gostr.len "")%Z
   ∧ (1 ≤ token.LineNo eof_at_line_end
      ≤ Z.of_nat (List.length (gostr.split_lines "")))%Z
   ∧ parser.MakeErrorLine eof_at_line_end "" = None
   ∧ evaluator.MakeErrorLine {| evaluator.Source := "" |} eof_at_line_end true = None)
  ∧ (¬ (token.Column virtual_ident >= 1)%Z
     ∧ evaluator.MakeErrorLine {| evaluator.Source := "ab" |} virtual_ident true
       = Some "")
  ∧ (¬ (token.Column column_zero >= 1)%Z
     ∧ evaluator.MakeErrorLine {| evaluator.Source := "ab" |} column_zero true
       = Some "1|  --> a <-- b").
Proof. vm_compute. repeat split; congruence. Qed.

(** With the lexer of the specification, whose end-of-file token has an
    empty literal and the column behind the last character, the source
    text [1 +] makes the parser format an error line for that token, and
    the run panics. *)
Lemma error_line_at_end_of_input_panics :
  lexer.eof (demo.NewLexer "1 +") = token.mkToken token.EOF "" 1 4
  ∧ parser.MakeErrorLine (token.mkToken token.EOF "" 1 4) "1 +" = None
  ∧ evaluator.run scenario.h0 20 "1 +" = Panic.
Proof. vm_compute. done. Qed.

(** ** Error values and index expressions *)

(** C1: an index expression whose left operand evaluates to an [Error]
    does not evaluate to that [Error]: [Eval] returns nil, and the index
    operand is not evaluated. *)
Theorem index_on_error_returns_nil
    (H : evaluator.Host) (eh : evaluator.ErrorHelper) (n : nat)
    (tok : token.Token) (lhs index : option ast.Expr) (env : nat)
    (st st' : evaluator.State) (msg : string) :
  evaluator.Eval H eh n (ast.of_expr lhs) env st
    = Ok (Some (object.Error msg)) st' →
  evaluator.Eval H eh (S n) (ast.NodeExpr (ast.IndexExpr tok lhs index)) env st
    = Ok None st'.
Proof.
  intros Hl. simpl. unfold bind. by rewrite Hl.
Qed.

Lemma index_on_error_returns_nil_witness :
  evaluator.Eval scenario.h0 {| evaluator.Source := scenario.src_index |} 2
    (ast.NodeExpr scenario.y_ident) 0 scenario.top
    = Ok (Some (object.Error scenario.y_not_found)) scenario.top
  ∧ evaluator.Eval scenario.h0 {| evaluator.Source := scenario.src_index |} 3
      (ast.NodeExpr scenario.y_index) 0 scenario.top
    = Ok None scenario.top.
Proof.
  split; [vm_compute; reflexivity|].
  apply (index_on_error_returns_nil scenario.h0 _ 2 _ (Some scenario.y_ident)
           _ 0 _ _ scenario.y_not_found).
  vm_compute; reflexivity.
Defined.

(** The same from the source text: the program [y[0]] evaluates to nil
    and prints nothing. *)
Lemma run_index_of_unbound :
  demo.outcome (evaluator.run scenario.h0 8 scenario.src_index) = Some (None, "").
Proof. vm_compute. reflexivity. Qed.

(** The sibling operations do return the [Error] of an operand: the
    prefix and infix expressions, and the index expression for its index
    operand. *)
Lemma prefix_on_error_returns_error
    (H : evaluator.Host) (eh : evaluator.ErrorHelper) (n : nat)
    (tok : token.Token) (op : string) (rhs : option ast.Expr) (env : nat)
    (st st' : evaluator.State) (msg : string) :
  evaluator.Eval H eh n (ast.of_expr rhs) env st
    = Ok (Some (object.Error msg)) st' →
  evaluator.Eval H eh (S n) (ast.NodeExpr (ast.PrefixExpr tok op rhs)) env st
    = Ok (Some (object.Error msg)) st'.
Proof. intros Hr. simpl. unfold bind. by rewrite Hr. Qed.

Lemma infix_on_error_returns_error
    (H : evaluator.Host) (eh : evaluator.ErrorHelper) (n : nat)
    (tok : token.Token) (op : string) (lhs rhs : option ast.Expr) (env : nat)
    (st st1 st2 : evaluator.State) (l : object.Val) (msg : string) :
  (evaluator.Eval H eh n (ast.of_expr lhs) env st
     = Ok (Some (object.Error msg)) st1 →
   evaluator.Eval H eh (S n) (ast.NodeExpr (ast.InfixExpr tok op lhs rhs)) env st
     = Ok (Some (object.Error msg)) st1)
  ∧ (evaluator.Eval H eh n (ast.of_expr lhs) env st = Ok l st1 →
     evaluator.isErr l = false →
     evaluator.Eval H eh n (ast.of_expr rhs) env st1
       = Ok (Some (object.Error msg)) st2 →
     evaluator.Eval H eh (S n) (ast.NodeExpr (ast.InfixExpr tok op lhs rhs)) env st
       = Ok (Some (object.Error msg)) st2).
Proof.
  split.
  - intros Hl. simpl. unfold bind. by rewrite Hl.
  - intros Hl Hne Hr. simpl. unfold bind. by rewrite Hl, Hne, Hr.
Qed.

Lemma index_on_index_error_returns_error
    (H : evaluator.Host) (eh : evaluator.ErrorHelper) (n : nat)
    (tok : token.Token) (lhs index : option ast.Expr) (env : nat)
    (st st1 st2 : evaluator.State) (l : object.Val) (msg : string) :
  evaluator.Eval H eh n (ast.of_expr lhs) env st = Ok l st1 →
  evaluator.isErr l = false →
  evaluator.Eval H eh n (ast.of_expr index) env st1
    = Ok (Some (object.Error msg)) st2 →
  evaluator.Eval H eh (S n) (ast.NodeExpr (ast.IndexExpr tok lhs index)) env st
    = Ok (Some (object.Error msg)) st2.
Proof. intros Hl Hne Hi. simpl. unfold bind. by rewrite Hl, Hne, Hi. Qed.

(** ** The show statement *)

(** C2: a show statement whose first argument evaluates to an [Error]
    does not return that [Error]: the rendering of the [Error] is
    written to the print buffer, followed by a newline, and the result
    is [Null]. *)
Theorem show_prints_error_and_returns_null
    (H : evaluator.Host) (eh : evaluator.ErrorHelper) (n : nat)
    (tok : token.Token) (e : option ast.Expr) (rest : list (option ast.Expr))
    (env : nat) (st st' : evaluator.State) (msg : string) :
  evaluator.Eval H eh n (ast.of_expr e) env st
    = Ok (Some (object.Error msg)) st' →
  evaluator.Eval H eh (S n) (ast.NodeStmt (ast.ShowStmt tok (e :: rest))) env st
    = Ok evaluator.NULL
        (scenario.add_output
           (evaluator.Inspect H (object.Error msg) +:+ gostr.newline) st').
Proof.
  intros He. simpl. unfold evaluator.evalExprs, bind. simpl.
  unfold bind. rewrite He. simpl.
  unfold evaluator.evalShowStmt, bind. simpl.
  unfold evaluator.write_buff, scenario.add_output, gostr.join. simpl.
  by rewrite append_empty_r.
Qed.

Lemma show_prints_error_and_returns_null_witness :
  evaluator.Eval scenario.h0 {| evaluator.Source := scenario.src_show |} 3
    (ast.NodeExpr scenario.one_plus_x) 0 scenario.top
    = Ok (Some (object.Error scenario.type_mismatch)) scenario.top
  ∧ evaluator.Eval scenario.h0 {| evaluator.Source := scenario.src_show |} 4
      (ast.NodeStmt scenario.show_stmt) 0 scenario.top
    = Ok evaluator.NULL
        (scenario.add_output
           ("ERROR: " +:+ scenario.type_mismatch +:+ gostr.newline) scenario.top).
Proof.
  split; [vm_compute; reflexivity|].
  apply (show_prints_error_and_returns_null scenario.h0 _ 3 _
           (Some scenario.one_plus_x) [] 0 _ _ scenario.type_mismatch).
  vm_compute; reflexivity.
Defined.

(** The same from the source text: [dekhao(1 + "x");] is parsed into
    that statement, and the run returns [Null] with the rendering of the
    error in the buffer. *)
Lemma run_show_type_mismatch :
  scenario.parse 8 scenario.src_show = Some ([scenario.show_stmt], [])
  ∧ demo.outcome (evaluator.run scenario.h0 8 scenario.src_show)
    = Some (evaluator.NULL,
            "ERROR: " +:+ scenario.type_mismatch +:+ gostr.newline)
  ∧ gostr.contains "Type mismatch" scenario.type_mismatch = true.
Proof. vm_compute. done. Qed.

(** The sibling paths do return the [Error] of an element: an array
    literal and the arguments of a call. *)
Lemma array_on_error_returns_error
    (H : evaluator.Host) (eh : evaluator.ErrorHelper) (n : nat)
    (tok : token.Token) (e : option ast.Expr) (rest : list (option ast.Expr))
    (env : nat) (st st' : evaluator.State) (msg : string) :
  evaluator.Eval H eh n (ast.of_expr e) env st
    = Ok (Some (object.Error msg)) st' →
  evaluator.Eval H eh (S n) (ast.NodeExpr (ast.ArrLit tok (e :: rest))) env st
    = Ok (Some (object.Error msg)) st'.
Proof.
  intros He. simpl. unfold evaluator.evalExprs, bind. simpl.
  unfold bind. by rewrite He.
Qed.

Lemma call_on_error_argument_returns_error
    (H : evaluator.Host) (eh : evaluator.ErrorHelper) (n : nat)
    (tok : token.Token) (func e : option ast.Expr) (rest : list (option ast.Expr))
    (env : nat) (st st1 st2 : evaluator.State) (f : object.Val) (msg : string) :
  evaluator.Eval H eh n (ast.of_expr func) env st = Ok f st1 →
  evaluator.isErr f = false →
  evaluator.Eval H eh n (ast.of_expr e) env st1
    = Ok (Some (object.Error msg)) st2 →
  evaluator.Eval H eh (S n) (ast.NodeExpr (ast.CallExpr tok func (e :: rest))) env st
    = Ok (Some (object.Error msg)) st2.
Proof.
  intros Hf Hne He. simpl. unfold bind at 1. rewrite Hf, Hne.
  unfold evaluator.evalExprs, bind. simpl. unfold bind. by rewrite He.
Qed.

(** ** The while expression *)

Lemma while_loop_runs
    (ev : ast.Node → nat → evaluator.E object.Val)
    (wcond : option ast.Expr) (body : ast.BlockStmt) (env k : nat)
    (cond last res : object.Val) (st st' : evaluator.State) (n : nat) :
  while_runs ev wcond body env k cond last st res st' →
  k < n →
  evaluator.while_loop ev n wcond body env cond last st = Ok res st'.
Proof.
  intros Hruns. revert n.
  induction Hruns as [cond last st Hc
                     |k cond last st r st1 cond' st2 res st' Hc Hb _ Hc' _ _ IH];
    intros [|n] Hk; try lia; simpl; rewrite Hc; [done|].
  unfold bind. rewrite Hb, Hc'. apply IH. lia.
Qed.

(** C3, amended: the condition is evaluated; if it yields an [Error],
    that [Error] is the result.  Otherwise, while the condition is truthy
    the body is evaluated, its value recorded, and the condition
    evaluated again; as long as neither of them yields an [Error], the
    result is the last body value, or nil (not [Null]) if the body never
    ran. *)
Theorem evalWhileExpr_last_body_value_or_nil
    (H : evaluator.Host) (eh : evaluator.ErrorHelper) (n : nat)
    (tok : token.Token) (wcond : option ast.Expr) (body : ast.BlockStmt)
    (env : nat) (st st1 : evaluator.State) (cond : object.Val) :
  evaluator.Eval H eh n (ast.of_expr wcond) env st = Ok cond st1 →
  let loop :=
    evaluator.Eval H eh (S n) (ast.NodeExpr (ast.WhileExpr tok wcond body)) env st in
  (evaluator.isErr cond = true → loop = Ok cond st1)
  ∧ (evaluator.isErr cond = false → evaluator.isTruthy cond = false →
     loop = Ok None st1)
  ∧ (evaluator.isErr cond = false →
     ∀ k res st', k < n →
       while_runs (evaluator.Eval H eh n) wcond body env k cond None st1 res st' →
       loop = Ok res st').
Proof.
  intros Hcond loop.
  assert (Hloop : loop =
    if evaluator.isErr cond then Ok cond st1
    else evaluator.while_loop (evaluator.Eval H eh n) n wcond body env
           cond None st1).
  { subst loop. simpl. unfold evaluator.evalWhileExpr, bind.
    rewrite Hcond. by destruct (evaluator.isErr cond). }
  rewrite Hloop. clear Hloop loop. split; [|split].
  - by intros ->.
  - intros -> Hfalse. destruct n as [|n].
    + simpl in Hcond. discriminate.
    + simpl. by rewrite Hfalse.
  - intros -> k res st' Hk Hruns. by eapply while_loop_runs.
Qed.

Lemma evalWhileExpr_last_body_value_or_nil_witness :
  evaluator.Eval scenario.h0 {| evaluator.Source := scenario.src_loop |} 6
    (ast.NodeExpr scenario.loop_expr) 0
    (scenario.with_bindings {["c" := evaluator.TRUE]})
  = Ok evaluator.TRUE (scenario.with_bindings {["c" := evaluator.FALSE]}).
Proof.
  refine (proj2 (proj2 (evalWhileExpr_last_body_value_or_nil scenario.h0
            {| evaluator.Source := scenario.src_loop |} 5
            (scenario.tk token.WHILE "jotokhon" 1) (Some scenario.loop_cond)
            scenario.loop_body 0
            (scenario.with_bindings {["c" := evaluator.TRUE]})
            (scenario.with_bindings {["c" := evaluator.TRUE]})
            evaluator.TRUE _)) eq_refl 1 evaluator.TRUE _ _ _).
  - vm_compute. reflexivity.
  - lia.
  - eapply while_iter.
    + reflexivity.
    + vm_compute. reflexivity.
    + reflexivity.
    + vm_compute. reflexivity.
    + reflexivity.
    + apply while_stop. reflexivity.
Defined.

(** The source text [src_loop] is that loop. *)
Lemma parse_src_loop :
  scenario.while_parts scenario.src_loop
  = Some (Some scenario.loop_cond, scenario.loop_body).
Proof. vm_compute. reflexivity. Qed.

(** C3, as stated, fails on both counts.  A loop whose body never runs
    evaluates to nil, which is not [Null].  And a body that evaluates to
    an [Error] does not end the loop: in [src_loop_error] the body yields
    an [Error] in the first iteration, the loop goes on, and its result
    is [TRUE]. *)
Lemma while_counterexample :
  (demo.outcome (evaluator.run scenario.h0 12 scenario.src_loop_never)
   = Some (None, "")
   ∧ (None : object.Val) ≠ evaluator.NULL)
  ∧ ∃ wcond body msg st1 st2,
      let eh := {| evaluator.Source := scenario.src_loop_error |} in
      let st := scenario.with_bindings
                  (<["c" := evaluator.TRUE]> {["f" := evaluator.TRUE]}) in
      scenario.while_parts scenario.src_loop_error = Some (wcond, body)
      ∧ evaluator.Eval scenario.h0 eh 12 (ast.NodeBlock body) 0 st
        = Ok (Some (object.Error msg)) st1
      ∧ evaluator.Eval scenario.h0 eh 12
          (ast.NodeExpr (ast.WhileExpr token.virtual wcond body)) 0 st
        = Ok evaluator.TRUE st2.
Proof.
  split; [split; [vm_compute; reflexivity | done]|].
  do 5 eexists. cbv zeta. split; [vm_compute; reflexivity|].
  split; vm_compute; reflexivity.
Qed.

(** A loop whose condition stays truthy does not end, whatever its body
    evaluates to: an [Error] of the body is recorded like any other
    value. *)
Lemma while_loop_never_ends
    (ev : ast.Node → nat → evaluator.E object.Val)
    (wcond : option ast.Expr) (body : ast.BlockStmt) (env : nat)
    (cond : object.Val) (st : evaluator.State) :
  evaluator.isTruthy cond = true →
  (∀ r s, ev (ast.NodeBlock body) env st = Ok r s → s = st) →
  (∀ c s, ev (ast.of_expr wcond) env st = Ok c s → c = cond ∧ s = st) →
  ∀ n last r s,
    evaluator.while_loop ev n wcond body env cond last st ≠ Ok r s.
Proof.
  intros Hc Hbody Hcond n. induction n as [|n IH]; intros last r s; [done|].
  simpl. rewrite Hc. unfold bind.
  destruct (ev (ast.NodeBlock body) env st) as [rb sb| |]; [|done..].
  assert (sb = st) as -> by (by eapply Hbody).
  destruct (ev (ast.of_expr wcond) env st) as [c sc| |]; [|done..].
  destruct (Hcond c sc eq_refl) as [-> ->]. apply IH.
Qed.

(** The loop [jotokhon (sotto) y sesh], whose body evaluates to an
    [Error], returns for no budget. *)
Lemma while_with_failing_body_never_returns (fuel : nat)
    (r : object.Val) (s : evaluator.State) :
  scenario.while_parts scenario.src_loop_forever
  = Some (Some scenario.forever_cond, scenario.forever_body)
  ∧ evaluator.Eval scenario.h0 {| evaluator.Source := scenario.src_loop_forever |}
      fuel (ast.NodeExpr scenario.forever_expr) 0 scenario.top ≠ Ok r s.
Proof.
  split; [vm_compute; reflexivity|].
  destruct fuel as [|n]; [done|].
  change (evaluator.evalWhileExpr
            (evaluator.Eval scenario.h0
               {| evaluator.Source := scenario.src_loop_forever |} n) n
            (Some scenario.forever_cond) scenario.forever_body 0 scenario.top
          ≠ Ok r s).
  unfold evaluator.evalWhileExpr, bind.
  destruct n as [|n]; [done|].
  change (evaluator.Eval scenario.h0 _ (S n)
            (ast.of_expr (Some scenario.forever_cond)) 0 scenario.top)
    with (Ok (S:=evaluator.State) evaluator.TRUE scenario.top).
  cbn [evaluator.isErr evaluator.TRUE object.Type_ bool_decide decide_rel].
  apply while_loop_never_ends.
  - reflexivity.
  - intros rb sb Hb.
    destruct n as [|[|[|n]]]; vm_compute in Hb; try done.
    by injection Hb as _ <-.
  - intros c sc [= <- <-]. done.
Qed.

(** ** The let statement *)

(** C4, amended: an evaluation that returns produces one [Object]
    variant or the absent result nil.  A let statement whose value
    evaluates without error binds the name in the current environment
    and returns nil, not [Null]. *)
Theorem let_binds_and_returns_nil
    (H : evaluator.Host) (eh : evaluator.ErrorHelper) (n : nat)
    (tok : token.Token) (name : ast.Identifier) (value : option ast.Expr)
    (env : nat) (st st' : evaluator.State) (v : object.Val) (e : object.Env) :
  evaluator.Eval H eh n (ast.of_expr value) env st = Ok v st' →
  evaluator.isErr v = false →
  evaluator.heap st' !! env = Some e →
  let st'' :=
    evaluator.with_heap
      (<[env := scenario.bound name.2 v e]> (evaluator.heap st')) st' in
  evaluator.Eval H eh (S n) (ast.NodeStmt (ast.LetStmt tok name value)) env st
    = Ok None st''
  ∧ ∀ k, evaluator.env_Get (S k) env name.2 st'' = Ok (Some v) st''.
Proof.
  intros Hv Herr He st''. split.
  - simpl. unfold bind. rewrite Hv, Herr.
    unfold evaluator.env_Set, object.Set_. rewrite He. done.
  - intros k.
    assert (Hl : evaluator.heap st'' !! env = Some (scenario.bound name.2 v e)).
    { apply list_lookup_insert_eq. by eapply lookup_lt_Some. }
    cbn [evaluator.env_Get]. rewrite Hl.
    unfold scenario.bound; cbn [object.store]. by rewrite lookup_insert_eq.
Qed.

Lemma let_binds_and_returns_nil_witness :
  let st'' :=
    evaluator.with_heap
      [scenario.bound "x" scenario.five {| object.store := ∅; object.outer := None |}]
      scenario.top in
  evaluator.Eval scenario.h0 {| evaluator.Source := scenario.src_let |} 3
    (ast.NodeStmt scenario.let_stmt) 0 scenario.top = Ok None st''
  ∧ ∀ k, evaluator.env_Get (S k) 0 "x" st'' = Ok (Some scenario.five) st''.
Proof.
  apply (let_binds_and_returns_nil scenario.h0 _ 2 _ scenario.x_name
           (Some (scenario.int_lit 5 "5" 11)) 0 scenario.top scenario.top
           scenario.five {| object.store := ∅; object.outer := None |});
    reflexivity.
Defined.

(** C4, as stated, fails: the program [dhori x = 5;] is parsed into one
    let statement and evaluates to nil, which is not the [Null] object. *)
Lemma let_result_is_absent :
  scenario.parse 8 scenario.src_let = Some ([scenario.let_stmt], [])
  ∧ demo.outcome (evaluator.run scenario.h0 8 scenario.src_let) = Some (None, "")
  ∧ (None : object.Val) ≠ evaluator.NULL.
Proof. vm_compute. done. Qed.

(** ** Parsing if/else *)

(** C5: the else block is not collected until [END]: of the two
    statements between [nahole] and [sesh] only the first one is parsed
    into the else block; the second one is skipped, and [sesh] is then
    parsed as an expression statement, which records an error. *)
Theorem parseIfExpr_else_block_takes_one_statement :
  scenario.parse 12 scenario.src_if_else
  = Some ([ast.ExprStmt (token.mkToken token.IF "jodi" 1 1)
             (Some scenario.if_else_expr);
           ast.ExprStmt scenario.sesh_token None],
          [scenario.sesh_error]).
Proof. vm_compute. reflexivity. Qed.

(** For every token stream: the else block that [parseIfExpr] builds
    has at most one statement. *)
Lemma parseIfExpr_else_block_at_most_one
    (H : parser.Host) (parseExpr : Z → parser.P (option ast.Expr))
    (parseStmt : parser.P ast.Stmt) (fuel : nat)
    (p p' : parser.Parser) (e : ast.Expr) :
  parser.parseIfExpr H parseExpr parseStmt fuel p = Ok (Some e) p' →
  ∃ tok cond tb c eb,
    e = ast.IfExpr tok cond tb (Some (ast.Block c eb)) ∧ List.length eb ≤ 1.
Proof.
  unfold parser.parseIfExpr, bind. intros Hparse.
  repeat match goal with
         | E : match ?x with _ => _ end = Ok _ _ |- _ =>
             destruct x eqn:?; try discriminate
         | E : (if ?b then _ else _) _ = Ok _ _ |- _ =>
             destruct b eqn:?; try discriminate
         | E : ret _ _ = Ok _ _ |- _ => injection E as <- <-
         end.
  all: do 5 eexists; split; [reflexivity | simpl; lia].
Qed.

(** ** Calling a function *)

Lemma Set_last (h : object.Heap) (e : object.Env) (name : string) (v : object.Val) :
  object.Set_ (h ++ [e]) (List.length h) name v
  = Some (h ++ [scenario.bound name v e]).
Proof.
  unfold object.Set_. rewrite list_lookup_middle by done. simpl.
  replace (List.length h) with (List.length h + 0) at 1 by lia.
  by rewrite insert_app_r.
Qed.

(** [extendFuncEnv] binds the parameters in order into the fresh frame. *)
Lemma bind_params_last (params : list ast.Identifier) (args : list object.Val)
    (h : object.Heap) (m : gmap string object.Val) (o : option nat)
    (st : evaluator.State) :
  List.length params = List.length args →
  evaluator.heap st = h ++ [{| object.store := m; object.outer := o |}] →
  evaluator.bind_params (List.length h) params args st
  = Ok tt (evaluator.with_heap
             (h ++ [{| object.store :=
                         foldl (λ m pa, <[pa.1.2 := pa.2]> m) m (zip params args);
                       object.outer := o |}]) st).
Proof.
  revert args m st. induction params as [|p params IH];
    intros [|a args] m st Hlen Hheap; simpl in Hlen; try lia.
  - simpl. unfold ret, evaluator.with_heap. rewrite <- Hheap. by destruct st.
  - cbn [evaluator.bind_params]. unfold bind at 1. unfold evaluator.env_Set.
    rewrite Hheap, Set_last.
    rewrite (IH args (<[p.2 := a]> m)); [done | lia | done].
Qed.


(** Distinct parameters are bound to the arguments at their positions. *)
Lemma bindings_lookup (params : list ast.Identifier) (args : list object.Val)
    (i : nat) (p : ast.Identifier) (a : object.Val) :
  NoDup params.*2 →
  List.length params = List.length args →
  params !! i = Some p → args !! i = Some a →
  scenario.bindings params args !! p.2 = Some a.
Proof.
  unfold scenario.bindings.
  assert (Hgen : ∀ m : gmap string object.Val, NoDup params.*2 → List.length params = List.length args →
            params !! i = Some p → args !! i = Some a →
            foldl (λ m pa, <[pa.1.2 := pa.2]> m) m (zip params args) !! p.2
            = Some a); [|by apply Hgen].
  revert args i. induction params as [|q params IH];
    intros [|b args] i m Hnd Hlen Hp Ha; simpl in *; try done.
  apply NoDup_cons in Hnd as [Hq Hnd].
  destruct i as [|i]; simpl in *.
  - simplify_eq.
    assert (Hkeep : ∀ (args : list object.Val) (m : gmap string object.Val),
              m !! p.2 = Some a →
              foldl (λ m pa, <[pa.1.2 := pa.2]> m) m (zip params args) !! p.2
              = Some a).
    { clear -Hq. induction params as [|q params IH]; intros [|b args] m Hm;
        simpl; try done.
      rewrite fmap_cons, not_elem_of_cons in Hq. destruct Hq as [Hne Hq].
      apply IH; [done|]. by rewrite lookup_insert_ne. }
    apply Hkeep. by rewrite lookup_insert_eq.
  - eapply IH; eauto.
Qed.



(** The same from the source text: the call [f(1, 2)] of a function of
    one parameter evaluates to the arity error, and a call with one
    argument to the argument. *)
Lemma run_arity_mismatch :
  demo.outcome (evaluator.run scenario.h0 14 scenario.src_arity)
  = Some (Some (object.Error
                  ("1| " +:+ scenario.src_arity +:+ gostr.newline
                   +:+ scenario.arity_message 1 2)), "")
  ∧ demo.outcome (evaluator.run scenario.h0 14
                    "dhori f = ekti kaj (a) fero a; sesh dekhao(f(7));")
    = Some (evaluator.NULL, "7" +:+ gostr.newline).
Proof. vm_compute. done. Qed.

(** ** Indexing an array *)



(** ** The frame property of the evaluator

    An evaluation in the environment [env] writes to the frame at [env]
    and to frames that it allocates, and to no other. *)

Lemma extends_refl (b : nat) (st : evaluator.State) : extends b st st.
Proof. by split. Qed.

Lemma extends_trans (b : nat) (s1 s2 s3 : evaluator.State) :
  extends b s1 s2 → extends b s2 s3 → extends b s1 s3.
Proof.
  intros [H1 L1] [H2 L2]. split; [|lia].
  intros a Ha. by rewrite H2, H1.
Qed.

Lemma pres_ret {A} (b : nat) (a : A) (Q : A → Prop) : Q a → pres b (ret a) Q.
Proof. intros HQ st r st' _ [= <- <-]. split; [done | apply extends_refl]. Qed.

Lemma pres_bind {A B} (b : nat) (m : evaluator.E A) (k : A → evaluator.E B)
    (Q : A → Prop) (Q' : B → Prop) :
  pres b m Q → (∀ a, Q a → pres b (k a) Q') → pres b (bind m k) Q'.
Proof.
  intros Hm Hk st r st' Hb Hrun. unfold bind in Hrun.
  destruct (m st) as [a s1| |] eqn:E; try discriminate.
  destruct (Hm _ _ _ Hb E) as [HQ Hext].
  destruct (Hk a HQ s1 r st') as [HQ' Hext']; [destruct Hext; lia | done |].
  split; [done | by eapply extends_trans].
Qed.

Lemma pres_weaken {A} (b : nat) (m : evaluator.E A) (Q Q' : A → Prop) :
  pres b m Q → (∀ a, Q a → Q' a) → pres b m Q'.
Proof. intros Hm HQ st r st' Hb Hrun. destruct (Hm _ _ _ Hb Hrun). auto. Qed.

Lemma pres_panic {A} (b : nat) (Q : A → Prop) : pres b panic Q.
Proof. by intros st r st' _ ?. Qed.

Lemma pres_out_of_fuel {A} (b : nat) (Q : A → Prop) : pres b out_of_fuel Q.
Proof. by intros st r st' _ ?. Qed.

(** A computation that does not touch the heap. *)
Lemma pres_heap_const {A} (b : nat) (m : evaluator.E A) :
  (∀ st r st', m st = Ok r st' → evaluator.heap st' = evaluator.heap st) →
  pres b m (λ _, True).
Proof.
  intros Hm st r st' _ Hrun. split; [done|].
  unfold extends. by rewrite (Hm _ _ _ Hrun).
Qed.

Lemma pres_lift_opt {A} (b : nat) (o : option A) : pres b (lift_opt o) (λ _, True).
Proof. destruct o; [by apply pres_ret | apply pres_panic]. Qed.

Lemma pres_alloc_env (b : nat) (e : object.Env) :
  pres b (evaluator.alloc_env e) (λ a, b ≤ a).
Proof.
  intros st r st' Hb [= <- <-]. split; [done|]. split; simpl.
  - intros a Ha. rewrite lookup_app_l; [done | lia].
  - rewrite length_app. lia.
Qed.

Lemma pres_env_Set (b a : nat) (name : string) (v : object.Val) :
  b ≤ a → pres b (evaluator.env_Set a name v) (λ _, True).
Proof.
  intros Ha st r st' Hb Hrun. unfold evaluator.env_Set, object.Set_ in Hrun.
  destruct (evaluator.heap st !! a) as [e|] eqn:E; simpl in Hrun; [|done].
  injection Hrun as <- <-. split; [done|]. split; simpl.
  - intros a' Ha'. rewrite list_lookup_insert_ne; [done | lia].
  - by rewrite length_insert.
Qed.

Lemma pres_env_assign (b a c : nat) :
  b ≤ a → pres b (evaluator.env_assign a c) (λ _, True).
Proof.
  intros Ha st r st' Hb Hrun. unfold evaluator.env_assign in Hrun.
  destruct (evaluator.heap st !! a); [|done].
  destruct (evaluator.heap st !! c); [|done].
  injection Hrun as <- <-. split; [done|]. split; simpl.
  - intros a' Ha'. rewrite list_lookup_insert_ne; [done | lia].
  - by rewrite length_insert.
Qed.

Lemma env_Get_state (n a : nat) (name : string) (st st' : evaluator.State)
    (r : option object.Val) :
  evaluator.env_Get n a name st = Ok r st' → st' = st.
Proof.
  revert a. induction n as [|n IH]; intros a Hrun; simpl in Hrun; [done|].
  destruct (evaluator.heap st !! a) as [e|]; [|done].
  destruct (object.store e !! name); [by injection Hrun|].
  destruct (object.outer e); [by eapply IH | by injection Hrun].
Qed.

Lemma pres_env_Get (b n a : nat) (name : string) :
  pres b (evaluator.env_Get n a name) (λ _, True).
Proof.
  apply pres_heap_const. intros st r st' Hrun.
  by rewrite (env_Get_state _ _ _ _ _ _ Hrun).
Qed.

Lemma pres_fresh_id (b : nat) : pres b evaluator.fresh_id (λ _, True).
Proof. apply pres_heap_const. by intros st r st' [= <- <-]. Qed.

Lemma pres_next_range (b : nat) : pres b evaluator.next_range (λ _, True).
Proof. apply pres_heap_const. by intros st r st' [= <- <-]. Qed.

Lemma pres_write_buff (b : nat) (out : string) :
  pres b (evaluator.write_buff out) (λ _, True).
Proof. apply pres_heap_const. by intros st r st' [= <- <-]. Qed.

Lemma pres_NewErr (b : nat) (eh : evaluator.ErrorHelper) (t : token.Token)
    (hint : bool) (msg : string) :
  pres b (evaluator.NewErr eh t hint msg) (λ _, True).
Proof.
  unfold evaluator.NewErr. eapply pres_bind; [apply pres_lift_opt|].
  intros line _. by apply pres_ret.
Qed.

(** One step of a proof of [pres]: the rule for the head of the
    computation. *)
Ltac pres_step :=
  lazymatch goal with
  | |- pres _ (bind _ _) _ => eapply pres_bind; [|intros ? ?]
  | |- pres _ (ret _) _ => by apply pres_ret
  | |- pres _ panic _ => apply pres_panic
  | |- pres _ out_of_fuel _ => apply pres_out_of_fuel
  | |- pres _ (lift_opt _) _ => apply pres_lift_opt
  | |- pres _ (evaluator.deref _) _ => apply pres_lift_opt
  | |- pres _ (evaluator.NewErr _ _ _ _) _ => apply pres_NewErr
  | |- pres _ (evaluator.NewBareErr _) _ => by apply pres_ret
  | |- pres _ (evaluator.env_Get _ _ _) _ => apply pres_env_Get
  | |- pres _ evaluator.fresh_id _ => apply pres_fresh_id
  | |- pres _ evaluator.next_range _ => apply pres_next_range
  | |- pres _ (evaluator.write_buff _) _ => apply pres_write_buff
  | |- pres _ (evaluator.env_Set _ _ _) _ => apply pres_env_Set; try done
  | |- pres _ (evaluator.env_assign _ _) _ => apply pres_env_assign; try done
  | |- pres _ (if ?c then _ else _) _ => destruct c
  | |- pres _ (match ?x with _ => _ end) _ => destruct x
  | |- pres _ (let '(_, _) := ?x in _) _ => destruct x
  end.

Ltac pres_auto := repeat (pres_step; simpl; try done).

Section Helpers.

Variable H : evaluator.Host.
Variable eh : evaluator.ErrorHelper.
Variable b : nat.

Lemma pres_evalPrefixExpr (op : string) (r : object.Val) :
  pres b (evaluator.evalPrefixExpr H op r) (λ _, True).
Proof. unfold evaluator.evalPrefixExpr, evaluator.evalMinusPrefOp. pres_auto. Qed.

Lemma pres_evalInfixExpr (op : string) (l r : object.Val) :
  pres b (evaluator.evalInfixExpr H eh op l r) (λ _, True).
Proof.
  unfold evaluator.evalInfixExpr, evaluator.evalNumInfixExpr,
    evaluator.evalStringInfixExpr.
  pres_auto.
Qed.

Lemma pres_evalIndexExpr (l i : object.Val) :
  pres b (evaluator.evalIndexExpr H eh l i) (λ _, True).
Proof.
  unfold evaluator.evalIndexExpr, evaluator.evalArrIndexExpr,
    evaluator.evalHashIndexExpr.
  pres_auto.
Qed.

Lemma pres_inspect_all (args : list object.Val) :
  pres b (evaluator.inspect_all H args) (λ _, True).
Proof. induction args as [|a args IH]; simpl; pres_auto. Qed.

Lemma pres_evalShowStmt (args : list object.Val) :
  pres b (evaluator.evalShowStmt H args) (λ _, True).
Proof.
  unfold evaluator.evalShowStmt. eapply pres_bind; [apply pres_inspect_all|].
  intros out _. pres_auto.
Qed.

End Helpers.

Section Walk.

Variable H : evaluator.Host.
Variable eh : evaluator.ErrorHelper.
Variable b : nat.
Variable ev : ast.Node → nat → evaluator.E object.Val.
Variable fuel : nat.
Hypothesis pres_ev : ∀ node env, b ≤ env → pres b (ev node env) (λ _, True).

Ltac walk_step :=
  first
    [ apply pres_ev; done
    | apply pres_evalPrefixExpr
    | apply pres_evalInfixExpr
    | apply pres_evalIndexExpr
    | apply pres_evalShowStmt
    | pres_step ].

Ltac walk := repeat (walk_step; simpl; try done).

Lemma pres_evalProg_loop (stmts : list ast.Stmt) (env : nat) (res : object.Val) :
  b ≤ env → pres b (evaluator.evalProg_loop ev stmts env res) (λ _, True).
Proof.
  intros Henv. revert res. induction stmts as [|s stmts IH]; intros res; simpl.
  - by apply pres_ret.
  - eapply pres_bind; [by apply pres_ev|]. intros r _.
    destruct r as [[]|]; try apply IH; by apply pres_ret.
Qed.

Lemma pres_evalBlockStmt_loop (stmts : list ast.Stmt) (env : nat) (res : object.Val) :
  b ≤ env → pres b (evaluator.evalBlockStmt_loop ev stmts env res) (λ _, True).
Proof.
  intros Henv. revert res. induction stmts as [|s stmts IH]; intros res; simpl.
  - by apply pres_ret.
  - eapply pres_bind; [by apply pres_ev|]. intros r _.
    destruct r as [o|]; [|apply IH].
    destruct (_ || _); [by apply pres_ret | apply IH].
Qed.

Lemma pres_evalExprs_loop (es : list (option ast.Expr)) (env : nat)
    (res : list object.Val) :
  b ≤ env → pres b (evaluator.evalExprs_loop ev es env res) (λ _, True).
Proof.
  intros Henv. revert res. induction es as [|e es IH]; intros res; simpl.
  - by apply pres_ret.
  - eapply pres_bind; [by apply pres_ev|]. intros r _.
    destruct (evaluator.isErr r); [by apply pres_ret | apply IH].
Qed.

Lemma pres_while_loop (n : nat) (wcond : option ast.Expr) (body : ast.BlockStmt)
    (env : nat) (cond result : object.Val) :
  b ≤ env →
  pres b (evaluator.while_loop ev n wcond body env cond result) (λ _, True).
Proof.
  intros Henv. revert cond result.
  induction n as [|n IH]; intros cond result; simpl.
  - apply pres_out_of_fuel.
  - destruct (evaluator.isTruthy cond); [|by apply pres_ret].
    eapply pres_bind; [by apply pres_ev|]. intros r _.
    eapply pres_bind; [by apply pres_ev|]. intros c _. apply IH.
Qed.

Lemma pres_evalHashLit_loop (t : token.Token)
    (nodes : list (option ast.Expr * option ast.Expr)) (env : nat)
    (pairs : gmap object.HashKey (object.Val * object.Val)) :
  b ≤ env →
  pres b (evaluator.evalHashLit_loop H eh ev t nodes env pairs) (λ _, True).
Proof.
  intros Henv. revert pairs.
  induction nodes as [|[k v] nodes IH]; intros pairs; simpl.
  - by apply pres_ret.
  - eapply pres_bind; [by apply pres_ev|]. intros key _.
    destruct (evaluator.isErr key); [by apply pres_ret|].
    destruct (key ≫= evaluator.HashKeyOf H); [|walk].
    eapply pres_bind; [by apply pres_ev|]. intros val _.
    destruct (evaluator.isErr val); [by apply pres_ret | apply IH].
Qed.

Lemma pres_bind_params (env : nat) (params : list ast.Identifier)
    (args : list object.Val) :
  b ≤ env → pres b (evaluator.bind_params env params args) (λ _, True).
Proof.
  intros Henv. revert args.
  induction params as [|p params IH]; intros [|a args]; simpl;
    try (by apply pres_ret); try apply pres_panic.
  eapply pres_bind; [by apply pres_env_Set|]. intros _ _. apply IH.
Qed.

Lemma pres_applyFunc (fn : object.Val) (caller : token.Token)
    (args : list object.Val) :
  pres b (evaluator.applyFunc H eh ev fn caller args) (λ _, True).
Proof.
  unfold evaluator.applyFunc.
  eapply pres_bind; [apply pres_lift_opt|]. intros f _.
  destruct f; try (by apply pres_ret).
  - destruct (bool_decide _); [|apply pres_NewErr].
    unfold evaluator.extendFuncEnv, evaluator.NewEnclosedEnv.
    eapply pres_bind.
    + eapply pres_bind; [apply pres_alloc_env|]. intros a Ha.
      eapply pres_bind; [by apply pres_bind_params|]. intros _ _.
      by apply pres_ret.
    + intros a Ha. eapply pres_bind; [by apply pres_ev|].
      intros r _. by apply pres_ret.
  - apply pres_heap_const. intros st r st' Hrun.
    destruct (evaluator.builtin_Fn _ _ _ _). by injection Hrun as <- <-.
Qed.

Lemma pres_run_parser (l : lexer.Lexer) :
  pres b (evaluator.run_parser H fuel l) (λ _, True).
Proof.
  apply pres_heap_const. intros st r st' Hrun. unfold evaluator.run_parser in Hrun.
  destruct (parser.ParseProg _ _ _); try done. by injection Hrun as <- <-.
Qed.

Lemma pres_evalIncludeStmt (t : token.Token) (filename : option ast.Expr)
    (env : nat) :
  b ≤ env →
  pres b (evaluator.evalIncludeStmt H eh ev fuel t filename env) (λ r, b ≤ r.1).
Proof.
  intros Henv. unfold evaluator.evalIncludeStmt, evaluator.NewEnv.
  eapply pres_bind; [by apply pres_ev|]. intros raw _.
  eapply pres_bind; [apply pres_alloc_env|]. intros enx Henx.
  eapply pres_bind; [apply pres_lift_opt|]. intros o _.
  assert (Herr : ∀ tok hint msg,
            pres b (do err <- evaluator.NewErr eh tok hint msg; ret (enx, err))
              (λ r, b ≤ r.1)).
  { intros. eapply pres_bind; [apply pres_NewErr|]. intros. by apply pres_ret. }
  destruct o; try apply Herr.
  destruct (evaluator.stat_not_exist H _); [apply Herr|].
  destruct (evaluator.ReadFile H _); [|apply Herr].
  eapply pres_bind; [apply pres_alloc_env|]. intros ex Hex.
  eapply pres_bind; [apply pres_run_parser|]. intros parsed _.
  eapply pres_bind; [by apply pres_ev|]. intros _ _.
  destruct (bool_decide _); [apply Herr | by apply pres_ret].
Qed.

Lemma pres_Eval_body (node : ast.Node) (env : nat) :
  b ≤ env → pres b (evaluator.Eval_body H eh ev fuel node env) (λ _, True).
Proof.
  intros Henv. destruct node as [|p|s|blk|e]; simpl.
  - by apply pres_ret.
  - by apply pres_evalProg_loop.
  - destruct s; simpl.
    + walk.
    + apply pres_panic.
    + walk.
    + eapply pres_bind; [by apply pres_evalExprs_loop|]. intros.
      apply pres_evalShowStmt.
    + eapply pres_bind; [by apply pres_evalIncludeStmt|]. intros r Hr.
      unfold evaluator.NewEnclosedEnv.
      eapply pres_bind; [apply pres_lift_opt|]. intros v _.
      destruct (bool_decide _); [|by apply pres_ret].
      eapply pres_bind; [apply pres_alloc_env|]. intros a Ha. walk.
    + by apply pres_ev.
    + by apply pres_ret.
  - by apply pres_evalBlockStmt_loop.
  - destruct e; simpl.
    + unfold evaluator.evalId. walk.
    + by apply pres_ret.
    + by apply pres_ret.
    + by apply pres_ret.
    + walk.
    + walk.
    + unfold evaluator.evalIfExpr. walk.
    + unfold evaluator.evalWhileExpr.
      eapply pres_bind; [by apply pres_ev|]. intros c _.
      destruct (evaluator.isErr c); [by apply pres_ret|].
      by apply pres_while_loop.
    + walk.
    + eapply pres_bind; [by apply pres_ev|]. intros f _.
      destruct (evaluator.isErr f); [by apply pres_ret|].
      eapply pres_bind; [by apply pres_evalExprs_loop|]. intros args _.
      destruct args as [|a [|]]; try apply pres_applyFunc.
      destruct (evaluator.isErr a); [by apply pres_ret | apply pres_applyFunc].
    + eapply pres_bind; [by apply pres_evalExprs_loop|]. intros elms _.
      destruct elms as [|a [|]]; walk.
    + unfold evaluator.evalHashLit.
      eapply pres_bind; [apply pres_next_range|]. intros n _.
      eapply pres_bind; [by apply pres_evalHashLit_loop|]. intros r _.
      destruct r; walk.
    + walk.
Qed.

End Walk.

(** Evaluation in an environment at or above [b] leaves the frames
    below [b] as they are. *)
Lemma pres_Eval (H : evaluator.Host) (eh : evaluator.ErrorHelper) (b n : nat)
    (node : ast.Node) (env : nat) :
  b ≤ env → pres b (evaluator.Eval H eh n node env) (λ _, True).
Proof.
  revert node env. induction n as [|n IH]; intros node env Henv; simpl.
  - apply pres_out_of_fuel.
  - apply pres_Eval_body; [|done]. intros node' env' Henv'. by apply IH.
Qed.

(** ** The include statement *)

Lemma frames_kept_alloc1 (st : evaluator.State) : frames_kept st (alloc1 st).
Proof. intros a Ha. simpl. by rewrite lookup_app_l. Qed.

Lemma include_unfold (H : evaluator.Host) (eh : evaluator.ErrorHelper) (n : nat)
    (t : token.Token) (filename : option ast.Expr) (env : nat) :
  evaluator.Eval H eh (S n) (ast.NodeStmt (ast.IncludeStmt t filename)) env
  = (do r <- evaluator.evalIncludeStmt H eh (evaluator.Eval H eh n) n t filename env;
     do v <- evaluator.deref r.2;
     if bool_decide (object.Type_ v ≠ object.ERR_OBJ) then
       do e <- evaluator.NewEnclosedEnv r.1;
       evaluator.env_assign env e;; ret None
     else ret r.2).
Proof. reflexivity. Qed.

(** The include statement reports the error that [evalIncludeStmt]
    makes with [NewErr]. *)
Lemma include_reports (H : evaluator.Host) (eh : evaluator.ErrorHelper) (n : nat)
    (t : token.Token) (filename : option ast.Expr) (env : nat)
    (st st' : evaluator.State) (enx : nat) (tok : token.Token) (msg : string) :
  evaluator.evalIncludeStmt H eh (evaluator.Eval H eh n) n t filename env st
    = (do err <- evaluator.NewErr eh tok true msg; ret (enx, err)) st' →
  evaluator.Eval H eh (S n) (ast.NodeStmt (ast.IncludeStmt t filename)) env st
    = include_report eh tok msg st'.
Proof.
  intros Hr. rewrite include_unfold. unfold bind at 1. rewrite Hr.
  unfold evaluator.NewErr, bind, include_report.
  by destruct (evaluator.MakeErrorLine eh tok true).
Qed.




(** The same from the source text: after [anoo "lib.pnk";] the name
    [z] of the included file is visible, and after a binding of [z] in
    the including program the frame of the included file still holds
    the included value. *)
Lemma run_include_lib :
  scenario.parse 12 scenario.src_include = Some ([scenario.include_stmt], [])
  ∧ demo.outcome (evaluator.run scenario.lib_host 14
                    (scenario.src_include +:+ " dekhao(z); dhori z = mittha; dekhao(z);"))
    = Some (evaluator.NULL,
            "sotto" +:+ gostr.newline +:+ "mittha" +:+ gostr.newline)
  ∧ (∀ st, evaluator.run scenario.lib_host 14
             (scenario.src_include +:+ " dhori z = mittha;") = Ok None st →
           (evaluator.heap st !! 2) ≫= (λ e, object.store e !! "z")
           = Some evaluator.TRUE).
Proof.
  split; [vm_compute; reflexivity|]. split; [vm_compute; reflexivity|].
  intros st Hst. vm_compute in Hst. injection Hst as <-. vm_compute. reflexivity.
Qed.

(** ** Determinism *)

Create HintDb plain.
#[local] Hint Constructors plain_obj : plain.

(** Filing entries with pairwise different keys, in any order, gives
    the same map. *)
Lemma foldl_file_entry_perm
    (l1 l2 : list (object.HashKey * (object.Val * object.Val)))
    (m : gmap object.HashKey (object.Val * object.Val)) :
  NoDup l1.*1 → l1 ≡ₚ l2 → foldl file_entry m l1 = foldl file_entry m l2.
Proof.
  intros Hnd Hperm. revert m Hnd.
  induction Hperm as [|x l1 l2 _ IH|x y l|l1 l2 l3 Hp1 IH1 Hp2 IH2]; intros m Hnd.
  - done.
  - simpl. apply IH. rewrite fmap_cons in Hnd. by apply NoDup_cons in Hnd as [_ ?].
  - simpl. f_equal. unfold file_entry. apply insert_insert_ne.
    rewrite !fmap_cons in Hnd. apply NoDup_cons in Hnd as [Hy _].
    rewrite not_elem_of_cons in Hy. by destruct Hy.
  - rewrite IH1 by done. apply IH2. by rewrite <- Hp1.
Qed.

Lemma literal_not_error (e : option ast.Expr) (o : object.Obj) :
  literal e = Some o → evaluator.isErr (Some o) = false.
Proof. destruct e as [[]|]; try done; by intros [= <-]. Qed.

Lemma entries_cons (hk : object.Obj → option object.HashKey) (val : object.Val)
    (kv : option ast.Expr * option ast.Expr)
    (l : list (option ast.Expr * option ast.Expr)) :
  entries hk val (kv :: l)
  = match entry hk val kv with
    | Some e => e :: entries hk val l
    | None => entries hk val l
    end.
Proof. reflexivity. Qed.

Lemma literal_keys_cons (hk : object.Obj → option object.HashKey)
    (kv : option ast.Expr * option ast.Expr)
    (l : list (option ast.Expr * option ast.Expr)) :
  omap (literal_key hk) (kv :: l)
  = match literal_key hk kv with
    | Some h => h :: omap (literal_key hk) l
    | None => omap (literal_key hk) l
    end.
Proof. reflexivity. Qed.

(** The entry of a pair whose key is the literal [k] with hash key [h]. *)
Lemma entry_literal_key (hk : object.Obj → option object.HashKey)
    (val : object.Val) (k v : option ast.Expr) (ko : object.Obj)
    (h : object.HashKey) :
  literal k = Some ko → hk ko = Some h →
  entry hk val (k, v)
  = Some (h, (Some ko, match literal v with Some o => Some o | None => val end)).
Proof. intros Hk Hh. unfold entry. simpl. by rewrite Hk, Hh. Qed.

Lemma entries_keys (hk : object.Obj → option object.HashKey) (val : object.Val)
    (l : list (option ast.Expr * option ast.Expr)) :
  (entries hk val l).*1 = omap (literal_key hk) l.
Proof.
  induction l as [|kv l IH]; [done|].
  rewrite entries_cons, literal_keys_cons. unfold entry, literal_key at 1.
  destruct (literal kv.1) as [k|]; csimpl; [|done].
  destruct (hk k); csimpl; [by rewrite IH | done].
Qed.

Lemma entries_without_computed (hk : object.Obj → option object.HashKey)
    (val val' : object.Val) (l : list (option ast.Expr * option ast.Expr)) :
  computed l = [] → entries hk val l = entries hk val' l.
Proof.
  unfold computed. induction l as [|kv l IH]; [done|].
  rewrite filter_cons. destruct (decide _) as [Hn|Hn]; [done|]. intros Hc.
  rewrite !entries_cons, (IH Hc). unfold entry.
  by destruct (literal kv.2).
Qed.

(** The loop of [evalHashLit] over pairs with literal keys of which at
    most one has a value that is not a literal: only that value is
    computed; the literals leave the state as it is. *)
Section LiteralPairs.

Variable H : evaluator.Host.
Variable eh : evaluator.ErrorHelper.
Variable ev : ast.Node → nat → evaluator.E object.Val.
Variable t : token.Token.
Variable env : nat.
Hypothesis ev_literal : ∀ e o, literal e = Some o → ev (ast.of_expr e) env = ret (Some o).

Lemma hash_loop_literals (l : list (option ast.Expr * option ast.Expr))
    (pairs : gmap object.HashKey (object.Val * object.Val)) (val : object.Val)
    (st : evaluator.State) :
  Forall (λ kv, is_Some (literal_key (evaluator.HashKeyOf H) kv)) l →
  computed l = [] →
  evaluator.evalHashLit_loop H eh ev t l env pairs st
  = Ok (inr (foldl file_entry pairs (entries (evaluator.HashKeyOf H) val l))) st.
Proof.
  revert pairs. induction l as [|[k v] l IH]; intros pairs Hkeys Hc; [done|].
  apply Forall_cons in Hkeys as [[h Hh] Hkeys].
  unfold literal_key in Hh. simpl in Hh.
  destruct (literal k) as [ko|] eqn:Hk; [|done]. simpl in Hh.
  unfold computed in Hc. rewrite filter_cons in Hc.
  destruct (decide _) as [Hn|Hn]; [done|]. simpl in Hn.
  destruct (literal v) as [vo|] eqn:Hv; [|done].
  cbn [evaluator.evalHashLit_loop]. unfold bind at 1.
  rewrite (ev_literal k ko Hk). unfold ret at 1.
  rewrite (literal_not_error k ko Hk). cbn [mbind option_bind]. rewrite Hh.
  unfold bind at 1. rewrite (ev_literal v vo Hv). unfold ret at 1.
  rewrite (literal_not_error v vo Hv).
  rewrite (IH _ Hkeys Hc).
  by rewrite entries_cons, (entry_literal_key _ _ k v ko h Hk Hh), Hv.
Qed.

Lemma hash_loop_one_computed (l : list (option ast.Expr * option ast.Expr))
    (pairs : gmap object.HashKey (object.Val * object.Val))
    (st : evaluator.State) :
  Forall (λ kv, is_Some (literal_key (evaluator.HashKeyOf H) kv)) l →
  List.length (computed l) ≤ 1 →
  evaluator.evalHashLit_loop H eh ev t l env pairs st
  = match computed l with
    | [] => Ok (inr (foldl file_entry pairs
                       (entries (evaluator.HashKeyOf H) None l))) st
    | kv :: _ =>
        match ev (ast.of_expr kv.2) env st with
        | Ok val st' =>
            if evaluator.isErr val then Ok (inl val) st'
            else Ok (inr (foldl file_entry pairs
                            (entries (evaluator.HashKeyOf H) val l))) st'
        | Panic => Panic
        | OutOfFuel => OutOfFuel
        end
    end.
Proof.
  revert pairs. induction l as [|[k v] l IH]; intros pairs Hkeys Hc; [done|].
  apply Forall_cons in Hkeys as [[h Hh] Hkeys].
  unfold literal_key in Hh. simpl in Hh.
  destruct (literal k) as [ko|] eqn:Hk; [|done]. simpl in Hh.
  unfold computed in *. rewrite filter_cons in *.
  cbn [evaluator.evalHashLit_loop]. unfold bind at 1.
  rewrite (ev_literal k ko Hk). unfold ret at 1.
  rewrite (literal_not_error k ko Hk). cbn [mbind option_bind]. rewrite Hh.
  unfold bind at 1.
  destruct (decide _) as [Hn|Hn]; simpl in Hn.
  - simpl in Hc. assert (Hrest : computed l = [])
      by (apply length_zero_iff_nil; unfold computed; lia).
    cbn [snd]. destruct (ev (ast.of_expr v) env st) as [val st'| |]; [|done..].
    destruct (evaluator.isErr val); [done|].
    rewrite (hash_loop_literals l _ val st' Hkeys Hrest).
    by rewrite entries_cons, (entry_literal_key _ _ k v ko h Hk Hh), Hn.
  - destruct (literal v) as [vo|] eqn:Hv; [|done].
    rewrite (ev_literal v vo Hv). unfold ret at 1.
    rewrite (literal_not_error v vo Hv). rewrite (IH _ Hkeys Hc).
    assert (Hent : ∀ val, foldl file_entry pairs (entries (evaluator.HashKeyOf H) val ((k, v) :: l))
              = foldl file_entry (<[h := (Some ko, Some vo)]> pairs)
                  (entries (evaluator.HashKeyOf H) val l)).
    { intros val.
      by rewrite entries_cons, (entry_literal_key _ _ k v ko h Hk Hh), Hv. }
    destruct (filter _ l) as [|kv rest]; [by rewrite Hent|].
    destruct (ev (ast.of_expr kv.2) env st) as [val st'| |]; [|done..].
    by rewrite Hent.
Qed.

End LiteralPairs.

Section Determinism.

Variable H : evaluator.Host.

Local Abbreviation plain_obj := (plain_obj (evaluator.HashKeyOf H)).
Local Abbreviation plain_val := (plain_val (evaluator.HashKeyOf H)).
Local Abbreviation plain_state := (plain_state (evaluator.HashKeyOf H)).
Local Abbreviation plain_pairs := (plain_pairs (evaluator.HashKeyOf H)).
Local Abbreviation agree := (agree (evaluator.HashKeyOf H)).
Local Abbreviation plain_expr := (plain_expr (evaluator.HashKeyOf H)).
Local Abbreviation plain_stmt := (plain_stmt (evaluator.HashKeyOf H)).
Local Abbreviation plain_block := (plain_block (evaluator.HashKeyOf H)).
Local Abbreviation plain_opt := (plain_opt (evaluator.HashKeyOf H)).
Local Abbreviation plain_node := (plain_node (evaluator.HashKeyOf H)).

Lemma plain_val_None : plain_val None.
Proof. by intros o. Qed.

Lemma plain_val_Some (o : object.Obj) : plain_obj o → plain_val (Some o).
Proof. by intros Ho o' [= <-]. Qed.

#[local] Hint Resolve plain_val_None plain_val_Some : plain.

Lemma plain_getBoolObj (b : bool) : plain_val (evaluator.getBoolObj b).
Proof. destruct b; apply plain_val_Some; constructor. Qed.

Lemma plain_evalBangOp (r : object.Val) : plain_val (evaluator.evalBangOp r).
Proof. destruct r as [[| [] | | | | | | | |]|]; apply plain_val_Some; constructor. Qed.

Lemma plain_unwrapRValue (v : object.Val) :
  plain_val v → plain_val (evaluator.unwrapRValue v).
Proof.
  intros Hv. destruct v as [[]|]; try done. simpl.
  specialize (Hv _ eq_refl). by inversion Hv.
Qed.

Lemma plain_NULL : plain_val evaluator.NULL.
Proof. apply plain_val_Some. constructor. Qed.

#[local] Hint Resolve plain_getBoolObj plain_evalBangOp plain_unwrapRValue
  plain_NULL : plain.

Lemma agree_ret {A} (a : A) (Q : A → Prop) : Q a → agree (ret a) (ret a) Q.
Proof. intros HQ st Hst. split; [done|]. by intros r st' [= <- <-]. Qed.

Lemma agree_bind {A B} (m1 m2 : evaluator.E A) (k1 k2 : A → evaluator.E B)
    (Q : A → Prop) (Q' : B → Prop) :
  agree m1 m2 Q → (∀ a, Q a → agree (k1 a) (k2 a) Q') →
  agree (bind m1 k1) (bind m2 k2) Q'.
Proof.
  intros Hm Hk st Hst. destruct (Hm st Hst) as [Heq Hpost].
  unfold bind. rewrite <- Heq.
  destruct (m1 st) as [a s1| |]; [|done..].
  destruct (Hpost a s1 eq_refl) as [Hs1 HQ].
  exact (Hk a HQ s1 Hs1).
Qed.

Lemma agree_weaken {A} (m1 m2 : evaluator.E A) (Q Q' : A → Prop) :
  agree m1 m2 Q → (∀ a, Q a → Q' a) → agree m1 m2 Q'.
Proof.
  intros Hm HQ st Hst. destruct (Hm st Hst) as [Heq Hpost]. split; [done|].
  intros r st' Hrun. destruct (Hpost r st' Hrun). auto.
Qed.

Lemma agree_panic {A} (Q : A → Prop) : agree panic panic Q.
Proof. by intros st Hst. Qed.

Lemma agree_out_of_fuel {A} (Q : A → Prop) : agree out_of_fuel out_of_fuel Q.
Proof. by intros st Hst. Qed.

(** A computation that does not touch the heap agrees with itself. *)
Lemma agree_heap_const {A} (m : evaluator.E A) (Q : A → Prop) :
  (∀ st r st', m st = Ok r st' → evaluator.heap st' = evaluator.heap st ∧ Q r) →
  agree m m Q.
Proof.
  intros Hm st Hst. split; [done|]. intros r st' Hrun.
  destruct (Hm _ _ _ Hrun) as [Hheap HQ]. split; [|done].
  unfold plain_state. by rewrite Hheap.
Qed.

Lemma agree_lift_opt {A} (o : option A) (Q : A → Prop) :
  (∀ a, o = Some a → Q a) → agree (lift_opt o) (lift_opt o) Q.
Proof. destruct o; intros HQ; [apply agree_ret; auto | apply agree_panic]. Qed.

Lemma agree_deref (v : object.Val) :
  plain_val v → agree (evaluator.deref v) (evaluator.deref v) plain_obj.
Proof. intros Hv. by apply agree_lift_opt. Qed.

Lemma agree_alloc_env (e : object.Env) :
  (∀ name v, object.store e !! name = Some v → plain_val v) →
  agree (evaluator.alloc_env e) (evaluator.alloc_env e) (λ _, True).
Proof.
  intros He st Hst. split; [done|]. intros r st' [= <- <-]. split; [|done].
  intros a e' name v Ha Hv. simpl in Ha.
  apply lookup_app_Some in Ha as [Ha|[_ Ha]]; [by eapply Hst|].
  apply list_lookup_singleton_Some in Ha as [_ <-]. by eapply He.
Qed.

Lemma agree_env_Set (a : nat) (name : string) (v : object.Val) :
  plain_val v →
  agree (evaluator.env_Set a name v) (evaluator.env_Set a name v) (λ _, True).
Proof.
  intros Hv st Hst. split; [done|]. intros r st' Hrun.
  unfold evaluator.env_Set, object.Set_ in Hrun.
  destruct (evaluator.heap st !! a) as [e|] eqn:E; simpl in Hrun; [|done].
  injection Hrun as <- <-. split; [|done].
  intros a' e' name' v' Ha' Hv'. simpl in Ha'.
  destruct (decide (a' = a)) as [->|Hne].
  - rewrite list_lookup_insert_eq in Ha' by (by eapply lookup_lt_Some).
    injection Ha' as <-. simpl in Hv'.
    destruct (decide (name' = name)) as [->|Hn].
    + rewrite lookup_insert_eq in Hv'. by injection Hv' as <-.
    + rewrite lookup_insert_ne in Hv' by done. by eapply Hst.
  - rewrite list_lookup_insert_ne in Ha' by done. by eapply Hst.
Qed.

Lemma agree_env_assign (a c : nat) :
  agree (evaluator.env_assign a c) (evaluator.env_assign a c) (λ _, True).
Proof.
  intros st Hst. split; [done|]. intros r st' Hrun.
  unfold evaluator.env_assign in Hrun.
  destruct (evaluator.heap st !! a) as [ea|] eqn:Ea; [|done].
  destruct (evaluator.heap st !! c) as [e|] eqn:Ec; [|done].
  injection Hrun as <- <-. split; [|done].
  intros a' e' name v Ha' Hv. simpl in Ha'.
  destruct (decide (a' = a)) as [->|Hne].
  - rewrite list_lookup_insert_eq in Ha' by (by eapply lookup_lt_Some).
    injection Ha' as <-. by eapply Hst.
  - rewrite list_lookup_insert_ne in Ha' by done. by eapply Hst.
Qed.

Lemma agree_env_Get (n a : nat) (name : string) :
  agree (evaluator.env_Get n a name) (evaluator.env_Get n a name)
    (λ r, ∀ v, r = Some v → plain_val v).
Proof.
  intros st Hst. split; [done|]. intros r st' Hrun.
  pose proof (env_Get_state _ _ _ _ _ _ Hrun) as ->. split; [done|].
  revert a Hrun. induction n as [|n IH]; intros a Hrun; simpl in Hrun; [done|].
  destruct (evaluator.heap st !! a) as [e|] eqn:Ea; [|done].
  destruct (object.store e !! name) as [v|] eqn:Ev.
  - injection Hrun as <-. intros v' [= <-]. by eapply Hst.
  - destruct (object.outer e); [by eapply IH|]. by injection Hrun as <-.
Qed.

Lemma agree_fresh_id : agree evaluator.fresh_id evaluator.fresh_id (λ _, True).
Proof. apply agree_heap_const. by intros st r st' [= <- <-]. Qed.

Lemma agree_write_buff (out : string) :
  agree (evaluator.write_buff out) (evaluator.write_buff out) (λ _, True).
Proof. apply agree_heap_const. by intros st r st' [= <- <-]. Qed.

Lemma agree_NewErr (eh : evaluator.ErrorHelper) (t : token.Token) (hint : bool)
    (msg : string) :
  agree (evaluator.NewErr eh t hint msg) (evaluator.NewErr eh t hint msg) plain_val.
Proof.
  unfold evaluator.NewErr.
  eapply agree_bind; [by apply (agree_lift_opt _ (λ _, True))|].
  intros line _. apply agree_ret. auto with plain.
Qed.

(** One step of a proof of [agree] for two computations of the same
    shape. *)
Ltac agree_step :=
  lazymatch goal with
  | |- agree (bind _ _) (bind _ _) _ => eapply agree_bind; [|intros ? ?]
  | |- agree (ret _) (ret _) _ => apply agree_ret; auto with plain
  | |- agree panic panic _ => apply agree_panic
  | |- agree out_of_fuel out_of_fuel _ => apply agree_out_of_fuel
  | |- agree (evaluator.deref _) (evaluator.deref _) _ =>
      apply agree_deref; auto with plain
  | |- agree (evaluator.NewErr _ _ _ _) _ _ => apply agree_NewErr
  | |- agree (evaluator.NewBareErr _) _ _ => apply agree_ret; auto with plain
  | |- agree (evaluator.env_Get _ _ _) _ _ => apply agree_env_Get
  | |- agree evaluator.fresh_id _ _ => apply agree_fresh_id
  | |- agree (evaluator.write_buff _) _ _ => apply agree_write_buff
  | |- agree (evaluator.env_Set _ _ _) _ _ => apply agree_env_Set; auto with plain
  | |- agree (evaluator.env_assign _ _) _ _ => apply agree_env_assign
  | |- agree (if ?c then _ else _) _ _ => destruct c
  | |- agree (match ?x with _ => _ end) _ _ => destruct x eqn:?
  | |- agree (let '(_, _) := ?x in _) _ _ => destruct x eqn:?
  end.

Ltac agree_auto := repeat (agree_step; simpl; try done).

Section Helpers.

Variable eh : evaluator.ErrorHelper.

Lemma agree_evalPrefixExpr (op : string) (r : object.Val) :
  plain_val r →
  agree (evaluator.evalPrefixExpr H op r) (evaluator.evalPrefixExpr H op r) plain_val.
Proof.
  intros Hr. unfold evaluator.evalPrefixExpr, evaluator.evalMinusPrefOp.
  agree_auto.
Qed.

Lemma agree_evalInfixExpr (op : string) (l r : object.Val) :
  plain_val l → plain_val r →
  agree (evaluator.evalInfixExpr H eh op l r) (evaluator.evalInfixExpr H eh op l r)
    plain_val.
Proof.
  intros Hl Hr.
  unfold evaluator.evalInfixExpr, evaluator.evalNumInfixExpr,
    evaluator.evalStringInfixExpr.
  agree_auto.
Qed.

Lemma agree_evalIndexExpr (l i : object.Val) :
  plain_val l → plain_val i →
  agree (evaluator.evalIndexExpr H eh l i) (evaluator.evalIndexExpr H eh l i)
    plain_val.
Proof.
  intros Hl Hi. unfold evaluator.evalIndexExpr.
  eapply agree_bind; [by apply agree_deref|]. intros lo Hlo.
  destruct lo; try (agree_auto; fail).
  - eapply agree_bind; [by apply agree_deref|]. intros io Hio.
    destruct io; try (agree_auto; fail).
    unfold evaluator.evalArrIndexExpr.
    destruct (evaluator.GetAsInt H Value) as [idx noerr].
    destruct (negb noerr); [agree_auto|].
    destruct (_ || _); [agree_auto|].
    apply agree_lift_opt. intros a Ha o ->. inversion Hlo; subst.
    eauto using list_elem_of_lookup_2.
  - unfold evaluator.evalHashIndexExpr.
    destruct (i ≫= evaluator.HashKeyOf H); [|agree_auto].
    destruct (Pairs !! h) as [kv|] eqn:Ekv; [|agree_auto].
    apply agree_ret. intros o Ho. inversion Hlo; subst. eauto.
Qed.

Lemma agree_inspect_all (args : list object.Val) :
  agree (evaluator.inspect_all H args) (evaluator.inspect_all H args) (λ _, True).
Proof.
  induction args as [|a args IH]; simpl; [by apply agree_ret|].
  eapply agree_bind; [by apply (agree_lift_opt _ (λ _, True))|]. intros o _.
  eapply agree_bind; [apply IH|]. intros out _. by apply agree_ret.
Qed.

Lemma agree_evalShowStmt (args : list object.Val) :
  agree (evaluator.evalShowStmt H args) (evaluator.evalShowStmt H args) plain_val.
Proof.
  unfold evaluator.evalShowStmt. eapply agree_bind; [apply agree_inspect_all|].
  intros out _. agree_auto.
Qed.

End Helpers.

Lemma is_order_short
    (o : nat → list (option ast.Expr * option ast.Expr)
         → list (option ast.Expr * option ast.Expr))
    (n : nat) (l : list (option ast.Expr * option ast.Expr)) :
  is_order o → List.length l ≤ 1 → o n l = l.
Proof.
  intros Ho Hl. specialize (Ho n l). destruct l as [|x [|y l]]; simpl in Hl; try lia.
  - by apply Permutation_nil_r in Ho.
  - by apply Permutation_singleton_r in Ho.
Qed.

Lemma evalShowStmt_order
    (o : nat → list (option ast.Expr * option ast.Expr)
         → list (option ast.Expr * option ast.Expr)) (args : list object.Val) :
  evaluator.evalShowStmt (with_order H o) args = evaluator.evalShowStmt H args.
Proof. reflexivity. Qed.

Lemma evalPrefixExpr_order
    (o : nat → list (option ast.Expr * option ast.Expr)
         → list (option ast.Expr * option ast.Expr)) (op : string) (r : object.Val) :
  evaluator.evalPrefixExpr (with_order H o) op r = evaluator.evalPrefixExpr H op r.
Proof. reflexivity. Qed.

Lemma evalInfixExpr_order
    (o : nat → list (option ast.Expr * option ast.Expr)
         → list (option ast.Expr * option ast.Expr))
    (eh : evaluator.ErrorHelper) (op : string) (l r : object.Val) :
  evaluator.evalInfixExpr (with_order H o) eh op l r
  = evaluator.evalInfixExpr H eh op l r.
Proof. reflexivity. Qed.

Lemma evalIndexExpr_order
    (o : nat → list (option ast.Expr * option ast.Expr)
         → list (option ast.Expr * option ast.Expr))
    (eh : evaluator.ErrorHelper) (l i : object.Val) :
  evaluator.evalIndexExpr (with_order H o) eh l i = evaluator.evalIndexExpr H eh l i.
Proof. reflexivity. Qed.

Lemma plain_of_expr (e : option ast.Expr) :
  plain_opt e = true → plain_node (ast.of_expr e) = true.
Proof. by destruct e. Qed.

Section AgreeWalk.

Variables o1 o2 : nat → list (option ast.Expr * option ast.Expr)
                  → list (option ast.Expr * option ast.Expr).
Variable eh : evaluator.ErrorHelper.
Hypothesis Ho1 : is_order o1.
Hypothesis Ho2 : is_order o2.
Hypothesis Hbuiltins : plain_builtins H.

Variables ev1 ev2 : ast.Node → nat → evaluator.E object.Val.
Variable fuel : nat.
Hypothesis agree_ev : ∀ node env,
  plain_node node = true → agree (ev1 node env) (ev2 node env) plain_val.
Hypothesis ev_literal :
  (∀ node env, ev1 node env = out_of_fuel ∧ ev2 node env = out_of_fuel)
  ∨ (∀ e o env, literal e = Some o →
       ev1 (ast.of_expr e) env = ret (Some o)
       ∧ ev2 (ast.of_expr e) env = ret (Some o)).

Lemma agree_ev_expr (e : option ast.Expr) (env : nat) :
  plain_opt e = true →
  agree (ev1 (ast.of_expr e) env) (ev2 (ast.of_expr e) env) plain_val.
Proof. intros He. apply agree_ev. by apply plain_of_expr. Qed.

Lemma agree_evalProg_loop (stmts : list ast.Stmt) (env : nat) (res : object.Val) :
  forallb plain_stmt stmts = true → plain_val res →
  agree (evaluator.evalProg_loop ev1 stmts env res)
        (evaluator.evalProg_loop ev2 stmts env res) plain_val.
Proof.
  revert res. induction stmts as [|s stmts IH]; intros res Hp Hres; simpl.
  - by apply agree_ret.
  - simpl in Hp. apply andb_prop in Hp as [Hs Hp].
    eapply agree_bind; [by apply agree_ev|]. intros r Hr.
    destruct r as [o|]; [|by apply IH].
    destruct o; try (by apply IH); apply agree_ret; [|done].
    specialize (Hr _ eq_refl). by inversion Hr.
Qed.

Lemma agree_evalBlockStmt_loop (stmts : list ast.Stmt) (env : nat)
    (res : object.Val) :
  forallb plain_stmt stmts = true → plain_val res →
  agree (evaluator.evalBlockStmt_loop ev1 stmts env res)
        (evaluator.evalBlockStmt_loop ev2 stmts env res) plain_val.
Proof.
  revert res. induction stmts as [|s stmts IH]; intros res Hp Hres; simpl.
  - by apply agree_ret.
  - simpl in Hp. apply andb_prop in Hp as [Hs Hp].
    eapply agree_bind; [by apply agree_ev|]. intros r Hr.
    destruct r as [o|]; [|by apply IH].
    destruct (_ || _); [by apply agree_ret | by apply IH].
Qed.

Lemma agree_evalExprs_loop (es : list (option ast.Expr)) (env : nat)
    (res : list object.Val) :
  forallb plain_opt es = true → Forall plain_val res →
  agree (evaluator.evalExprs_loop ev1 es env res)
        (evaluator.evalExprs_loop ev2 es env res) (Forall plain_val).
Proof.
  revert res. induction es as [|e es IH]; intros res Hp Hres; simpl.
  - by apply agree_ret.
  - simpl in Hp. apply andb_prop in Hp as [He Hp].
    eapply agree_bind; [by apply agree_ev_expr|]. intros r Hr.
    destruct (evaluator.isErr r); [apply agree_ret; by constructor|].
    apply IH; [done|]. apply Forall_app. split; [done | by constructor].
Qed.

Lemma agree_while_loop (n : nat) (wcond : option ast.Expr) (body : ast.BlockStmt)
    (env : nat) (cond result : object.Val) :
  plain_opt wcond = true → plain_block body = true → plain_val result →
  agree (evaluator.while_loop ev1 n wcond body env cond result)
        (evaluator.while_loop ev2 n wcond body env cond result) plain_val.
Proof.
  intros Hc Hb. revert cond result.
  induction n as [|n IH]; intros cond result Hres; simpl.
  - apply agree_out_of_fuel.
  - destruct (evaluator.isTruthy cond); [|by apply agree_ret].
    eapply agree_bind; [by apply agree_ev|]. intros r Hr.
    eapply agree_bind; [by apply agree_ev_expr|]. intros c _. by apply IH.
Qed.

Lemma agree_evalHashLit_loop (t : token.Token)
    (nodes : list (option ast.Expr * option ast.Expr)) (env : nat)
    (pairs : gmap object.HashKey (object.Val * object.Val)) :
  forallb (λ kv, plain_opt kv.1 && plain_opt kv.2) nodes = true →
  plain_pairs pairs →
  agree (evaluator.evalHashLit_loop (with_order H o1) eh ev1 t nodes env pairs)
        (evaluator.evalHashLit_loop (with_order H o2) eh ev2 t nodes env pairs)
        (λ r, match r with inl v => plain_val v | inr p => plain_pairs p end).
Proof.
  revert pairs. induction nodes as [|[k v] nodes IH]; intros pairs Hp Hpairs; simpl.
  - by apply agree_ret.
  - simpl in Hp. apply andb_prop in Hp as [Hkv Hp].
    apply andb_prop in Hkv as [Hk Hv].
    eapply agree_bind; [by apply agree_ev_expr|]. intros key Hkey.
    destruct (evaluator.isErr key); [by apply agree_ret|].
    destruct (key ≫= evaluator.HashKeyOf H) as [hashed|].
    + eapply agree_bind; [by apply agree_ev_expr|]. intros val Hval.
      destruct (evaluator.isErr val); [by apply agree_ret|].
      apply IH; [done|]. intros k' kv o Hlook Ho.
      destruct (decide (hashed = k')) as [->|Hne].
      * rewrite lookup_insert_eq in Hlook. injection Hlook as <-.
        destruct Ho as [Ho|Ho]; simpl in Ho; [by apply Hkey | by apply Hval].
      * rewrite lookup_insert_ne in Hlook by done. by eapply Hpairs.
    + eapply agree_bind; [by apply agree_deref|]. intros ko _.
      eapply agree_bind; [apply agree_NewErr|]. intros err Herr.
      by apply agree_ret.
Qed.

Lemma plain_literal (e : option ast.Expr) (o : object.Obj) :
  literal e = Some o → plain_obj o.
Proof. destruct e as [[]|]; try done; intros [= <-]; constructor. Qed.

Lemma plain_entries (val : object.Val)
    (l : list (option ast.Expr * option ast.Expr))
    (m : gmap object.HashKey (object.Val * object.Val)) :
  plain_val val → plain_pairs m →
  plain_pairs (foldl file_entry m (entries (evaluator.HashKeyOf H) val l)).
Proof.
  intros Hval. revert m. induction l as [|kv l IH]; intros m Hm; [done|].
  rewrite entries_cons. unfold entry.
  destruct (literal kv.1) as [k|] eqn:Hk; [|by apply IH].
  destruct (evaluator.HashKeyOf H k) as [h|]; [|by apply IH].
  simpl. apply IH. unfold file_entry. simpl.
  intros k' kv' o Hlook Ho.
  destruct (decide (h = k')) as [->|Hne].
  - rewrite lookup_insert_eq in Hlook. injection Hlook as <-. simpl in Ho.
    destruct Ho as [[= <-]|Ho]; [by eapply plain_literal|].
    destruct (literal kv.2) as [vo|] eqn:Hv.
    + injection Ho as <-. by eapply plain_literal.
    + by apply Hval.
  - rewrite lookup_insert_ne in Hlook by done. by eapply Hm.
Qed.

(** The pairs of a hash literal with literal keys that are pairwise
    different as hash keys, of which at most one has a value that is not
    a literal, give the same hash in whatever order they are visited. *)
Lemma agree_evalHashLit_free (t : token.Token)
    (nodes l1 l2 : list (option ast.Expr * option ast.Expr)) (env : nat) :
  l1 ≡ₚ nodes → l2 ≡ₚ nodes →
  Forall (λ kv, is_Some (literal_key (evaluator.HashKeyOf H) kv)) nodes →
  NoDup (omap (literal_key (evaluator.HashKeyOf H)) nodes) →
  List.length (computed nodes) ≤ 1 →
  forallb (λ kv, plain_opt kv.1 && plain_opt kv.2) nodes = true →
  agree (evaluator.evalHashLit_loop (with_order H o1) eh ev1 t l1 env ∅)
        (evaluator.evalHashLit_loop (with_order H o2) eh ev2 t l2 env ∅)
        (λ r, match r with inl v => plain_val v | inr p => plain_pairs p end).
Proof.
  intros Hp1 Hp2 Hkeys Hnd Hone Hplain st Hst.
  destruct ev_literal as [Hout|Hlit].
  - destruct nodes as [|x nodes].
    + apply Permutation_nil_r in Hp1 as ->. apply Permutation_nil_r in Hp2 as ->.
      split; [done|]. intros r st' [= <- <-]. split; [done|]. by intros k kv o.
    + destruct l1 as [|[k1 v1] l1]; [by apply Permutation_nil_cons in Hp1|].
      destruct l2 as [|[k2 v2] l2]; [by apply Permutation_nil_cons in Hp2|].
      simpl. unfold bind. rewrite (proj1 (Hout _ _)), (proj2 (Hout _ _)).
      by split.
  - assert (Hk1 : Forall (λ kv, is_Some (literal_key (evaluator.HashKeyOf H) kv)) l1)
      by (by rewrite Hp1).
    assert (Hk2 : Forall (λ kv, is_Some (literal_key (evaluator.HashKeyOf H) kv)) l2)
      by (by rewrite Hp2).
    assert (Hc1 : computed l1 ≡ₚ computed nodes) by (unfold computed; by rewrite Hp1).
    assert (Hc2 : computed l2 ≡ₚ computed nodes) by (unfold computed; by rewrite Hp2).
    assert (Hmaps : ∀ val m,
              foldl file_entry m (entries (evaluator.HashKeyOf H) val l1)
              = foldl file_entry m (entries (evaluator.HashKeyOf H) val l2)).
    { intros val m. apply foldl_file_entry_perm.
      - rewrite entries_keys. by rewrite Hp1.
      - unfold entries. by rewrite Hp1, Hp2. }
    rewrite (hash_loop_one_computed (with_order H o1) eh ev1 t env
               (λ e o He, proj1 (Hlit e o env He)) l1 ∅ st Hk1)
      by (by rewrite Hc1).
    rewrite (hash_loop_one_computed (with_order H o2) eh ev2 t env
               (λ e o He, proj2 (Hlit e o env He)) l2 ∅ st Hk2)
      by (by rewrite Hc2).
    simpl.
    destruct (computed nodes) as [|kv [|]] eqn:Hc; simpl in Hone; [| |lia].
    + apply Permutation_nil_r in Hc1 as ->. apply Permutation_nil_r in Hc2 as ->.
      rewrite Hmaps. split; [done|]. intros r st' [= <- <-]. split; [done|].
      apply plain_entries; [by intros o | by intros k kv' o].
    + apply Permutation_singleton_r in Hc1 as ->.
      apply Permutation_singleton_r in Hc2 as ->.
      assert (Hin : kv ∈ nodes).
      { assert (Hkv : kv ∈ computed nodes) by (rewrite Hc; left).
        unfold computed in Hkv. by apply list_elem_of_filter in Hkv as [_ ?]. }
      assert (Hv : plain_opt kv.2 = true).
      { rewrite forallb_forall in Hplain. apply list_elem_of_In in Hin.
        specialize (Hplain _ Hin). by apply andb_prop in Hplain as [_ ?]. }
      destruct (agree_ev (ast.of_expr kv.2) env (plain_of_expr _ Hv) st Hst)
        as [Heq Hpost].
      rewrite <- Heq. destruct (ev1 (ast.of_expr kv.2) env st) as [val st1| |];
        [|done..].
      destruct (Hpost val st1 eq_refl) as [Hst1 Hval].
      destruct (evaluator.isErr val).
      * split; [done|]. by intros r st' [= <- <-].
      * rewrite Hmaps. split; [done|]. intros r st' [= <- <-]. split; [done|].
        apply plain_entries; [done | by intros k kv' o].
Qed.

Lemma agree_bind_params (env : nat) (params : list ast.Identifier)
    (args : list object.Val) :
  Forall plain_val args →
  agree (evaluator.bind_params env params args)
        (evaluator.bind_params env params args) (λ _, True).
Proof.
  revert args. induction params as [|p params IH]; intros [|a args] Hargs; simpl;
    try (by apply agree_ret); try apply agree_panic.
  inversion Hargs; subst.
  eapply agree_bind; [by apply agree_env_Set|]. intros _ _. by apply IH.
Qed.

Lemma agree_applyFunc (fn : object.Val) (caller : token.Token)
    (args : list object.Val) :
  plain_val fn → Forall plain_val args →
  agree (evaluator.applyFunc (with_order H o1) eh ev1 fn caller args)
        (evaluator.applyFunc (with_order H o2) eh ev2 fn caller args) plain_val.
Proof.
  intros Hfn Hargs. unfold evaluator.applyFunc.
  eapply agree_bind; [by apply agree_deref|]. intros f Hf.
  destruct f; simpl; try (apply agree_ret; auto with plain; fail).
  - destruct (bool_decide _); [|apply agree_NewErr].
    inversion Hf; subst.
    unfold evaluator.extendFuncEnv, evaluator.NewEnclosedEnv.
    eapply agree_bind.
    + eapply agree_bind; [by apply agree_alloc_env|]. intros a _.
      eapply agree_bind; [by apply agree_bind_params|]. intros _ _.
      by apply (agree_ret _ (λ _, True)).
    + intros a _. eapply agree_bind; [by apply agree_ev|].
      intros r Hr. apply agree_ret. auto with plain.
  - apply agree_heap_const. intros st r st' Hrun.
    pose proof (Hbuiltins name args (evaluator.next_id st) Hargs) as Hplain.
    destruct (evaluator.builtin_Fn _ _ _ _). by injection Hrun as <- <-.
Qed.

Lemma agree_Eval_body (node : ast.Node) (env : nat) :
  plain_node node = true →
  agree (evaluator.Eval_body (with_order H o1) eh ev1 fuel node env)
        (evaluator.Eval_body (with_order H o2) eh ev2 fuel node env) plain_val.
Proof.
  intros Hp. destruct node as [|p|s|blk|e]; simpl in *.
  - by apply agree_ret.
  - by apply agree_evalProg_loop.
  - destruct s; simpl in *.
    + eapply agree_bind; [by apply agree_ev_expr|]. intros val Hval.
      destruct (evaluator.isErr val); [by apply agree_ret|].
      eapply agree_bind; [by apply agree_env_Set|]. intros _ _.
      by apply agree_ret.
    + apply agree_panic.
    + eapply agree_bind; [by apply agree_ev_expr|]. intros val Hval.
      destruct (evaluator.isErr val); [by apply agree_ret|].
      eapply agree_bind; [apply agree_fresh_id|]. intros id _.
      apply agree_ret. apply plain_val_Some. constructor. exact Hval.
    + eapply agree_bind; [by apply agree_evalExprs_loop|]. intros args _.
      rewrite !evalShowStmt_order. apply agree_evalShowStmt.
    + done.
    + by apply agree_ev_expr.
    + by apply agree_ret.
  - destruct blk. by apply agree_evalBlockStmt_loop.
  - destruct e; simpl in *.
    + unfold evaluator.evalId.
      eapply agree_bind; [apply agree_env_Get|]. intros r Hr.
      destruct r as [v|]; [apply agree_ret; by apply Hr|]. simpl.
      destruct (evaluator.builtins H _); [|apply agree_NewErr].
      apply agree_ret. auto with plain.
    + apply agree_ret. auto with plain.
    + apply agree_ret. auto with plain.
    + apply agree_ret. auto with plain.
    + eapply agree_bind; [by apply agree_ev_expr|]. intros r Hr.
      destruct (evaluator.isErr r); [by apply agree_ret|].
      rewrite !evalPrefixExpr_order. by apply agree_evalPrefixExpr.
    + apply andb_prop in Hp as [Hl Hr].
      eapply agree_bind; [by apply agree_ev_expr|]. intros l Hlv.
      destruct (evaluator.isErr l); [by apply agree_ret|].
      eapply agree_bind; [by apply agree_ev_expr|]. intros r Hrv.
      destruct (evaluator.isErr r); [by apply agree_ret|].
      rewrite !evalInfixExpr_order. by apply agree_evalInfixExpr.
    + apply andb_prop in Hp as [Hp He]. apply andb_prop in Hp as [Hc Ht].
      unfold evaluator.evalIfExpr.
      eapply agree_bind; [by apply agree_ev_expr|]. intros c Hcv.
      destruct (evaluator.isErr c); [by apply agree_ret|].
      destruct (evaluator.isTruthy c); [by apply agree_ev|].
      destruct ElseBlock; [by apply agree_ev | apply agree_ret; auto with plain].
    + apply andb_prop in Hp as [Hc Hb].
      unfold evaluator.evalWhileExpr.
      eapply agree_bind; [by apply agree_ev_expr|]. intros c Hcv.
      destruct (evaluator.isErr c); [by apply agree_ret|].
      by apply agree_while_loop.
    + eapply agree_bind; [apply agree_fresh_id|]. intros id _.
      apply agree_ret. apply plain_val_Some. by constructor.
    + apply andb_prop in Hp as [Hf Hargs].
      eapply agree_bind; [by apply agree_ev_expr|]. intros f Hfv.
      destruct (evaluator.isErr f); [by apply agree_ret|].
      eapply agree_bind; [by apply agree_evalExprs_loop|]. intros args Hargsv.
      destruct args as [|a [|]]; try (by apply agree_applyFunc).
      destruct (evaluator.isErr a); [|by apply agree_applyFunc].
      apply agree_ret. by inversion Hargsv.
    + eapply agree_bind; [by apply agree_evalExprs_loop|]. intros elms Helms.
      assert (Harr : ∀ t, agree
                (do id <- evaluator.fresh_id; ret (Some (object.Array id elms t)))
                (do id <- evaluator.fresh_id; ret (Some (object.Array id elms t)))
                plain_val).
      { intros t. eapply agree_bind; [apply agree_fresh_id|]. intros id _.
        apply agree_ret. apply plain_val_Some. constructor.
        intros o Ho. rewrite Forall_forall in Helms. by apply (Helms _ Ho). }
      destruct elms as [|a [|]]; try apply Harr.
      destruct (evaluator.isErr a); [|apply Harr].
      apply agree_ret. by inversion Helms.
    + apply andb_prop in Hp as [Hfree Hpairs].
      unfold evaluator.evalHashLit.
      eapply agree_bind.
      { apply (agree_heap_const evaluator.next_range (λ _, True)).
        by intros st r st' [= <- <-]. }
      intros n _. simpl.
      eapply agree_bind with
        (Q := λ r, match r with inl v => plain_val v | inr p => plain_pairs p end).
      { unfold order_free in Hfree. apply orb_prop in Hfree as [Hlen|Hfree].
        - apply Nat.leb_le in Hlen.
          rewrite (is_order_short o1), (is_order_short o2) by done.
          by apply agree_evalHashLit_loop.
        - apply andb_prop in Hfree as [Hfree Hone].
          apply andb_prop in Hfree as [Hkeys Hnd].
          apply Nat.leb_le in Hone. apply bool_decide_eq_true in Hnd.
          apply (agree_evalHashLit_free _ Pairs); try done.
          apply Forall_forall. intros kv Hin. rewrite forallb_forall in Hkeys.
          apply list_elem_of_In in Hin.
          exact (bool_decide_eq_true_1 _ (Hkeys _ Hin)). }
      intros r Hr.
      destruct r as [v|pairs]; [by apply agree_ret|].
      eapply agree_bind; [apply agree_fresh_id|]. intros id _.
      apply agree_ret. apply plain_val_Some. by constructor.
    + apply andb_prop in Hp as [Hl Hi].
      eapply agree_bind; [by apply agree_ev_expr|]. intros l Hlv.
      destruct (evaluator.isErr l); [apply agree_ret; auto with plain|].
      eapply agree_bind; [by apply agree_ev_expr|]. intros i Hiv.
      destruct (evaluator.isErr i); [by apply agree_ret|].
      rewrite !evalIndexExpr_order. by apply agree_evalIndexExpr.
Qed.

End AgreeWalk.

(** Two evaluations of a plain node that differ in the order of [range]
    have the same outcome. *)
Lemma agree_Eval
    (o1 o2 : nat → list (option ast.Expr * option ast.Expr)
             → list (option ast.Expr * option ast.Expr))
    (eh : evaluator.ErrorHelper) (n : nat) (node : ast.Node) (env : nat) :
  is_order o1 → is_order o2 → plain_builtins H →
  plain_node node = true →
  agree (evaluator.Eval (with_order H o1) eh n node env)
        (evaluator.Eval (with_order H o2) eh n node env) plain_val.
Proof.
  intros Ho1 Ho2 Hb. revert node env.
  induction n as [|n IH]; intros node env Hp; simpl.
  - apply agree_out_of_fuel.
  - apply agree_Eval_body; try done.
    destruct n as [|n]; [left; intros; split; reflexivity|].
    right. intros e o env' He.
    destruct e as [[]|]; try done; injection He as <-; split; try reflexivity;
      by match goal with b : bool |- _ => destruct b end.
Qed.

Lemma plain_state_initial : plain_state evaluator.initial.
Proof. intros a e name v Ha. simpl in Ha. by rewrite lookup_nil in Ha. Qed.

End Determinism.


Lemma is_order_in_order : is_order demo.in_order.
Proof. by intros n l. Qed.

Lemma is_order_reversed : is_order demo.reversed.
Proof. intros n l. symmetry. apply Permutation_rev. Qed.



(** ** Operators *)

Lemma Eval_S (H : evaluator.Host) (eh : evaluator.ErrorHelper) (n : nat)
    (node : ast.Node) (env : nat) (s : evaluator.State) :
  evaluator.Eval H eh (S n) node env s
  = evaluator.Eval_body H eh (λ node env s, evaluator.Eval H eh n node env s)
      n node env s.
Proof. reflexivity. Qed.

Lemma evalBangOp_isTruthy (r : object.Val) :
  evaluator.evalBangOp r = evaluator.getBoolObj (negb (evaluator.isTruthy r)).
Proof. by destruct r as [[| [] | | | | | | | |]|]. Qed.

(** X1: [!e] evaluates [e]; an error is handed on, and every other
    result, the absent one included, is turned into [TRUE] when it is
    not truthy and into [FALSE] when it is.  [!!e] is the truthiness of
    [e] as a boolean. *)
Theorem bang_negates_truthiness
    (H : evaluator.Host) (eh : evaluator.ErrorHelper) (n : nat)
    (t t' : token.Token) (e : option ast.Expr) (env : nat) (s : evaluator.State) :
  evaluator.Eval H eh (S n) (ast.NodeExpr (ast.PrefixExpr t "!" e)) env s
  = map_res (λ v s', Ok (if evaluator.isErr v then v
                         else evaluator.getBoolObj (negb (evaluator.isTruthy v))) s')
      (evaluator.Eval H eh n (ast.of_expr e) env s)
  ∧ evaluator.Eval H eh (S (S n))
      (ast.NodeExpr (ast.PrefixExpr t' "!" (Some (ast.PrefixExpr t "!" e)))) env s
    = map_res (λ v s', Ok (if evaluator.isErr v then v
                           else evaluator.getBoolObj (evaluator.isTruthy v)) s')
        (evaluator.Eval H eh n (ast.of_expr e) env s).
Proof.
  assert (Hone : ∀ t,
    evaluator.Eval H eh (S n) (ast.NodeExpr (ast.PrefixExpr t "!" e)) env s
    = map_res (λ v s', Ok (if evaluator.isErr v then v
                           else evaluator.getBoolObj (negb (evaluator.isTruthy v))) s')
        (evaluator.Eval H eh n (ast.of_expr e) env s)).
  { intros t0. cbn [evaluator.Eval evaluator.Eval_body evaluator.Eval_expr].
    unfold bind. destruct (evaluator.Eval H eh n (ast.of_expr e) env s) as [v s'| |];
      simpl; try done.
    destruct (evaluator.isErr v); [done|].
    unfold evaluator.evalPrefixExpr. simpl. unfold ret.
    by rewrite evalBangOp_isTruthy. }
  split; [apply Hone|].
  rewrite Eval_S.
  cbn [evaluator.Eval_body evaluator.Eval_expr ast.of_expr]. unfold bind.
  rewrite Hone.
  destruct (evaluator.Eval H eh n (ast.of_expr e) env s) as [v s'| |]; simpl; try done.
  destruct (evaluator.isErr v) eqn:Hv; [by rewrite Hv|].
  destruct (evaluator.isTruthy v); simpl; done.
Qed.

Lemma same_obj_types (lo ro : object.Obj) :
  object.Type_ lo ≠ object.Type_ ro →
  evaluator.same_obj (Some lo) (Some ro) = false.
Proof. by destruct lo, ro. Qed.

(** X2: on two operands of different types the operators [==] and
    [!=] never report a type mismatch: [==] is [FALSE] and [!=] is
    [TRUE], and the state is left alone.  Every other operator gives the
    error [Type mismatch], formatted at the token of the left operand. *)
Theorem infix_on_different_types
    (H : evaluator.Host) (eh : evaluator.ErrorHelper) (op : string)
    (lo ro : object.Obj) (s : evaluator.State) :
  object.Type_ lo ≠ object.Type_ ro →
  evaluator.evalInfixExpr H eh op (Some lo) (Some ro) s
  = if bool_decide (op = "==") then Ok evaluator.FALSE s
    else if bool_decide (op = "!=") then Ok evaluator.TRUE s
    else evaluator.NewErr eh (object.GetToken lo) false
           ("Type mismatch:  " +:+ evaluator.type_name H (object.Type_ lo)
            +:+ " " +:+ op +:+ " " +:+ evaluator.type_name H (object.Type_ ro)
            +:+ " ") s.
Proof.
  intros Hty.
  assert (Hrest :
    (if bool_decide (op = "==")
     then ret (evaluator.getBoolObj (evaluator.same_obj (Some lo) (Some ro)))
     else if bool_decide (op = "!=")
     then ret (evaluator.getBoolObj (negb (evaluator.same_obj (Some lo) (Some ro))))
     else
       do ro' <- evaluator.deref (Some ro);
       if bool_decide (object.Type_ lo ≠ object.Type_ ro')
       then evaluator.NewErr eh (object.GetToken lo) false
              ("Type mismatch:  " +:+ evaluator.type_name H (object.Type_ lo)
               +:+ " " +:+ op +:+ " " +:+ evaluator.type_name H (object.Type_ ro')
               +:+ " ")
       else evaluator.NewErr eh (object.GetToken lo) false
              ("unknown Operator : " +:+ evaluator.type_name H (object.Type_ lo)
               +:+ " " +:+ op +:+ " " +:+ evaluator.type_name H (object.Type_ ro'))) s
    = if bool_decide (op = "==") then Ok evaluator.FALSE s
      else if bool_decide (op = "!=") then Ok evaluator.TRUE s
      else evaluator.NewErr eh (object.GetToken lo) false
             ("Type mismatch:  " +:+ evaluator.type_name H (object.Type_ lo)
              +:+ " " +:+ op +:+ " " +:+ evaluator.type_name H (object.Type_ ro)
              +:+ " ") s).
  { rewrite same_obj_types by done.
    repeat case_bool_decide; try done.
    unfold bind; simpl. by rewrite bool_decide_eq_true_2. }
  unfold evaluator.evalInfixExpr. unfold bind at 1. simpl.
  destruct lo; try exact Hrest.
  - unfold bind at 1; simpl. destruct ro; try exact Hrest. done.
  - unfold bind at 1; simpl. destruct ro; try exact Hrest. done.
Qed.

Lemma infix_on_different_types_witness :
  evaluator.evalInfixExpr scenario.h0 {| evaluator.Source := "1 == x" |} "=="
    (Some (object.Number {| number.Value := Some (number.IntNumber 1);
                            number.IsInt := true |} true token.virtual))
    (Some (object.String "x" token.virtual)) evaluator.initial
  = Ok evaluator.FALSE evaluator.initial.
Proof.
  exact (infix_on_different_types scenario.h0 {| evaluator.Source := "1 == x" |} "=="
           (object.Number {| number.Value := Some (number.IntNumber 1);
                             number.IsInt := true |} true token.virtual)
           (object.String "x" token.virtual) evaluator.initial
           ltac:(discriminate)).
Defined.

(** ** Lists of expressions *)

Lemma evalExprs_loop_shape (ev : ast.Node → nat → evaluator.E object.Val)
    (es : list (option ast.Expr)) (env : nat) (acc vs : list object.Val)
    (s s' : evaluator.State) :
  evaluator.evalExprs_loop ev es env acc s = Ok vs s' →
  (∃ vs', vs = acc ++ vs' ∧ List.length vs' = List.length es
          ∧ Forall (λ v, evaluator.isErr v = false) vs')
  ∨ (∃ e, vs = [e] ∧ evaluator.isErr e = true).
Proof.
  revert acc s. induction es as [|e es IH]; intros acc s Hrun; simpl in Hrun.
  - injection Hrun as <- <-. left. exists []. by rewrite app_nil_r.
  - unfold bind in Hrun. destruct (ev (ast.of_expr e) env s) as [v s1| |]; try done.
    destruct (evaluator.isErr v) eqn:Hv.
    + injection Hrun as <- <-. right. by exists v.
    + destruct (IH _ _ Hrun) as [(vs' & -> & Hlen & Hall)|Herr]; [|by right].
      left. exists (v :: vs'). rewrite <- app_assoc. simpl.
      repeat split; [by rewrite Hlen | by constructor].
Qed.

(** X3: the values of a list of expressions (call arguments, array
    elements, the arguments of [dekhao]) are either one value for each
    expression, none of them an error, or the single error of the first
    expression that failed. *)
Theorem evalExprs_all_or_first_error
    (ev : ast.Node → nat → evaluator.E object.Val)
    (es : list (option ast.Expr)) (env : nat) (vs : list object.Val)
    (s s' : evaluator.State) :
  evaluator.evalExprs ev es env s = Ok vs s' →
  (List.length vs = List.length es ∧ Forall (λ v, evaluator.isErr v = false) vs)
  ∨ (∃ e, vs = [e] ∧ evaluator.isErr e = true).
Proof.
  intros Hrun. destruct (evalExprs_loop_shape _ _ _ _ _ _ _ Hrun)
    as [(vs' & -> & Hlen & Hall)|Herr]; [by left | by right].
Qed.

Lemma evalExprs_all_or_first_error_witness :
  (List.length [scenario.five] = List.length [Some (scenario.int_lit 5 "5" 11)]
   ∧ Forall (λ v, evaluator.isErr v = false) [scenario.five])
  ∨ (∃ e, [scenario.five] = [e] ∧ evaluator.isErr e = true).
Proof.
  exact (evalExprs_all_or_first_error
           (evaluator.Eval scenario.h0 {| evaluator.Source := scenario.src_let |} 2)
           [Some (scenario.int_lit 5 "5" 11)] 0 [scenario.five]
           scenario.top scenario.top eq_refl).
Defined.

(** ** Blocks and programs *)

Lemma evalBlockStmt_loop_app (ev : ast.Node → nat → evaluator.E object.Val)
    (l1 l2 : list ast.Stmt) (env : nat) (r0 : object.Val) (s : evaluator.State) :
  evaluator.evalBlockStmt_loop ev (l1 ++ l2) env r0 s
  = map_res (λ r s1, if stops r && negb (bool_decide (l1 = [])) then Ok r s1
                     else evaluator.evalBlockStmt_loop ev l2 env r s1)
      (evaluator.evalBlockStmt_loop ev l1 env r0 s).
Proof.
  revert r0 s. induction l1 as [|st l1 IH]; intros r0 s; simpl.
  - by rewrite andb_false_r.
  - unfold bind. destruct (ev (ast.NodeStmt st) env s) as [res s1| |]; simpl; try done.
    assert (Hgo : stops res = false →
      evaluator.evalBlockStmt_loop ev (l1 ++ l2) env res s1
      = map_res (λ r s2, if stops r && negb (bool_decide (st :: l1 = [])) then Ok r s2
                         else evaluator.evalBlockStmt_loop ev l2 env r s2)
          (evaluator.evalBlockStmt_loop ev l1 env res s1)).
    { intros Hres. rewrite IH.
      destruct (evaluator.evalBlockStmt_loop ev l1 env res s1) as [r s2| |] eqn:E;
        simpl; try done.
      destruct l1 as [|st' l1]; [|done].
      injection E as <- <-. by rewrite Hres. }
    destruct res as [o|]; [|by apply Hgo].
    destruct (_ || _) eqn:Hst; [|by apply Hgo].
    simpl. unfold ret. by rewrite Hst.
Qed.

(** X4: a block is evaluated statement by statement and ends at the
    first return value or error: what follows in the block is not
    evaluated.  A block that runs through its first part goes on with
    the rest in the state and with the result that the first part left. *)
Theorem block_ends_at_return_or_error
    (ev : ast.Node → nat → evaluator.E object.Val) (t : token.Token)
    (l1 l2 : list ast.Stmt) (env : nat) (s : evaluator.State) :
  evaluator.evalBlockStmt ev (ast.Block t (l1 ++ l2)) env s
  = map_res (λ r s1, if stops r then Ok r s1
                     else evaluator.evalBlockStmt_loop ev l2 env r s1)
      (evaluator.evalBlockStmt ev (ast.Block t l1) env s).
Proof.
  unfold evaluator.evalBlockStmt. simpl. rewrite evalBlockStmt_loop_app.
  destruct l1 as [|st l1]; simpl; [done|].
  destruct (bind _ _ s); simpl; try done. by rewrite andb_true_r.
Qed.

Lemma evalProg_loop_block (ev : ast.Node → nat → evaluator.E object.Val)
    (l : list ast.Stmt) (env : nat) (r0 : object.Val) (s : evaluator.State) :
  stops r0 = false →
  evaluator.evalProg_loop ev l env r0 s
  = map_res (λ r s', Ok (evaluator.unwrapRValue r) s')
      (evaluator.evalBlockStmt_loop ev l env r0 s).
Proof.
  revert r0 s. induction l as [|st l IH]; intros r0 s Hr0; simpl.
  - unfold ret. by destruct r0 as [[]|].
  - unfold bind. destruct (ev (ast.NodeStmt st) env s) as [res s1| |]; simpl; try done.
    destruct res as [o|]; [|by apply IH].
    destruct o; simpl; try (by apply IH); done.
Qed.

(** X5: a program is evaluated like a block whose result is unwrapped
    once, which is what a call does with the body of a function: the
    statements run in order up to the first return value or error, and a
    return value is replaced by the value it carries. *)
Theorem program_is_block_unwrapped
    (ev : ast.Node → nat → evaluator.E object.Val) (t : token.Token)
    (l : list ast.Stmt) (env : nat) (s : evaluator.State) :
  evaluator.evalProg ev (ast.mkProgram l) env s
  = map_res (λ r s', Ok (evaluator.unwrapRValue r) s')
      (evaluator.evalBlockStmt ev (ast.Block t l) env s).
Proof. by apply evalProg_loop_block. Qed.

(** ** Binding and lookup *)

(** X6: a let statement that returns without an error has evaluated
    its value to some [v] that is not an error, and from then on the
    identifier evaluates to [v] in the same environment, without
    changing the state. *)
Theorem let_then_identifier
    (H : evaluator.Host) (eh : evaluator.ErrorHelper) (n m : nat)
    (tok t' : token.Token) (name : ast.Identifier) (value : option ast.Expr)
    (env : nat) (s s' : evaluator.State) :
  evaluator.Eval H eh (S n) (ast.NodeStmt (ast.LetStmt tok name value)) env s
    = Ok None s' →
  ∃ v s1,
    evaluator.Eval H eh n (ast.of_expr value) env s = Ok v s1
    ∧ evaluator.isErr v = false
    ∧ evaluator.Eval H eh (S (S m)) (ast.NodeExpr (ast.Ident t' name.2)) env s'
      = Ok v s'.
Proof.
  intros Hrun. rewrite Eval_S in Hrun. cbn [evaluator.Eval_body evaluator.Eval_stmt] in Hrun. unfold bind in Hrun. revert Hrun.
  destruct (evaluator.Eval H eh n (ast.of_expr value) env s) as [v s1| |];
    try done.
  destruct (evaluator.isErr v) eqn:Hv.
  { intros [= Hnone _]. subst v. done. }
  unfold evaluator.env_Set, object.Set_.
  destruct (evaluator.heap s1 !! env) as [e|] eqn:He; simpl; [|done].
  intros [= <-]. exists v, s1. repeat split; try done.
  unfold evaluator.evalId, bind. cbn [evaluator.env_Get].
  cbn [evaluator.heap evaluator.with_heap].
  rewrite list_lookup_insert_eq by (by eapply lookup_lt_Some).
  cbn [object.store]. by rewrite lookup_insert_eq.
Qed.

Lemma let_then_identifier_witness :
  ∃ v s1,
    evaluator.Eval scenario.h0 {| evaluator.Source := scenario.src_let |} 2
      (ast.of_expr (Some (scenario.int_lit 5 "5" 11))) 0 scenario.top = Ok v s1
    ∧ evaluator.isErr v = false
    ∧ evaluator.Eval scenario.h0 {| evaluator.Source := scenario.src_let |} 2
        (ast.NodeExpr (ast.Ident token.virtual scenario.x_name.2)) 0
        (evaluator.with_heap
           [scenario.bound "x" scenario.five
              {| object.store := ∅; object.outer := None |}] scenario.top)
      = Ok v (evaluator.with_heap
                [scenario.bound "x" scenario.five
                   {| object.store := ∅; object.outer := None |}] scenario.top).
Proof.
  exact (let_then_identifier scenario.h0 {| evaluator.Source := scenario.src_let |}
           2 0 (token.mkToken token.LET "dhori" 1 1) token.virtual scenario.x_name
           (Some (scenario.int_lit 5 "5" 11)) 0 scenario.top _ eq_refl).
Defined.

(** ** What an evaluation does to the heap and to the print buffer *)

Lemma append_assoc (a b c : string) : (a +:+ b) +:+ c = a +:+ (b +:+ c).
Proof. induction a as [|x a IH]; [done|]. rewrite !append_cons. by rewrite IH. Qed.

Lemma whole_lines_app (a b : string) :
  whole_lines a → whole_lines b → whole_lines (a +:+ b).
Proof.
  intros Ha [->|[o ->]].
  - by rewrite append_empty_r.
  - right. exists (a +:+ o). by rewrite append_assoc.
Qed.

Lemma grows_refl (s : evaluator.State) : grows s s.
Proof. split; [done|]. exists "". split; [by rewrite append_empty_r | by left]. Qed.

Lemma grows_trans (s1 s2 s3 : evaluator.State) :
  grows s1 s2 → grows s2 s3 → grows s1 s3.
Proof.
  intros [L1 (o1 & E1 & W1)] [L2 (o2 & E2 & W2)]. split; [lia|].
  exists (o1 +:+ o2). split; [|by apply whole_lines_app].
  by rewrite E2, E1, append_assoc.
Qed.

Lemma keeps_ret {A} (a : A) : keeps (ret a : evaluator.E A).
Proof. intros s r s' [= <- <-]. apply grows_refl. Qed.

Lemma keeps_bind {A B} (m : evaluator.E A) (k : A → evaluator.E B) :
  keeps m → (∀ a, keeps (k a)) → keeps (bind m k).
Proof.
  intros Hm Hk s r s' Hrun. unfold bind in Hrun.
  destruct (m s) as [a s1| |] eqn:E; try discriminate.
  eapply grows_trans; [by eapply Hm | by eapply Hk].
Qed.

Lemma keeps_panic {A} : keeps (panic : evaluator.E A).
Proof. by intros s r s' ?. Qed.

Lemma keeps_out_of_fuel {A} : keeps (out_of_fuel : evaluator.E A).
Proof. by intros s r s' ?. Qed.

(** A computation that changes neither the size of the heap nor the
    print buffer. *)
Lemma keeps_quiet {A} (m : evaluator.E A) :
  (∀ s r s', m s = Ok r s' →
     List.length (evaluator.heap s') = List.length (evaluator.heap s)
     ∧ evaluator.printBuff s' = evaluator.printBuff s) →
  keeps m.
Proof.
  intros Hm s r s' Hrun. destruct (Hm _ _ _ Hrun) as [Hl Hp]. split; [lia|].
  exists "". split; [by rewrite append_empty_r | by left].
Qed.

Lemma keeps_lift_opt {A} (o : option A) : keeps (lift_opt o : evaluator.E A).
Proof. destruct o; [apply keeps_ret | apply keeps_panic]. Qed.

Lemma keeps_alloc_env (e : object.Env) : keeps (evaluator.alloc_env e).
Proof.
  intros s r s' [= <- <-]. split; simpl.
  - rewrite length_app. lia.
  - exists "". split; [by rewrite append_empty_r | by left].
Qed.

Lemma keeps_env_Set (a : nat) (name : string) (v : object.Val) :
  keeps (evaluator.env_Set a name v).
Proof.
  apply keeps_quiet. intros s r s' Hrun.
  unfold evaluator.env_Set, object.Set_ in Hrun.
  destruct (evaluator.heap s !! a); simpl in Hrun; [|done].
  injection Hrun as <- <-. simpl. by rewrite length_insert.
Qed.

Lemma keeps_env_assign (a c : nat) : keeps (evaluator.env_assign a c).
Proof.
  apply keeps_quiet. intros s r s' Hrun. unfold evaluator.env_assign in Hrun.
  destruct (evaluator.heap s !! a); [|done].
  destruct (evaluator.heap s !! c); [|done].
  injection Hrun as <- <-. simpl. by rewrite length_insert.
Qed.

Lemma keeps_env_Get (n a : nat) (name : string) :
  keeps (evaluator.env_Get n a name).
Proof.
  apply keeps_quiet. intros s r s' Hrun.
  by rewrite (env_Get_state _ _ _ _ _ _ Hrun).
Qed.

Lemma keeps_fresh_id : keeps evaluator.fresh_id.
Proof. apply keeps_quiet. by intros s r s' [= <- <-]. Qed.

Lemma keeps_next_range : keeps evaluator.next_range.
Proof. apply keeps_quiet. by intros s r s' [= <- <-]. Qed.

Lemma keeps_write_line (out : string) :
  keeps (evaluator.write_buff (out +:+ gostr.newline)).
Proof.
  intros s r s' [= <- <-]. split; [done|]. simpl.
  exists (out +:+ gostr.newline). split; [done|]. right. by exists out.
Qed.

Lemma keeps_NewErr (eh : evaluator.ErrorHelper) (t : token.Token)
    (hint : bool) (msg : string) :
  keeps (evaluator.NewErr eh t hint msg).
Proof.
  unfold evaluator.NewErr. apply keeps_bind; [apply keeps_lift_opt|].
  intros line. apply keeps_ret.
Qed.

(** One step of a proof of [keeps]: the rule for the head of the
    computation. *)
Ltac keeps_step :=
  lazymatch goal with
  | |- keeps (bind _ _) => apply keeps_bind; [|intros ?]
  | |- keeps (ret _) => apply keeps_ret
  | |- keeps panic => apply keeps_panic
  | |- keeps out_of_fuel => apply keeps_out_of_fuel
  | |- keeps (lift_opt _) => apply keeps_lift_opt
  | |- keeps (evaluator.deref _) => apply keeps_lift_opt
  | |- keeps (evaluator.NewErr _ _ _ _) => apply keeps_NewErr
  | |- keeps (evaluator.NewBareErr _) => apply keeps_ret
  | |- keeps (evaluator.env_Get _ _ _) => apply keeps_env_Get
  | |- keeps evaluator.fresh_id => apply keeps_fresh_id
  | |- keeps evaluator.next_range => apply keeps_next_range
  | |- keeps (evaluator.write_buff (_ +:+ gostr.newline)) => apply keeps_write_line
  | |- keeps (evaluator.env_Set _ _ _) => apply keeps_env_Set
  | |- keeps (evaluator.env_assign _ _) => apply keeps_env_assign
  | |- keeps (evaluator.alloc_env _) => apply keeps_alloc_env
  | |- keeps (if ?c then _ else _) => destruct c
  | |- keeps (match ?x with _ => _ end) => destruct x
  | |- keeps (let '(_, _) := ?x in _) => destruct x
  end.

Ltac keeps_auto := repeat (keeps_step; simpl; try done).

Section KeepsHelpers.

Variable H : evaluator.Host.
Variable eh : evaluator.ErrorHelper.

Lemma keeps_evalPrefixExpr (op : string) (r : object.Val) :
  keeps (evaluator.evalPrefixExpr H op r).
Proof. unfold evaluator.evalPrefixExpr, evaluator.evalMinusPrefOp. keeps_auto. Qed.

Lemma keeps_evalInfixExpr (op : string) (l r : object.Val) :
  keeps (evaluator.evalInfixExpr H eh op l r).
Proof.
  unfold evaluator.evalInfixExpr, evaluator.evalNumInfixExpr,
    evaluator.evalStringInfixExpr.
  keeps_auto.
Qed.

Lemma keeps_evalIndexExpr (l i : object.Val) :
  keeps (evaluator.evalIndexExpr H eh l i).
Proof.
  unfold evaluator.evalIndexExpr, evaluator.evalArrIndexExpr,
    evaluator.evalHashIndexExpr.
  keeps_auto.
Qed.

Lemma keeps_inspect_all (args : list object.Val) :
  keeps (evaluator.inspect_all H args).
Proof. induction args as [|a args IH]; simpl; keeps_auto. Qed.

Lemma keeps_evalShowStmt (args : list object.Val) :
  keeps (evaluator.evalShowStmt H args).
Proof.
  unfold evaluator.evalShowStmt. apply keeps_bind; [apply keeps_inspect_all|].
  intros out. keeps_auto.
Qed.

End KeepsHelpers.

Section KeepsWalk.

Variable H : evaluator.Host.
Variable eh : evaluator.ErrorHelper.
Variable ev : ast.Node → nat → evaluator.E object.Val.
Variable fuel : nat.
Hypothesis keeps_ev : ∀ node env, keeps (ev node env).

Ltac kwalk_step :=
  first
    [ apply keeps_ev
    | apply keeps_evalPrefixExpr
    | apply keeps_evalInfixExpr
    | apply keeps_evalIndexExpr
    | apply keeps_evalShowStmt
    | keeps_step ].

Ltac kwalk := repeat (kwalk_step; simpl; try done).

Lemma keeps_evalProg_loop (stmts : list ast.Stmt) (env : nat) (res : object.Val) :
  keeps (evaluator.evalProg_loop ev stmts env res).
Proof.
  revert res. induction stmts as [|s stmts IH]; intros res; simpl.
  - apply keeps_ret.
  - apply keeps_bind; [apply keeps_ev|]. intros r.
    destruct r as [[]|]; try apply IH; apply keeps_ret.
Qed.

Lemma keeps_evalBlockStmt_loop (stmts : list ast.Stmt) (env : nat)
    (res : object.Val) :
  keeps (evaluator.evalBlockStmt_loop ev stmts env res).
Proof.
  revert res. induction stmts as [|s stmts IH]; intros res; simpl.
  - apply keeps_ret.
  - apply keeps_bind; [apply keeps_ev|]. intros r.
    destruct r as [o|]; [|apply IH].
    destruct (_ || _); [apply keeps_ret | apply IH].
Qed.

Lemma keeps_evalExprs_loop (es : list (option ast.Expr)) (env : nat)
    (res : list object.Val) :
  keeps (evaluator.evalExprs_loop ev es env res).
Proof.
  revert res. induction es as [|e es IH]; intros res; simpl.
  - apply keeps_ret.
  - apply keeps_bind; [apply keeps_ev|]. intros r.
    destruct (evaluator.isErr r); [apply keeps_ret | apply IH].
Qed.

Lemma keeps_while_loop (n : nat) (wcond : option ast.Expr) (body : ast.BlockStmt)
    (env : nat) (cond result : object.Val) :
  keeps (evaluator.while_loop ev n wcond body env cond result).
Proof.
  revert cond result. induction n as [|n IH]; intros cond result; simpl.
  - apply keeps_out_of_fuel.
  - destruct (evaluator.isTruthy cond); [|apply keeps_ret].
    apply keeps_bind; [apply keeps_ev|]. intros r.
    apply keeps_bind; [apply keeps_ev|]. intros c. apply IH.
Qed.

Lemma keeps_evalHashLit_loop (t : token.Token)
    (nodes : list (option ast.Expr * option ast.Expr)) (env : nat)
    (pairs : gmap object.HashKey (object.Val * object.Val)) :
  keeps (evaluator.evalHashLit_loop H eh ev t nodes env pairs).
Proof.
  revert pairs. induction nodes as [|[k v] nodes IH]; intros pairs; simpl.
  - apply keeps_ret.
  - apply keeps_bind; [apply keeps_ev|]. intros key.
    destruct (evaluator.isErr key); [apply keeps_ret|].
    destruct (key ≫= evaluator.HashKeyOf H); [|kwalk].
    apply keeps_bind; [apply keeps_ev|]. intros val.
    destruct (evaluator.isErr val); [apply keeps_ret | apply IH].
Qed.

Lemma keeps_bind_params (env : nat) (params : list ast.Identifier)
    (args : list object.Val) :
  keeps (evaluator.bind_params env params args).
Proof.
  revert args. induction params as [|p params IH]; intros [|a args]; simpl;
    try apply keeps_ret; try apply keeps_panic.
  apply keeps_bind; [apply keeps_env_Set|]. intros _. apply IH.
Qed.

Lemma keeps_applyFunc (fn : object.Val) (caller : token.Token)
    (args : list object.Val) :
  keeps (evaluator.applyFunc H eh ev fn caller args).
Proof.
  unfold evaluator.applyFunc.
  apply keeps_bind; [apply keeps_lift_opt|]. intros f.
  destruct f; try apply keeps_ret.
  - destruct (bool_decide _); [|apply keeps_NewErr].
    unfold evaluator.extendFuncEnv, evaluator.NewEnclosedEnv.
    apply keeps_bind.
    + apply keeps_bind; [apply keeps_alloc_env|]. intros a.
      apply keeps_bind; [apply keeps_bind_params|]. intros _. apply keeps_ret.
    + intros a. apply keeps_bind; [apply keeps_ev|]. intros r. apply keeps_ret.
  - apply keeps_quiet. intros st r st' Hrun.
    destruct (evaluator.builtin_Fn _ _ _ _). by injection Hrun as <- <-.
Qed.

Lemma keeps_run_parser (l : lexer.Lexer) : keeps (evaluator.run_parser H fuel l).
Proof.
  apply keeps_quiet. intros st r st' Hrun. unfold evaluator.run_parser in Hrun.
  destruct (parser.ParseProg _ _ _); try done. by injection Hrun as <- <-.
Qed.

Lemma keeps_evalIncludeStmt (t : token.Token) (filename : option ast.Expr)
    (env : nat) :
  keeps (evaluator.evalIncludeStmt H eh ev fuel t filename env).
Proof.
  unfold evaluator.evalIncludeStmt, evaluator.NewEnv.
  apply keeps_bind; [apply keeps_ev|]. intros raw.
  apply keeps_bind; [apply keeps_alloc_env|]. intros enx.
  apply keeps_bind; [apply keeps_lift_opt|]. intros o.
  assert (Herr : ∀ tok hint msg,
            keeps (do err <- evaluator.NewErr eh tok hint msg; ret (enx, err))).
  { intros. apply keeps_bind; [apply keeps_NewErr|]. intros. apply keeps_ret. }
  destruct o; try apply Herr.
  destruct (evaluator.stat_not_exist H _); [apply Herr|].
  destruct (evaluator.ReadFile H _); [|apply Herr].
  apply keeps_bind; [apply keeps_alloc_env|]. intros ex.
  apply keeps_bind; [apply keeps_run_parser|]. intros parsed.
  apply keeps_bind; [apply keeps_ev|]. intros _.
  destruct (bool_decide _); [apply Herr | apply keeps_ret].
Qed.

Lemma keeps_Eval_body (node : ast.Node) (env : nat) :
  keeps (evaluator.Eval_body H eh ev fuel node env).
Proof.
  destruct node as [|p|s|blk|e]; simpl.
  - apply keeps_ret.
  - apply keeps_evalProg_loop.
  - destruct s; simpl.
    + kwalk.
    + apply keeps_panic.
    + kwalk.
    + apply keeps_bind; [apply keeps_evalExprs_loop|]. intros.
      apply keeps_evalShowStmt.
    + apply keeps_bind; [apply keeps_evalIncludeStmt|]. intros r.
      unfold evaluator.NewEnclosedEnv. kwalk.
    + apply keeps_ev.
    + apply keeps_ret.
  - apply keeps_evalBlockStmt_loop.
  - destruct e; simpl.
    + unfold evaluator.evalId. kwalk.
    + apply keeps_ret.
    + apply keeps_ret.
    + apply keeps_ret.
    + kwalk.
    + kwalk.
    + unfold evaluator.evalIfExpr. kwalk.
    + unfold evaluator.evalWhileExpr.
      apply keeps_bind; [apply keeps_ev|]. intros c.
      destruct (evaluator.isErr c); [apply keeps_ret|].
      apply keeps_while_loop.
    + kwalk.
    + apply keeps_bind; [apply keeps_ev|]. intros f.
      destruct (evaluator.isErr f); [apply keeps_ret|].
      apply keeps_bind; [apply keeps_evalExprs_loop|]. intros args.
      destruct args as [|a [|]]; try apply keeps_applyFunc.
      destruct (evaluator.isErr a); [apply keeps_ret | apply keeps_applyFunc].
    + apply keeps_bind; [apply keeps_evalExprs_loop|]. intros elms.
      destruct elms as [|a [|]]; kwalk.
    + unfold evaluator.evalHashLit.
      apply keeps_bind; [apply keeps_next_range|]. intros n.
      apply keeps_bind; [apply keeps_evalHashLit_loop|]. intros r.
      destruct r; kwalk.
    + kwalk.
Qed.

End KeepsWalk.

Lemma keeps_Eval (H : evaluator.Host) (eh : evaluator.ErrorHelper) (n : nat)
    (node : ast.Node) (env : nat) :
  keeps (evaluator.Eval H eh n node env).
Proof.
  revert node env. induction n as [|n IH]; intros node env; simpl.
  - apply keeps_out_of_fuel.
  - apply keeps_Eval_body. intros node' env'. apply IH.
Qed.

(** X7: whatever is evaluated, the print buffer is only ever
    extended, and by whole lines: what has been printed stays as it is,
    and what is added is empty or ends in a newline.  The heap of
    environments never loses a frame. *)
Theorem evaluation_only_appends_lines
    (H : evaluator.Host) (eh : evaluator.ErrorHelper) (n : nat)
    (node : ast.Node) (env : nat) (s s' : evaluator.State) (v : object.Val) :
  evaluator.Eval H eh n node env s = Ok v s' →
  (∃ out, evaluator.printBuff s' = evaluator.printBuff s +:+ out
          ∧ (out = "" ∨ ∃ o, out = o +:+ gostr.newline))
  ∧ List.length (evaluator.heap s) ≤ List.length (evaluator.heap s').
Proof.
  intros Hrun. destruct (keeps_Eval H eh n node env s v s' Hrun) as [Hl Hp].
  by split.
Qed.

Lemma evaluation_only_appends_lines_witness :
  (∃ out,
     evaluator.printBuff (scenario.add_output ("5" +:+ gostr.newline) scenario.top)
     = evaluator.printBuff scenario.top +:+ out
     ∧ (out = "" ∨ ∃ o, out = o +:+ gostr.newline))
  ∧ List.length (evaluator.heap scenario.top)
    ≤ List.length
        (evaluator.heap (scenario.add_output ("5" +:+ gostr.newline) scenario.top)).
Proof.
  exact (evaluation_only_appends_lines scenario.h0
           {| evaluator.Source := sample.src_show_five |} 4
           (ast.NodeStmt sample.show_five) 0 scenario.top
           (scenario.add_output ("5" +:+ gostr.newline) scenario.top)
           evaluator.NULL eq_refl).
Defined.

(** ** Calls *)

(** X8: a call of a function leaves every environment that existed
    before the call as it was, whether the arity matches or not: the
    parameters are bound in a new frame, and the body writes to that
    frame and to frames allocated later. *)
Theorem call_leaves_existing_frames
    (H : evaluator.Host) (eh : evaluator.ErrorHelper) (n : nat)
    (id : nat) (params : list ast.Identifier) (body : ast.BlockStmt)
    (fenv : nat) (ftok caller : token.Token) (args : list object.Val)
    (s s' : evaluator.State) (v : object.Val) :
  evaluator.applyFunc H eh (λ node env st, evaluator.Eval H eh n node env st)
    (Some (object.Function id params body fenv ftok)) caller args s = Ok v s' →
  frames_kept s s'.
Proof.
  intros Hrun.
  assert (Hpres : pres (List.length (evaluator.heap s))
            (evaluator.applyFunc H eh
               (λ node env st, evaluator.Eval H eh n node env st)
               (Some (object.Function id params body fenv ftok)) caller args)
            (λ _, True)).
  { apply pres_applyFunc. intros node env Henv.
    exact (pres_Eval H eh _ n node env Henv). }
  destruct (Hpres s v s' (le_n _) Hrun) as [_ [Hkept _]]. exact Hkept.
Qed.

Lemma call_leaves_existing_frames_witness :
  frames_kept scenario.top sample.after_call.
Proof.
  apply (call_leaves_existing_frames scenario.h0
           {| evaluator.Source := scenario.src_arity |} 5
           0 [scenario.a_param] scenario.fero_a 0
           (token.mkToken token.FUNC "kaj" 1 16) scenario.call_token
           [scenario.five] scenario.top sample.after_call scenario.five).
  vm_compute. reflexivity.
Defined.

(** ** Hashes *)

Lemma evalHashLit_loop_filed (H : evaluator.Host) (eh : evaluator.ErrorHelper)
    (ev : ast.Node → nat → evaluator.E object.Val) (t : token.Token)
    (nodes : list (option ast.Expr * option ast.Expr)) (env : nat)
    (pairs : gmap object.HashKey (object.Val * object.Val))
    (s s' : evaluator.State)
    (r : object.Val + gmap object.HashKey (object.Val * object.Val)) :
  evaluator.evalHashLit_loop H eh ev t nodes env pairs s = Ok r s' →
  filed H pairs →
  match r with
  | inl v => evaluator.isErr v = true
  | inr pairs' => filed H pairs'
  end.
Proof.
  revert pairs s. induction nodes as [|[k v] nodes IH]; intros pairs s; simpl.
  - by intros [= <- <-].
  - unfold bind at 1. destruct (ev (ast.of_expr k) env s) as [key s1| |]; try done.
    destruct (evaluator.isErr key) eqn:Hkey; [by intros [= <- <-]|].
    destruct (key ≫= evaluator.HashKeyOf H) as [hashed|] eqn:Hhash.
    + unfold bind at 1.
      destruct (ev (ast.of_expr v) env s1) as [val s2| |]; try done.
      destruct (evaluator.isErr val) eqn:Hval; [by intros [= <- <-]|].
      intros Hrun Hfiled. apply (IH _ _ Hrun).
      intros hk key' val' Hlook.
      destruct (decide (hk = hashed)) as [->|Hne].
      * rewrite lookup_insert_eq in Hlook. by injection Hlook as <- <-.
      * rewrite lookup_insert_ne in Hlook by done. by apply Hfiled.
    + unfold bind, evaluator.deref, evaluator.NewErr, bind.
      destruct key as [ko|]; simpl; [|done].
      destruct (evaluator.MakeErrorLine _ _ _); simpl; [|done].
      by intros [= <- <-].
Qed.

(** X9: a hash that a hash literal evaluates to holds no error, as a
    key or as a value, and holds every entry under the hash key of its
    own key object; indexing the hash with the key object of an entry
    returns the value of that entry and leaves the state alone. *)
Theorem hash_literal_entries_are_found
    (H : evaluator.Host) (eh : evaluator.ErrorHelper) (n : nat)
    (t : token.Token) (nodes : list (option ast.Expr * option ast.Expr))
    (env id : nat) (pairs : gmap object.HashKey (object.Val * object.Val))
    (s s' : evaluator.State) :
  evaluator.Eval H eh (S n) (ast.NodeExpr (ast.HashLit t nodes)) env s
    = Ok (Some (object.Hash id pairs)) s' →
  filed H pairs
  ∧ ∀ hk key val st, pairs !! hk = Some (key, val) →
      evaluator.evalIndexExpr H eh (Some (object.Hash id pairs)) key st
      = Ok val st.
Proof.
  rewrite Eval_S. cbn [evaluator.Eval_body evaluator.Eval_expr].
  unfold evaluator.evalHashLit. unfold bind at 1. simpl. unfold bind at 1.
  destruct (evaluator.evalHashLit_loop _ _ _ _ _ _ _ _) as [r s1| |] eqn:Hloop;
    try done.
  assert (Hr := evalHashLit_loop_filed _ _ _ _ _ _ _ _ _ _ Hloop).
  destruct r as [v|pairs'].
  - intros [= -> _]. by specialize (Hr ltac:(done)).
  - unfold bind; simpl. intros [= _ <- _].
    assert (Hfiled : filed H pairs') by (by apply Hr).
    split; [done|]. intros hk key val st Hlook.
    destruct (Hfiled _ _ _ Hlook) as (Hk & _ & _).
    unfold evaluator.evalIndexExpr, evaluator.evalHashIndexExpr, bind. simpl.
    by rewrite Hk, Hlook.
Qed.

Lemma hash_literal_entries_are_found_witness :
  filed scenario.h0 sample.k_pairs
  ∧ ∀ hk key val st, sample.k_pairs !! hk = Some (key, val) →
      evaluator.evalIndexExpr scenario.h0 {| evaluator.Source := sample.src_hash |}
        (Some (object.Hash 0 sample.k_pairs)) key st
      = Ok val st.
Proof.
  apply (hash_literal_entries_are_found scenario.h0
           {| evaluator.Source := sample.src_hash |} 3
           (scenario.tk token.LBRACE "{" 1)
           [(Some sample.k_lit, Some (scenario.int_lit 1 "1" 7))]
           0 0 sample.k_pairs scenario.top sample.after_hash).
  vm_compute. reflexivity.
Defined.

Lemma NewErr_result (eh : evaluator.ErrorHelper) (t : token.Token) (hint : bool)
    (msg : string) (s s' : evaluator.State) (v : object.Val) :
  evaluator.NewErr eh t hint msg s = Ok v s' → s' = s ∧ evaluator.isErr v = true.
Proof.
  unfold evaluator.NewErr, bind.
  destruct (evaluator.MakeErrorLine eh t hint); simpl; [|done].
  by intros [= <- <-].
Qed.

(** X10: only an array indexed by a number and a hash are indexed:
    every other index expression that returns, returns an error.
    Indexing never changes the state. *)
Theorem only_arrays_and_hashes_are_indexed
    (H : evaluator.Host) (eh : evaluator.ErrorHelper)
    (l i : object.Val) (s s' : evaluator.State) (v : object.Val) :
  evaluator.evalIndexExpr H eh l i s = Ok v s' →
  s' = s
  ∧ ((∃ id elms t num isInt t',
        l = Some (object.Array id elms t) ∧ i = Some (object.Number num isInt t'))
     ∨ (∃ id pairs, l = Some (object.Hash id pairs))
     ∨ evaluator.isErr v = true).
Proof.
  unfold evaluator.evalIndexExpr, evaluator.deref, bind.
  intros Hrun.
  destruct l as [lo|]; simpl in Hrun; [|done].
  destruct lo;
    try (destruct (NewErr_result _ _ _ _ _ _ _ Hrun) as [-> ?]; split; [done|];
         by right; right).
  - destruct i as [io|]; simpl in Hrun; [|done].
    destruct io;
      try (destruct (NewErr_result _ _ _ _ _ _ _ Hrun) as [-> ?]; split; [done|];
           by right; right).
    assert (s' = s) as ->.
    { unfold evaluator.evalArrIndexExpr, evaluator.NewBareErr in Hrun.
      destruct (evaluator.GetAsInt H Value) as [idx []]; simpl in Hrun.
      - destruct (_ || _); [by injection Hrun|].
        destruct (Elms !! _); simpl in Hrun; [by injection Hrun | done].
      - by injection Hrun. }
    split; [done|]. left. by do 6 eexists.
  - assert (s' = s) as ->.
    { unfold evaluator.evalHashIndexExpr, evaluator.deref, bind in Hrun.
      destruct (i ≫= evaluator.HashKeyOf H).
      - destruct (Pairs !! _); by injection Hrun.
      - destruct i as [io|]; simpl in Hrun; [|done].
        by destruct (NewErr_result _ _ _ _ _ _ _ Hrun). }
    split; [done|]. right. left. by do 2 eexists.
Qed.

Lemma only_arrays_and_hashes_are_indexed_witness :
  scenario.top = scenario.top
  ∧ ((∃ id elms t num isInt t',
        Some (object.String "abc" token.virtual) = Some (object.Array id elms t)
        ∧ scenario.five = Some (object.Number num isInt t'))
     ∨ (∃ id pairs,
          Some (object.String "abc" token.virtual) = Some (object.Hash id pairs))
     ∨ evaluator.isErr sample.string_not_indexed = true).
Proof.
  exact (only_arrays_and_hashes_are_indexed scenario.h0
           {| evaluator.Source := "" |}
           (Some (object.String "abc" token.virtual)) scenario.five
           scenario.top scenario.top sample.string_not_indexed eq_refl).
Defined.

(** ** Equality *)

Lemma same_obj_sym (l r : object.Val) :
  evaluator.same_obj l r = evaluator.same_obj r l.
Proof.
  destruct l as [[]|], r as [[]|]; simpl; try done;
    apply bool_decide_ext; naive_solver.
Qed.

Lemma equality_by_identity (H : evaluator.Host) (eh : evaluator.ErrorHelper)
    (lo ro : object.Obj) (s : evaluator.State) :
  ¬ (object.Type_ lo = object.NUM_OBJ ∧ object.Type_ ro = object.NUM_OBJ) →
  ¬ (object.Type_ lo = object.STRING_OBJ ∧ object.Type_ ro = object.STRING_OBJ) →
  evaluator.evalInfixExpr H eh "==" (Some lo) (Some ro) s
    = Ok (evaluator.getBoolObj (evaluator.same_obj (Some lo) (Some ro))) s
  ∧ evaluator.evalInfixExpr H eh "!=" (Some lo) (Some ro) s
    = Ok (evaluator.getBoolObj (negb (evaluator.same_obj (Some lo) (Some ro)))) s.
Proof.
  intros Hnum Hstr. unfold evaluator.evalInfixExpr, bind. simpl.
  destruct lo; simpl; try done.
  - destruct ro; simpl; try done. exfalso. by apply Hnum.
  - destruct ro; simpl; try done. exfalso. by apply Hstr.
Qed.

Lemma equality_of_strings (H : evaluator.Host) (eh : evaluator.ErrorHelper)
    (a c : string) (ta tc : token.Token) (s : evaluator.State) :
  evaluator.evalInfixExpr H eh "==" (Some (object.String a ta))
      (Some (object.String c tc)) s
    = Ok (evaluator.getBoolObj (bool_decide (a = c))) s
  ∧ evaluator.evalInfixExpr H eh "!=" (Some (object.String a ta))
      (Some (object.String c tc)) s
    = Ok (evaluator.getBoolObj (negb (bool_decide (a = c)))) s.
Proof. done. Qed.

(** X18: on two operands that are not both numbers, [==] and [!=]
    always give a boolean and leave the state alone; [==] is symmetric,
    and [!=] is its negation.  Two strings are equal when their values
    are. *)
Theorem equality_is_symmetric
    (H : evaluator.Host) (eh : evaluator.ErrorHelper)
    (lo ro : object.Obj) (s : evaluator.State) :
  ¬ (object.Type_ lo = object.NUM_OBJ ∧ object.Type_ ro = object.NUM_OBJ) →
  ∃ b : bool,
    evaluator.evalInfixExpr H eh "==" (Some lo) (Some ro) s
      = Ok (evaluator.getBoolObj b) s
    ∧ evaluator.evalInfixExpr H eh "==" (Some ro) (Some lo) s
      = Ok (evaluator.getBoolObj b) s
    ∧ evaluator.evalInfixExpr H eh "!=" (Some lo) (Some ro) s
      = Ok (evaluator.getBoolObj (negb b)) s
    ∧ evaluator.evalInfixExpr H eh "!=" (Some ro) (Some lo) s
      = Ok (evaluator.getBoolObj (negb b)) s
    ∧ ∀ a ta c tc, lo = object.String a ta → ro = object.String c tc →
        b = bool_decide (a = c).
Proof.
  intros Hnum.
  destruct (decide (object.Type_ lo = object.STRING_OBJ
                    ∧ object.Type_ ro = object.STRING_OBJ)) as [[Hl Hr]|Hstr].
  - destruct lo as [| | |a ta| | | | | |]; try done.
    destruct ro as [| | |c tc| | | | | |]; try done.
    exists (bool_decide (a = c)).
    destruct (equality_of_strings H eh a c ta tc s) as [-> ->].
    destruct (equality_of_strings H eh c a tc ta s) as [-> ->].
    rewrite (bool_decide_ext (c = a) (a = c)) by naive_solver.
    repeat split. by intros ? ? ? ? [= -> _] [= -> _].
  - exists (evaluator.same_obj (Some lo) (Some ro)).
    destruct (equality_by_identity H eh lo ro s) as [-> ->]; [done | done |].
    destruct (equality_by_identity H eh ro lo s) as [-> ->]; [tauto | tauto |].
    rewrite (same_obj_sym (Some ro) (Some lo)).
    repeat split. intros a ta c tc -> ->. exfalso. by apply Hstr.
Qed.

Lemma equality_is_symmetric_witness :
  ∃ b : bool,
    evaluator.evalInfixExpr scenario.h0 {| evaluator.Source := "" |} "=="
      (Some (object.String "a" token.virtual)) sample.k_value scenario.top
      = Ok (evaluator.getBoolObj b) scenario.top
    ∧ evaluator.evalInfixExpr scenario.h0 {| evaluator.Source := "" |} "=="
        sample.k_value (Some (object.String "a" token.virtual)) scenario.top
      = Ok (evaluator.getBoolObj b) scenario.top
    ∧ evaluator.evalInfixExpr scenario.h0 {| evaluator.Source := "" |} "!="
        (Some (object.String "a" token.virtual)) sample.k_value scenario.top
      = Ok (evaluator.getBoolObj (negb b)) scenario.top
    ∧ evaluator.evalInfixExpr scenario.h0 {| evaluator.Source := "" |} "!="
        sample.k_value (Some (object.String "a" token.virtual)) scenario.top
      = Ok (evaluator.getBoolObj (negb b)) scenario.top
    ∧ ∀ a ta c tc,
        object.String "a" token.virtual = object.String a ta →
        object.String "k" (scenario.tk token.STRING "k" 3) = object.String c tc →
        b = bool_decide (a = c).
Proof.
  apply (equality_is_symmetric scenario.h0 {| evaluator.Source := "" |}
           (object.String "a" token.virtual)
           (object.String "k" (scenario.tk token.STRING "k" 3)) scenario.top).
  intros [Hl _]. discriminate Hl.
Defined.

(** ** What a show statement prints *)

Lemma inspect_all_objects (H : evaluator.Host) (os : list object.Obj)
    (s : evaluator.State) :
  evaluator.inspect_all H (map Some os) s = Ok (map (evaluator.Inspect H) os) s.
Proof.
  induction os as [|o os IH]; simpl; [done|].
  unfold bind. simpl. by rewrite IH.
Qed.

Lemma inspect_all_nil (H : evaluator.Host) (os : list object.Obj)
    (rest : list object.Val) (s : evaluator.State) :
  evaluator.inspect_all H (map Some os ++ None :: rest) s = Panic.
Proof.
  induction os as [|o os IH]; simpl; [done|].
  unfold bind. simpl. by rewrite IH.
Qed.

(** X20: [evalShowStmt] writes one line to the print buffer: the
    renderings of its arguments in order, with nothing between them,
    and a newline; without arguments it writes the empty line.  The
    result is [NULL].  An argument that is the absent result nil makes it
    panic, and nothing is written. *)
Theorem show_writes_one_line
    (H : evaluator.Host) (os : list object.Obj) (rest : list object.Val)
    (s : evaluator.State) :
  evaluator.evalShowStmt H (map Some os) s
  = Ok evaluator.NULL
      (scenario.add_output
         (gostr.join (map (evaluator.Inspect H) os) +:+ gostr.newline) s)
  ∧ evaluator.evalShowStmt H [] s
    = Ok evaluator.NULL (scenario.add_output gostr.newline s)
  ∧ evaluator.evalShowStmt H (map Some os ++ None :: rest) s = Panic.
Proof.
  unfold evaluator.evalShowStmt, bind. rewrite inspect_all_objects, inspect_all_nil.
  done.
Qed.

(** ** The two formatters of an error line *)

(** X12: on a token and the line of the source that the token is on,
    the parser's formatter returns what the evaluator's formatter with a
    hint returns whenever the column of the token is at least 1; for a
    column below 1 the parser's formatter panics, where the evaluator's
    one puts the left marker at the start of the line. *)
Theorem formatters_agree_from_column_one
    (e : evaluator.ErrorHelper) (t : token.Token) (line : string) :
  evaluator.GetLine e t = Some line →
  parser.MakeErrorLine t line
  = if bool_decide (1 ≤ token.Column t)%Z
    then evaluator.MakeErrorLine e t true else None.
Proof.
  intros Hline.
  assert (Hl : (0 < token.LineNo t)%Z).
  { unfold evaluator.GetLine in Hline. case_bool_decide; [lia | done]. }
  rewrite parser_MakeErrorLine_markers.
  case_bool_decide as Hc.
  - rewrite (evaluator_MakeErrorLine_markers e t line Hl Hline).
    by replace (Z.max (token.Column t - 1) 0) with (token.Column t - 1)%Z by lia.
  - unfold insert_markers.
    destruct (gostr.slice_to line _); [|done]; simpl.
    destruct (gostr.slice_from line _); [|done]; simpl.
    rewrite slice_to_None; [done | lia].
Qed.

Lemma formatters_agree_from_column_one_witness :
  parser.MakeErrorLine sample.cd_token "ab cd"
  = if bool_decide (1 ≤ token.Column sample.cd_token)%Z
    then evaluator.MakeErrorLine {| evaluator.Source := "ab cd" |}
           sample.cd_token true
    else None.
Proof.
  exact (formatters_agree_from_column_one {| evaluator.Source := "ab cd" |}
           sample.cd_token "ab cd" eq_refl).
Defined.

(** ** The parser moves forward through the tokens *)

Lemma advances_refl (p : parser.Parser) : advances p p.
Proof. split; [by exists 0 | done]. Qed.

Lemma advances_trans (p1 p2 p3 : parser.Parser) :
  advances p1 p2 → advances p2 p3 → advances p1 p3.
Proof.
  intros [(k1 & D1 & S1) (E1 & G1 & P1)] [(k2 & D2 & S2) (E2 & G2 & P2)].
  split; [|repeat split; [congruence | congruence | by etrans]].
  exists (k1 + k2). split.
  - by rewrite D2, D1, drop_drop.
  - intros i. rewrite S2, S1. f_equal. lia.
Qed.

Lemma forward_ret {A} (a : A) : forward (ret a : parser.P A).
Proof. intros p r p' [= <- <-]. apply advances_refl. Qed.

Lemma forward_bind {A B} (m : parser.P A) (k : A → parser.P B) :
  forward m → (∀ a, forward (k a)) → forward (bind m k).
Proof.
  intros Hm Hk p r p' Hrun. unfold bind in Hrun.
  destruct (m p) as [a p1| |] eqn:E; try discriminate.
  eapply advances_trans; [by eapply Hm | by eapply Hk].
Qed.

Lemma forward_panic {A} : forward (panic : parser.P A).
Proof. by intros p r p' ?. Qed.

Lemma forward_out_of_fuel {A} : forward (out_of_fuel : parser.P A).
Proof. by intros p r p' ?. Qed.

Lemma forward_lift_opt {A} (o : option A) : forward (lift_opt o : parser.P A).
Proof. destruct o; [apply forward_ret | apply forward_panic]. Qed.

(** A step that only reads the state. *)
Lemma forward_read {A} (m : parser.P A) :
  (∀ p r p', m p = Ok r p' → p' = p) → forward m.
Proof. intros Hm p r p' Hrun. rewrite (Hm _ _ _ Hrun). apply advances_refl. Qed.

Lemma forward_isCurToken (t : token.TokenType) : forward (parser.isCurToken t).
Proof. apply forward_read. by intros p r p' [= <- <-]. Qed.

Lemma forward_isPeekToken (t : token.TokenType) : forward (parser.isPeekToken t).
Proof. apply forward_read. by intros p r p' [= <- <-]. Qed.

Lemma forward_cur : forward parser.cur.
Proof. apply forward_read. by intros p r p' [= <- <-]. Qed.

Lemma forward_peekPrec : forward parser.peekPrec.
Proof. apply forward_read. by intros p r p' [= <- <-]. Qed.

Lemma forward_curPrec : forward parser.curPrec.
Proof. apply forward_read. by intros p r p' [= <- <-]. Qed.

Lemma forward_error_line (t : token.Token) : forward (parser.error_line t).
Proof.
  apply forward_read. intros p r p'. unfold parser.error_line.
  destruct (_ ≫= _); [|done]. by intros [= <- <-].
Qed.

Lemma forward_nextToken : forward parser.nextToken.
Proof.
  intros p r p'. unfold parser.nextToken, lexer.NextToken.
  destruct p as [[pending eof GetLine] c pk es]; simpl.
  destruct pending as [|t rest]; intros [= <- <-].
  - split; [|done]. exists 1. split; [done|].
    intros [|[|i]]; reflexivity.
  - split; [|done]. exists 1. split; [done|]. intros i. reflexivity.
Qed.

Lemma forward_add_err (e : errs.ParserError) : forward (parser.add_err e).
Proof.
  intros p r p' [= <- <-]. split; [by exists 0|]. simpl.
  repeat split. by apply prefix_app_r.
Qed.

(** One step of a proof of [forward]: the rule for the head of the
    computation. *)
Ltac forward_step :=
  lazymatch goal with
  | |- forward (bind _ _) => apply forward_bind; [|intros ?]
  | |- forward (ret _) => apply forward_ret
  | |- forward panic => apply forward_panic
  | |- forward out_of_fuel => apply forward_out_of_fuel
  | |- forward (lift_opt _) => apply forward_lift_opt
  | |- forward (parser.isCurToken _) => apply forward_isCurToken
  | |- forward (parser.isPeekToken _) => apply forward_isPeekToken
  | |- forward parser.cur => apply forward_cur
  | |- forward parser.peekPrec => apply forward_peekPrec
  | |- forward parser.curPrec => apply forward_curPrec
  | |- forward (parser.error_line _) => apply forward_error_line
  | |- forward parser.nextToken => apply forward_nextToken
  | |- forward (parser.add_err _) => apply forward_add_err
  | |- forward (if ?c then _ else _) => destruct c
  | |- forward (match ?x with _ => _ end) => destruct x
  end.

Ltac forward_auto := repeat (forward_step; simpl; try done).

Section ForwardHelpers.

Variable H : parser.Host.

Lemma forward_peekErr (t : token.TokenType) : forward (parser.peekErr H t).
Proof.
  unfold parser.peekErr.
  apply forward_bind; [apply forward_cur|]. intros c.
  apply forward_bind; [apply forward_error_line|]. intros line.
  intros p r p' Hrun. by eapply forward_add_err.
Qed.

Lemma forward_peek (t : token.TokenType) : forward (parser.peek H t).
Proof.
  unfold parser.peek. apply forward_bind; [apply forward_isPeekToken|].
  intros [].
  - forward_auto.
  - apply forward_bind; [apply forward_peekErr|]. intros _. apply forward_ret.
Qed.

Lemma forward_noPrefixFunctionErr (t : token.Token) :
  forward (parser.noPrefixFunctionErr t).
Proof. unfold parser.noPrefixFunctionErr. forward_auto. Qed.

Lemma forward_parseNumLit : forward (parser.parseNumLit H).
Proof. unfold parser.parseNumLit. forward_auto. Qed.

Lemma forward_parseFuncParams_loop (n : nat) (ids : list ast.Identifier) :
  forward (parser.parseFuncParams_loop n ids).
Proof.
  revert ids. induction n as [|n IH]; intros ids; simpl.
  - apply forward_out_of_fuel.
  - apply forward_bind; [apply forward_isPeekToken|]. intros [].
    + do 3 (apply forward_bind; [forward_step|]; intros ?). apply IH.
    + apply forward_ret.
Qed.

Lemma forward_parseFuncParams (n : nat) : forward (parser.parseFuncParams H n).
Proof.
  unfold parser.parseFuncParams.
  apply forward_bind; [apply forward_isPeekToken|]. intros [].
  - forward_auto.
  - do 2 (apply forward_bind; [forward_step|]; intros ?).
    apply forward_bind; [apply forward_parseFuncParams_loop|]. intros ids.
    apply forward_bind; [apply forward_peek|]. intros []; apply forward_ret.
Qed.

Lemma forward_skip_semicolons (n : nat) : forward (parser.skip_semicolons n).
Proof.
  induction n as [|n IH]; simpl.
  - apply forward_out_of_fuel.
  - apply forward_bind; [apply forward_isPeekToken|]. intros [].
    + apply forward_bind; [apply forward_nextToken|]. intros _. apply IH.
    + apply forward_ret.
Qed.

Lemma forward_optional_semicolon : forward parser.optional_semicolon.
Proof. unfold parser.optional_semicolon. forward_auto. Qed.

End ForwardHelpers.

Section ForwardProductions.

Variable H : parser.Host.
Variable parseExpr : Z → parser.P (option ast.Expr).
Variable parseStmt : parser.P ast.Stmt.
Variable fuel : nat.
Hypothesis forward_parseExpr : ∀ prec, forward (parseExpr prec).
Hypothesis forward_parseStmt : forward parseStmt.

Ltac prod_step :=
  first
    [ apply forward_parseExpr
    | apply forward_parseStmt
    | apply forward_peek
    | apply forward_optional_semicolon
    | apply forward_skip_semicolons
    | apply forward_parseFuncParams
    | apply forward_parseNumLit
    | apply forward_noPrefixFunctionErr
    | forward_step ].

Ltac prod := repeat (prod_step; simpl; try done).

Lemma forward_parseExprList_loop (n : nat) (exprs : list (option ast.Expr)) :
  forward (parser.parseExprList_loop parseExpr n exprs).
Proof.
  revert exprs. induction n as [|n IH]; intros exprs; simpl.
  - apply forward_out_of_fuel.
  - apply forward_bind; [apply forward_isPeekToken|]. intros [].
    + do 3 (apply forward_bind; [prod_step|]; intros ?). apply IH.
    + apply forward_ret.
Qed.

Lemma forward_parseExprList (endtok : token.TokenType) :
  forward (parser.parseExprList H parseExpr fuel endtok).
Proof.
  unfold parser.parseExprList.
  apply forward_bind; [apply forward_isPeekToken|]. intros [].
  - prod.
  - do 2 (apply forward_bind; [prod_step|]; intros ?).
    apply forward_bind; [apply forward_parseExprList_loop|]. intros exprs.
    prod.
Qed.

Lemma forward_parseHashLit_loop (n : nat)
    (pairs : list (option ast.Expr * option ast.Expr)) :
  forward (parser.parseHashLit_loop H parseExpr n pairs).
Proof.
  revert pairs. induction n as [|n IH]; intros pairs; simpl.
  - apply forward_out_of_fuel.
  - apply forward_bind; [apply forward_isPeekToken|]. intros [].
    + apply forward_ret.
    + apply forward_bind; [prod_step|]; intros _.
      apply forward_bind; [prod_step|]; intros k.
      apply forward_bind; [prod_step|]; intros ok.
      destruct (negb ok); [apply forward_ret|].
      apply forward_bind; [prod_step|]; intros _.
      apply forward_bind; [prod_step|]; intros val.
      apply forward_bind; [prod_step|]; intros close.
      destruct close; [apply IH|].
      apply forward_bind; [apply forward_peek|]. intros [];
        [apply IH | apply forward_ret].
Qed.

Lemma forward_block_loop (n : nat) (eT : token.TokenType) (stmts : list ast.Stmt) :
  forward (parser.block_loop parseStmt n eT stmts).
Proof.
  revert stmts. induction n as [|n IH]; intros stmts; simpl.
  - apply forward_out_of_fuel.
  - do 2 (apply forward_bind; [prod_step|]; intros ?).
    destruct (_ && _); [|apply forward_ret].
    do 2 (apply forward_bind; [prod_step|]; intros ?). apply IH.
Qed.

Lemma forward_parseBlockStmt (eT : token.TokenType) :
  forward (parser.parseBlockStmt parseStmt fuel eT).
Proof.
  unfold parser.parseBlockStmt.
  do 2 (apply forward_bind; [prod_step|]; intros ?).
  apply forward_bind; [apply forward_block_loop|]. intros. apply forward_ret.
Qed.

Lemma forward_prefixParseFns (t : token.TokenType) (f : parser.P (option ast.Expr)) :
  parser.prefixParseFns H parseExpr parseStmt fuel t = Some f → forward f.
Proof.
  destruct t; intros [= <-].
  - unfold parser.parseIdent. prod.
  - apply forward_parseNumLit.
  - unfold parser.parseStringLit. prod.
  - unfold parser.parseGroupedExpr. prod.
  - unfold parser.parseHashLit.
    apply forward_bind; [prod_step|]. intros c.
    apply forward_bind; [apply forward_parseHashLit_loop|]. intros r. prod.
  - unfold parser.parseArrLit.
    apply forward_bind; [prod_step|]. intros c.
    apply forward_bind; [apply forward_parseExprList|]. intros. prod.
  - unfold parser.parsePrefixExpr. prod.
  - unfold parser.parsePrefixExpr. prod.
  - unfold parser.parseFunc.
    apply forward_bind; [prod_step|]. intros ok.
    destruct (negb ok); [apply forward_ret|].
    do 2 (apply forward_bind; [prod_step|]; intros ?).
    destruct (negb _); [apply forward_ret|].
    apply forward_bind; [prod_step|]. intros params.
    apply forward_bind; [apply forward_parseBlockStmt|]. intros. prod.
  - unfold parser.parseIfExpr.
    do 2 (apply forward_bind; [prod_step|]; intros ?).
    destruct (negb _); [apply forward_ret|].
    do 3 (apply forward_bind; [prod_step|]; intros ?).
    destruct (negb _); [apply forward_ret|].
    apply forward_bind; [prod_step|]. intros ?.
    destruct (negb _); [apply forward_ret|].
    do 2 (apply forward_bind; [prod_step|]; intros ?).
    apply forward_bind; [apply forward_block_loop|]. intros tb. prod.
  - unfold parser.parseWhileExpr.
    do 2 (apply forward_bind; [prod_step|]; intros ?).
    destruct (negb _); [apply forward_ret|].
    do 3 (apply forward_bind; [prod_step|]; intros ?).
    destruct (negb _); [apply forward_ret|].
    apply forward_bind; [apply forward_parseBlockStmt|]. intros. prod.
  - unfold parser.parseBool. prod.
  - unfold parser.parseBool. prod.
Qed.

Lemma forward_infixParseFns (t : token.TokenType)
    (f : option ast.Expr → parser.P (option ast.Expr)) (l : option ast.Expr) :
  parser.infixParseFns H parseExpr fuel t = Some f → forward (f l).
Proof.
  assert (Hinfix : forward (parser.parseInfixExpr parseExpr l)).
  { unfold parser.parseInfixExpr. prod. }
  destruct t; intros [= <-]; try exact Hinfix.
  - unfold parser.parseCallExpr.
    apply forward_bind; [prod_step|]. intros c.
    apply forward_bind; [apply forward_parseExprList|]. intros. prod.
  - unfold parser.parseIndexExpr. prod.
Qed.

Lemma forward_parseExpr_loop (n : nat) (prec : Z) (leftExpr : option ast.Expr) :
  forward (parser.parseExpr_loop H parseExpr fuel n prec leftExpr).
Proof.
  revert leftExpr. induction n as [|n IH]; intros leftExpr; simpl.
  - apply forward_out_of_fuel.
  - do 2 (apply forward_bind; [prod_step|]; intros ?).
    destruct (_ && _); [|apply forward_ret].
    intros p r p' Hrun.
    destruct (parser.infixParseFns H parseExpr fuel (token.Type_ (parser.peekTok p)))
      as [infix|] eqn:Hin.
    + revert Hrun. apply forward_bind; [apply forward_nextToken|]. intros _.
      apply forward_bind; [by eapply forward_infixParseFns|]. intros l. apply IH.
    + injection Hrun as <- <-. apply advances_refl.
Qed.

Lemma forward_parseExpr_body (prec : Z) :
  forward (parser.parseExpr_body H parseExpr parseStmt fuel prec).
Proof.
  unfold parser.parseExpr_body. apply forward_bind; [apply forward_cur|].
  intros c.
  destruct (parser.prefixParseFns H parseExpr parseStmt fuel (token.Type_ c))
    as [prefix|] eqn:Hpre.
  - apply forward_bind; [by eapply forward_prefixParseFns|]. intros l.
    apply forward_parseExpr_loop.
  - prod.
Qed.

Lemma forward_parseStmt_body :
  forward (parser.parseStmt_body H parseExpr fuel).
Proof.
  unfold parser.parseStmt_body. apply forward_bind; [apply forward_cur|].
  intros c.
  assert (Hexpr : forward (parser.parseExprStmt parseExpr)).
  { unfold parser.parseExprStmt. prod. }
  destruct (token.Type_ c); try exact Hexpr.
  - unfold parser.parseLetStmt. prod.
  - unfold parser.parseReturnStmt. prod.
  - unfold parser.parseShowStmt.
    do 2 (apply forward_bind; [prod_step|]; intros ?).
    apply forward_bind; [apply forward_parseExprList|]. intros. prod.
  - unfold parser.parseIncludeStmt. prod.
  - unfold parser.comment_stmt. prod.
Qed.

End ForwardProductions.

Lemma forward_parseExpr_parseStmt (H : parser.Host) (fuel : nat) :
  (∀ prec, forward (parser.parseExpr H fuel prec))
  ∧ forward (parser.parseStmt H fuel).
Proof.
  induction fuel as [|n [IHe IHs]]; simpl.
  - split; [intros prec|]; apply forward_out_of_fuel.
  - split.
    + intros prec. by apply forward_parseExpr_body.
    + by apply forward_parseStmt_body.
Qed.

Lemma ParseProg_loop_forward (H : parser.Host) (n fuel : nat)
    (stmts res : list ast.Stmt) (p p' : parser.Parser) :
  parser.ParseProg_loop H n fuel stmts p = Ok res p' →
  advances p p' ∧ token.Type_ (parser.curTok p') = token.EOF.
Proof.
  revert stmts p. induction n as [|n IH]; intros stmts p; simpl; [done|].
  unfold bind at 1. unfold parser.isCurToken at 1.
  case_bool_decide as Hcur.
  - by intros [= <- <-]; split; [apply advances_refl|].
  - unfold bind at 1.
    destruct (parser.parseStmt H fuel p) as [stmt p1| |] eqn:Hs; try done.
    unfold bind at 1.
    destruct (parser.nextToken p1) as [[] p2| |] eqn:Hn; try done.
    intros Hrun. destruct (IH _ _ Hrun) as [Hadv Heof]. split; [|done].
    eapply advances_trans; [|eapply advances_trans; [|exact Hadv]].
    + by eapply (proj2 (forward_parseExpr_parseStmt H fuel)).
    + by eapply forward_nextToken.
Qed.

(** X13: a parse that returns has moved forward through the tokens
    up to an end-of-file token: the tokens that the lexer still holds are
    a tail of those it held, the current and the next token are two
    consecutive tokens of the input followed by end-of-file tokens, the
    lexer's line table is the same, and the errors recorded before are
    all kept, in order, in front of the new ones. *)
Theorem ParseProg_moves_forward_to_EOF
    (H : parser.Host) (fuel : nat) (p p' : parser.Parser) (prog : ast.Program) :
  parser.ParseProg H fuel p = Ok prog p' →
  advances p p' ∧ token.Type_ (parser.curTok p') = token.EOF.
Proof.
  unfold parser.ParseProg, bind.
  destruct (parser.ParseProg_loop H fuel fuel [] p) as [stmts p1| |] eqn:Hloop;
    try done.
  intros [= _ <-]. by eapply ParseProg_loop_forward.
Qed.

Lemma ParseProg_moves_forward_to_EOF_witness :
  advances (sample.parser_on scenario.src_let)
    (sample.parser_at_end scenario.src_let 12 [])
  ∧ token.Type_ (parser.curTok (sample.parser_at_end scenario.src_let 12 []))
    = token.EOF.
Proof.
  apply (ParseProg_moves_forward_to_EOF demo.parser_host 8
           (sample.parser_on scenario.src_let)
           (sample.parser_at_end scenario.src_let 12 [])
           (ast.mkProgram [scenario.let_stmt])).
  vm_compute. reflexivity.
Defined.

(** ** An if without an else *)

Lemma parseIfExpr_shape
    (H : parser.Host) (parseExpr : Z → parser.P (option ast.Expr))
    (parseStmt : parser.P ast.Stmt) (fuel : nat)
    (p p' : parser.Parser) (e : ast.Expr) :
  parser.parseIfExpr H parseExpr parseStmt fuel p = Ok (Some e) p' →
  ∃ tok cond tb c eb, e = ast.IfExpr tok cond tb (Some (ast.Block c eb)).
Proof.
  unfold parser.parseIfExpr, bind. intros Hparse.
  repeat match goal with
         | E : match ?x with _ => _ end = Ok _ _ |- _ =>
             destruct x eqn:?; try discriminate
         | E : (if ?b then _ else _) _ = Ok _ _ |- _ =>
             destruct b eqn:?; try discriminate
         | E : ret _ _ = Ok _ _ |- _ => injection E as <- <-
         end.
  all: by do 5 eexists.
Qed.

(** X14: the else block of a parsed if expression is never nil, so
    the evaluator never takes its branch for a missing else: when the
    condition is neither an error nor truthy, the value of the if
    expression is the value of the else block.  When that block is empty
    (no statement stands behind [nahole], or the input ended in the true
    block) this value is the absent result nil and not [NULL]. *)
Theorem parsed_if_without_else_yields_nil
    (H : parser.Host) (parseExpr : Z → parser.P (option ast.Expr))
    (parseStmt : parser.P ast.Stmt) (fuel : nat)
    (p p' : parser.Parser) (e : ast.Expr) :
  parser.parseIfExpr H parseExpr parseStmt fuel p = Ok (Some e) p' →
  ∃ tok cond tb c eb,
    e = ast.IfExpr tok cond tb (Some (ast.Block c eb))
    ∧ ∀ (Hv : evaluator.Host) (eh : evaluator.ErrorHelper) (n env : nat)
        (s s1 : evaluator.State) (v : object.Val),
        evaluator.Eval Hv eh n (ast.of_expr cond) env s = Ok v s1 →
        evaluator.isErr v = false →
        evaluator.isTruthy v = false →
        evaluator.Eval Hv eh (S n) (ast.NodeExpr e) env s
        = evaluator.Eval Hv eh n (ast.NodeBlock (ast.Block c eb)) env s1
        ∧ (eb = [] → evaluator.Eval Hv eh (S n) (ast.NodeExpr e) env s = Ok None s1).
Proof.
  intros Hparse.
  destruct (parseIfExpr_shape _ _ _ _ _ _ _ Hparse) as (tok & cond & tb & c & eb & ->).
  exists tok, cond, tb, c, eb. split; [done|].
  intros Hv eh n env s s1 v Hcond Herr Htruthy.
  assert (Hstep :
    evaluator.Eval Hv eh (S n)
      (ast.NodeExpr (ast.IfExpr tok cond tb (Some (ast.Block c eb)))) env s
    = evaluator.Eval Hv eh n (ast.NodeBlock (ast.Block c eb)) env s1).
  { rewrite Eval_S. cbn [evaluator.Eval_body evaluator.Eval_expr].
    unfold evaluator.evalIfExpr, bind. by rewrite Hcond, Herr, Htruthy. }
  split; [done|]. intros ->. rewrite Hstep.
  destruct n as [|n]; [done|]. reflexivity.
Qed.

Lemma parsed_if_without_else_yields_nil_witness :
  ∃ tok cond tb c eb,
    sample.if_empty_else = ast.IfExpr tok cond tb (Some (ast.Block c eb))
    ∧ ∀ (Hv : evaluator.Host) (eh : evaluator.ErrorHelper) (n env : nat)
        (s s1 : evaluator.State) (v : object.Val),
        evaluator.Eval Hv eh n (ast.of_expr cond) env s = Ok v s1 →
        evaluator.isErr v = false →
        evaluator.isTruthy v = false →
        evaluator.Eval Hv eh (S n) (ast.NodeExpr sample.if_empty_else) env s
        = evaluator.Eval Hv eh n (ast.NodeBlock (ast.Block c eb)) env s1
        ∧ (eb = [] →
           evaluator.Eval Hv eh (S n) (ast.NodeExpr sample.if_empty_else) env s
           = Ok None s1).
Proof.
  apply (parsed_if_without_else_yields_nil demo.parser_host
           (λ prec p, parser.parseExpr demo.parser_host 10 prec p)
           (λ p, parser.parseStmt demo.parser_host 10 p) 10
           (sample.parser_on sample.src_if_empty_else)
           (parser_at (scenario.tk token.END "sesh" 31)
              (token.mkToken token.EOF "" 1 35) []
              (demo.NewLexer sample.src_if_empty_else) [])
           sample.if_empty_else).
  vm_compute. reflexivity.
Defined.

(** ** Tokens that start no expression *)

(** X15: on a current token for which no prefix function is
    registered, [parseExpr] returns nil, records one error (the one about
    a missing [ekti] when the token is [kaj]) and consumes no token; it
    panics when the error line of the token cannot be formatted. *)
Theorem parseExpr_on_a_token_that_starts_no_expression
    (H : parser.Host) (n : nat) (prec : Z) (p : parser.Parser) :
  starts_expr (token.Type_ (parser.curTok p)) = false →
  parser.parseExpr H (S n) prec p
  = match lexer.GetLine (parser.lx p) (token.LineNo (parser.curTok p))
          ≫= parser.MakeErrorLine (parser.curTok p) with
    | Some line =>
        Ok None (with_error (no_prefix_error (parser.curTok p) (parser.curTok p) line) p)
    | None => Panic
    end.
Proof.
  intros Hstart. cbn [parser.parseExpr]. unfold parser.parseExpr_body, bind.
  cbn [parser.cur].
  assert (Hnone : parser.prefixParseFns H
            (λ prec p, parser.parseExpr H n prec p) (λ p, parser.parseStmt H n p) n
            (token.Type_ (parser.curTok p)) = None).
  { by destruct (token.Type_ (parser.curTok p)). }
  rewrite Hnone. unfold parser.noPrefixFunctionErr, parser.error_line, bind.
  destruct (_ ≫= _) as [line|]; [|done].
  unfold no_prefix_error. by case_bool_decide.
Qed.

Lemma parseExpr_on_a_token_that_starts_no_expression_witness :
  parser.parseExpr demo.parser_host 1 parser.LOWEST (sample.parser_on ";")
  = match lexer.GetLine (parser.lx (sample.parser_on ";"))
            (token.LineNo (parser.curTok (sample.parser_on ";")))
          ≫= parser.MakeErrorLine (parser.curTok (sample.parser_on ";")) with
    | Some line =>
        Ok None
          (with_error
             (no_prefix_error (parser.curTok (sample.parser_on ";"))
                (parser.curTok (sample.parser_on ";")) line)
             (sample.parser_on ";"))
    | None => Panic
    end.
Proof.
  exact (parseExpr_on_a_token_that_starts_no_expression demo.parser_host 0
           parser.LOWEST (sample.parser_on ";") eq_refl).
Defined.

(** ** The empty program *)

(** X16: a source text that the lexer finds no token in, only the end
    of the file, is parsed into the empty program and runs to the absent
    result nil: nothing is printed, and the top-level environment is the
    only one allocated. *)
Theorem empty_token_stream_runs_to_nothing
    (H : evaluator.Host) (n : nat) (src : string) :
  lexer.pending (evaluator.NewLexer H src) = [] →
  token.Type_ (lexer.eof (evaluator.NewLexer H src)) = token.EOF →
  parser.ParseProg (evaluator.phost H) (S n) (parser.NewParser (evaluator.NewLexer H src))
  = Ok (ast.mkProgram []) (parser.NewParser (evaluator.NewLexer H src))
  ∧ parser.GetErrors (parser.NewParser (evaluator.NewLexer H src)) = []
  ∧ evaluator.run H (S n) src = Ok None started.
Proof.
  intros Hpend Heof.
  assert (Hnew : parser.NewParser (evaluator.NewLexer H src)
                 = {| parser.lx := evaluator.NewLexer H src;
                      parser.curTok := lexer.eof (evaluator.NewLexer H src);
                      parser.peekTok := lexer.eof (evaluator.NewLexer H src);
                      parser.errs := [] |}).
  { unfold parser.NewParser, bind, parser.nextToken, lexer.NextToken. simpl.
    rewrite Hpend. simpl. by rewrite Hpend. }
  assert (Hparse :
    parser.ParseProg (evaluator.phost H) (S n)
      (parser.NewParser (evaluator.NewLexer H src))
    = Ok (ast.mkProgram []) (parser.NewParser (evaluator.NewLexer H src))).
  { rewrite Hnew. unfold parser.ParseProg, bind. simpl.
    unfold bind, parser.isCurToken. simpl. by rewrite bool_decide_eq_true_2. }
  split; [done|]. split; [by rewrite Hnew|].
  unfold evaluator.run. by rewrite Hparse.
Qed.

Lemma empty_token_stream_runs_to_nothing_witness :
  parser.ParseProg (evaluator.phost scenario.h0) 1
    (parser.NewParser (evaluator.NewLexer scenario.h0 ""))
  = Ok (ast.mkProgram []) (parser.NewParser (evaluator.NewLexer scenario.h0 ""))
  ∧ parser.GetErrors (parser.NewParser (evaluator.NewLexer scenario.h0 "")) = []
  ∧ evaluator.run scenario.h0 1 "" = Ok None started.
Proof.
  exact (empty_token_stream_runs_to_nothing scenario.h0 0 "" eq_refl eq_refl).
Defined.

(** ** Semicolons after a let statement *)

Lemma skip_semicolons_done (n : nat) (p p' : parser.Parser) :
  parser.skip_semicolons n p = Ok () p' →
  token.Type_ (parser.peekTok p') ≠ token.SEMICOLON.
Proof.
  revert p. induction n as [|n IH]; intros p; simpl; [done|].
  unfold bind at 1. unfold parser.isPeekToken at 1.
  case_bool_decide as Hpeek.
  - unfold bind. destruct (parser.nextToken p) as [[] p1| |]; try done. apply IH.
  - by intros [= <-].
Qed.

(** X17: a let statement takes every semicolon that follows its
    value: when [parseLetStmt] returns a let statement, the next token is
    not a semicolon. *)
Theorem parseLetStmt_takes_all_semicolons
    (H : parser.Host) (parseExpr : Z → parser.P (option ast.Expr)) (fuel : nat)
    (p p' : parser.Parser) (tok : token.Token) (name : ast.Identifier)
    (value : option ast.Expr) :
  parser.parseLetStmt H parseExpr fuel p = Ok (ast.LetStmt tok name value) p' →
  token.Type_ (parser.peekTok p') ≠ token.SEMICOLON.
Proof.
  unfold parser.parseLetStmt. unfold bind at 1. cbn [parser.cur].
  unfold bind at 1.
  destruct (parser.peek H token.IDENT p) as [[] p1| |]; simpl; try done.
  unfold bind at 1. cbn [parser.cur]. unfold bind at 1.
  destruct (parser.peek H token.EQ p1) as [[] p2| |]; simpl; try done.
  unfold bind at 1. destruct (parser.nextToken p2) as [[] p3| |]; try done.
  unfold bind at 1. destruct (parseExpr parser.LOWEST p3) as [v p4| |]; try done.
  unfold bind at 1.
  destruct (parser.skip_semicolons fuel p4) as [[] p5| |] eqn:Hskip; try done.
  intros [= _ _ _ <-]. by eapply skip_semicolons_done.
Qed.

Lemma parseLetStmt_takes_all_semicolons_witness :
  token.Type_
    (parser.peekTok
       (parser_at (scenario.tk token.SEMICOLON ";" 14) (scenario.tk token.NUM "1" 16)
          [] (demo.NewLexer sample.src_let_semicolons) []))
  ≠ token.SEMICOLON.
Proof.
  apply (parseLetStmt_takes_all_semicolons demo.parser_host
           (λ prec p, parser.parseExpr demo.parser_host 10 prec p) 10
           (sample.parser_on sample.src_let_semicolons)
           (parser_at (scenario.tk token.SEMICOLON ";" 14)
              (scenario.tk token.NUM "1" 16) []
              (demo.NewLexer sample.src_let_semicolons) [])
           (scenario.tk token.LET "dhori" 1) scenario.x_name
           (Some (scenario.int_lit 5 "5" 11))).
  vm_compute. reflexivity.
Defined.

(** ** Where a block ends *)

Lemma block_loop_end (parseStmt : parser.P ast.Stmt) (n : nat)
    (eT : token.TokenType) (stmts res : list ast.Stmt) (p p' : parser.Parser) :
  parser.block_loop parseStmt n eT stmts p = Ok res p' →
  token.Type_ (parser.curTok p') = eT ∨ token.Type_ (parser.curTok p') = token.EOF.
Proof.
  revert stmts p. induction n as [|n IH]; intros stmts p; simpl; [done|].
  unfold bind at 1. unfold parser.isCurToken at 1.
  unfold bind at 1. unfold parser.isCurToken at 1.
  case_bool_decide as Hend; simpl.
  { intros [= _ <-]. by left. }
  case_bool_decide as Heof; simpl.
  { intros [= _ <-]. by right. }
  unfold bind at 1. destruct (parseStmt p) as [st p1| |]; try done.
  unfold bind at 1. destruct (parser.nextToken p1) as [[] p2| |]; try done.
  apply IH.
Qed.

(** X21: a block of statements, the body of a function or of a
    loop, ends on its end token or at the end of the input, whichever
    comes first: when [parseBlockStmt] returns, the current token is the
    end token of the block or an end-of-file token. *)
Theorem parseBlockStmt_ends_on_end_token_or_EOF
    (parseStmt : parser.P ast.Stmt) (fuel : nat) (eT : token.TokenType)
    (p p' : parser.Parser) (b : ast.BlockStmt) :
  parser.parseBlockStmt parseStmt fuel eT p = Ok b p' →
  token.Type_ (parser.curTok p') = eT ∨ token.Type_ (parser.curTok p') = token.EOF.
Proof.
  unfold parser.parseBlockStmt. unfold bind at 1. cbn [parser.cur].
  unfold bind at 1. destruct (parser.nextToken p) as [[] p1| |]; try done.
  unfold bind at 1.
  destruct (parser.block_loop parseStmt fuel eT [] p1) as [stmts p2| |] eqn:Hloop;
    try done.
  intros [= _ <-]. by eapply block_loop_end.
Qed.

Lemma parseBlockStmt_ends_on_end_token_or_EOF_witness :
  token.Type_
    (parser.curTok
       (parser_at (scenario.tk token.END "sesh" 16) (scenario.tk token.NUM "2" 21)
          [] (demo.NewLexer sample.src_while_then) []))
  = token.END
  ∨ token.Type_
      (parser.curTok
         (parser_at (scenario.tk token.END "sesh" 16) (scenario.tk token.NUM "2" 21)
            [] (demo.NewLexer sample.src_while_then) []))
    = token.EOF.
Proof.
  apply (parseBlockStmt_ends_on_end_token_or_EOF
           (λ p, parser.parseStmt demo.parser_host 10 p) 10 token.END
           (parser_at (scenario.tk token.RPAREN ")" 12) (scenario.tk token.NUM "1" 14)
              [scenario.tk token.END "sesh" 16; scenario.tk token.NUM "2" 21]
              (demo.NewLexer sample.src_while_then) [])
           (parser_at (scenario.tk token.END "sesh" 16) (scenario.tk token.NUM "2" 21)
              [] (demo.NewLexer sample.src_while_then) [])
           (ast.Block (scenario.tk token.RPAREN ")" 12)
              [scenario.expr_stmt 1 "1" 14])).
  vm_compute. reflexivity.
Defined.

(** ** Precedence and associativity *)

(** X19: three identifiers joined by two binary operators and
    followed by a semicolon or by a token without a precedence are
    grouped by precedence: the second operator takes the middle operand
    when its precedence is higher than that of the first, and otherwise
    the first operator does, so that operators of equal precedence
    associate to the left.  No error is recorded, and the parse stops on
    the last identifier. *)
Theorem binary_operators_group_by_precedence
    (H : parser.Host) (n : nat) (x o1 y o2 z e : token.Token)
    (rest : list token.Token) (l : lexer.Lexer) (es : list errs.ParserError) :
  token.Type_ x = token.IDENT → token.Type_ y = token.IDENT →
  token.Type_ z = token.IDENT →
  binop (token.Type_ o1) = true → binop (token.Type_ o2) = true →
  token.Type_ e = token.SEMICOLON ∨ parser.precedences (token.Type_ e) = None →
  parser.parseExpr H (4 + n) parser.LOWEST
    (parser_at x o1 (y :: o2 :: z :: e :: rest) l es)
  = Ok (if bool_decide (prec_of (token.Type_ o1) < prec_of (token.Type_ o2))%Z
        then infix_of o1 (ident_of x) (infix_of o2 (ident_of y) (ident_of z))
        else infix_of o2 (infix_of o1 (ident_of x) (ident_of y)) (ident_of z))
       (parser_at z e rest l es).
Proof.
  destruct x as [tx lx lnx cx], y as [ty ly lny cy], z as [tz lz lnz cz],
    o1 as [t1 l1 ln1 c1], o2 as [t2 l2 ln2 c2], e as [te le lne ce].
  simpl. intros -> -> -> H1 H2 He.
  assert (Hte : te = token.SEMICOLON ∨ parser.precedences te = None) by done.
  clear He.
  destruct t1; try discriminate H1; clear H1;
    destruct t2; try discriminate H2; clear H2;
    destruct Hte as [->|Hte];
    try (destruct te; try discriminate Hte; clear Hte);
    vm_compute; reflexivity.
Qed.

Lemma binary_operators_group_by_precedence_witness :
  parser.parseExpr demo.parser_host 4 parser.LOWEST
    (parser_at (scenario.tk token.IDENT "a" 1) (scenario.tk token.PLUS "+" 3)
       [scenario.tk token.IDENT "b" 5; scenario.tk token.MUL "*" 7;
        scenario.tk token.IDENT "c" 9; scenario.tk token.SEMICOLON ";" 10]
       (demo.NewLexer sample.src_sum_product) [])
  = Ok (if bool_decide (prec_of token.PLUS < prec_of token.MUL)%Z
        then infix_of (scenario.tk token.PLUS "+" 3)
               (ident_of (scenario.tk token.IDENT "a" 1))
               (infix_of (scenario.tk token.MUL "*" 7)
                  (ident_of (scenario.tk token.IDENT "b" 5))
                  (ident_of (scenario.tk token.IDENT "c" 9)))
        else infix_of (scenario.tk token.MUL "*" 7)
               (infix_of (scenario.tk token.PLUS "+" 3)
                  (ident_of (scenario.tk token.IDENT "a" 1))
                  (ident_of (scenario.tk token.IDENT "b" 5)))
               (ident_of (scenario.tk token.IDENT "c" 9)))
       (parser_at (scenario.tk token.IDENT "c" 9) (scenario.tk token.SEMICOLON ";" 10)
          [] (demo.NewLexer sample.src_sum_product) []).
Proof.
  exact (binary_operators_group_by_precedence demo.parser_host 0
           (scenario.tk token.IDENT "a" 1) (scenario.tk token.PLUS "+" 3)
           (scenario.tk token.IDENT "b" 5) (scenario.tk token.MUL "*" 7)
           (scenario.tk token.IDENT "c" 9) (scenario.tk token.SEMICOLON ";" 10)
           [] (demo.NewLexer sample.src_sum_product) []
           eq_refl eq_refl eq_refl eq_refl eq_refl (or_introl eq_refl)).
Defined.

(** X23: a prefix operator binds tighter than every binary operator:
    [-a + b] is the sum of [-a] and [b], and [!a == b] compares [!a]
    with [b]. *)
Theorem prefix_operators_bind_tighter
    (H : parser.Host) (n : nat) (o x o2 y e : token.Token)
    (rest : list token.Token) (l : lexer.Lexer) (es : list errs.ParserError) :
  prefix_op (token.Type_ o) = true →
  token.Type_ x = token.IDENT → token.Type_ y = token.IDENT →
  binop (token.Type_ o2) = true →
  token.Type_ e = token.SEMICOLON ∨ parser.precedences (token.Type_ e) = None →
  parser.parseExpr H (3 + n) parser.LOWEST
    (parser_at o x (o2 :: y :: e :: rest) l es)
  = Ok (infix_of o2 (prefix_of o (ident_of x)) (ident_of y))
       (parser_at y e rest l es).
Proof.
  destruct x as [tx lx lnx cx], y as [ty ly lny cy],
    o as [t1 l1 ln1 c1], o2 as [t2 l2 ln2 c2], e as [te le lne ce].
  simpl. intros H1 -> -> H2 He.
  assert (Hte : te = token.SEMICOLON ∨ parser.precedences te = None) by done.
  clear He.
  destruct t1; try discriminate H1; clear H1;
    destruct t2; try discriminate H2; clear H2;
    destruct Hte as [->|Hte];
    try (destruct te; try discriminate Hte; clear Hte);
    vm_compute; reflexivity.
Qed.

Lemma prefix_operators_bind_tighter_witness :
  parser.parseExpr demo.parser_host 3 parser.LOWEST
    (parser_at (scenario.tk token.MINUS "-" 1) (scenario.tk token.IDENT "a" 2)
       [scenario.tk token.PLUS "+" 4; scenario.tk token.IDENT "b" 6;
        scenario.tk token.SEMICOLON ";" 7] (demo.NewLexer "-a + b;") [])
  = Ok (infix_of (scenario.tk token.PLUS "+" 4)
          (prefix_of (scenario.tk token.MINUS "-" 1)
             (ident_of (scenario.tk token.IDENT "a" 2)))
          (ident_of (scenario.tk token.IDENT "b" 6)))
       (parser_at (scenario.tk token.IDENT "b" 6) (scenario.tk token.SEMICOLON ";" 7)
          [] (demo.NewLexer "-a + b;") []).
Proof.
  exact (prefix_operators_bind_tighter demo.parser_host 0
           (scenario.tk token.MINUS "-" 1) (scenario.tk token.IDENT "a" 2)
           (scenario.tk token.PLUS "+" 4) (scenario.tk token.IDENT "b" 6)
           (scenario.tk token.SEMICOLON ";" 7) [] (demo.NewLexer "-a + b;") []
           eq_refl eq_refl eq_refl eq_refl (or_introl eq_refl)).
Defined.

(** ** The parser terminates *)

Lemma remaining_mono (p : parser.Parser) (N M : nat) :
  remaining p N → N ≤ M → remaining p M.
Proof. intros Hr Hle i Hi. apply Hr. lia. Qed.

Lemma remaining_cur (p : parser.Parser) (N : nat) :
  remaining p N → token.Type_ (parser.curTok p) ≠ token.EOF → 1 ≤ N.
Proof.
  intros Hr Hc. destruct N as [|N]; [|lia]. exfalso. apply Hc. by apply (Hr 0).
Qed.

Lemma remaining_peek (p : parser.Parser) (N : nat) :
  remaining p N → token.Type_ (parser.peekTok p) ≠ token.EOF → 2 ≤ N.
Proof.
  intros Hr Hc. destruct N as [|[|N]]; [| |lia]; exfalso; apply Hc;
    by apply (Hr 1); lia.
Qed.

Lemma nextToken_stream (p : parser.Parser) :
  ∃ p', parser.nextToken p = Ok () p' ∧ ∀ i, stream p' i = stream p (S i).
Proof.
  unfold parser.nextToken, lexer.NextToken.
  destruct p as [[pending eof GetLine] c pk es]; simpl.
  destruct pending as [|t rest]; eexists; (split; [reflexivity|]).
  - intros [|[|i]]; reflexivity.
  - intros i. reflexivity.
Qed.

Lemma halts_ret {A} (N M : nat) (a : A) : N ≤ M → halts N (ret a) M.
Proof. intros Hle p Hr. simpl. by eapply remaining_mono. Qed.

Lemma halts_bind {A B} (N K M : nat) (m : parser.P A) (k : A → parser.P B) :
  halts N m K → (∀ a, halts K (k a) M) → halts N (bind m k) M.
Proof.
  intros Hm Hk p Hr. unfold bind. specialize (Hm p Hr).
  destruct (m p) as [a p1| |]; [|done|done]. by apply Hk.
Qed.

Lemma halts_weaken {A} (N N' M M' : nat) (m : parser.P A) :
  halts N m M → N' ≤ N → M ≤ M' → halts N' m M'.
Proof.
  intros Hm HN HM p Hr. specialize (Hm p (remaining_mono _ _ _ Hr HN)).
  destruct (m p); [|done|done]. by eapply remaining_mono.
Qed.

Lemma halts_panic {A} (N M : nat) : halts N (panic : parser.P A) M.
Proof. by intros p Hr. Qed.

Lemma halts_lift_opt {A} (N : nat) (o : option A) : halts N (lift_opt o) N.
Proof. destruct o; [by apply halts_ret | apply halts_panic]. Qed.

(** A step that only reads the state. *)
Lemma halts_read {A} (N : nat) (m : parser.P A) :
  (∀ p, ∃ r, m p = Ok r p) → halts N m N.
Proof. intros Hm p Hr. by destruct (Hm p) as [r ->]. Qed.

Lemma halts_isCurToken (N : nat) (t : token.TokenType) :
  halts N (parser.isCurToken t) N.
Proof. apply halts_read. intros p. by eexists. Qed.

Lemma halts_isPeekToken (N : nat) (t : token.TokenType) :
  halts N (parser.isPeekToken t) N.
Proof. apply halts_read. intros p. by eexists. Qed.

Lemma halts_cur (N : nat) : halts N parser.cur N.
Proof. apply halts_read. intros p. by eexists. Qed.

Lemma halts_peekPrec (N : nat) : halts N parser.peekPrec N.
Proof. apply halts_read. intros p. by eexists. Qed.

Lemma halts_curPrec (N : nat) : halts N parser.curPrec N.
Proof. apply halts_read. intros p. by eexists. Qed.

Lemma halts_error_line (N : nat) (t : token.Token) :
  halts N (parser.error_line t) N.
Proof. intros p Hr. unfold parser.error_line. by destruct (_ ≫= _). Qed.

Lemma halts_add_err (N : nat) (e : errs.ParserError) :
  halts N (parser.add_err e) N.
Proof. intros p Hr. exact Hr. Qed.

Lemma halts_nextToken (N : nat) : halts N parser.nextToken (N - 1).
Proof.
  intros p Hr. destruct (nextToken_stream p) as (p' & -> & Hs).
  intros i Hi. rewrite Hs. apply Hr. lia.
Qed.

(** [nextToken;; k], and the tests of the next and of the current token,
    which tell that tokens are left. *)
Lemma halts_next {A} (N M : nat) (k : parser.P A) :
  halts (N - 1) k M → halts N (parser.nextToken;; k) M.
Proof. intros Hk. eapply halts_bind; [apply halts_nextToken | by intros _]. Qed.

Lemma halts_if_peek {A} (N M : nat) (t : token.TokenType) (a b : parser.P A) :
  t ≠ token.EOF →
  (2 ≤ N → halts N a M) → halts N b M →
  halts N (do ok <- parser.isPeekToken t; if ok then a else b) M.
Proof.
  intros Ht Ha Hb p Hr. unfold bind, parser.isPeekToken.
  case_bool_decide as Hpk.
  - apply Ha; [|done]. eapply remaining_peek; [done|]. by rewrite Hpk.
  - by apply Hb.
Qed.

Lemma halts_if_cur {A} (N M : nat) (eT : token.TokenType) (a b : parser.P A) :
  (1 ≤ N → halts N a M) → halts N b M →
  halts N (do x <- parser.isCurToken eT;
           do y <- parser.isCurToken token.EOF;
           if negb x && negb y then a else b) M.
Proof.
  intros Ha Hb p Hr. unfold bind, parser.isCurToken.
  destruct (bool_decide (token.Type_ (parser.curTok p) = eT)); simpl;
    [by apply Hb|].
  case_bool_decide as Heof; simpl; [by apply Hb|].
  apply Ha; [|done]. by eapply remaining_cur.
Qed.

Section HaltsHelpers.

Variable H : parser.Host.

Lemma halts_peekErr (N : nat) (t : token.TokenType) : halts N (parser.peekErr H t) N.
Proof.
  unfold parser.peekErr.
  eapply halts_bind; [apply halts_cur|]. intros c.
  eapply halts_bind; [apply halts_error_line|]. intros line.
  intros p Hr. exact Hr.
Qed.

(** [peek t] takes a token when it answers [true]. *)
Lemma halts_peek {A} (N M : nat) (t : token.TokenType) (k : bool → parser.P A) :
  t ≠ token.EOF →
  (2 ≤ N → halts (N - 1) (k true) M) → halts N (k false) M →
  halts N (do ok <- parser.peek H t; k ok) M.
Proof.
  intros Ht Ha Hb. unfold parser.peek.
  assert (Heq : ∀ p,
    (do ok <- (do b <- parser.isPeekToken t;
               if b then parser.nextToken;; ret true
               else parser.peekErr H t;; ret false); k ok) p
    = (do b <- parser.isPeekToken t;
       if b then parser.nextToken;; k true
       else parser.peekErr H t;; k false) p).
  { intros p. unfold bind, parser.isPeekToken. case_bool_decide; simpl.
    - by destruct (parser.nextToken p).
    - by destruct (parser.peekErr H t p). }
  intros p Hr. rewrite Heq. revert p Hr.
  apply halts_if_peek; [done| |].
  - intros HN. apply halts_next. by apply Ha.
  - eapply halts_bind; [apply halts_peekErr|]. by intros _.
Qed.

Lemma halts_peek_any (N : nat) (t : token.TokenType) : halts N (parser.peek H t) N.
Proof.
  unfold parser.peek. eapply halts_bind; [apply halts_isPeekToken|].
  intros [].
  - apply halts_next. apply halts_ret. lia.
  - eapply halts_bind; [apply halts_peekErr|]. intros _. by apply halts_ret.
Qed.

Lemma halts_noPrefixFunctionErr (N : nat) (t : token.Token) :
  halts N (parser.noPrefixFunctionErr t) N.
Proof.
  unfold parser.noPrefixFunctionErr.
  eapply halts_bind; [apply halts_error_line|]. intros line.
  destruct (bool_decide _); [apply halts_add_err|].
  eapply halts_bind; [apply halts_cur|]. intros c. apply halts_add_err.
Qed.

Lemma halts_parseNumLit (N : nat) : halts N (parser.parseNumLit H) N.
Proof.
  unfold parser.parseNumLit.
  eapply halts_bind; [apply halts_cur|]. intros c.
  destruct (parser.IsFloat H _);
    (eapply halts_bind; [apply halts_lift_opt|]; intros v; by apply halts_ret).
Qed.

Lemma halts_parseFuncParams_loop (n N : nat) (ids : list ast.Identifier) :
  N + 1 ≤ n → halts N (parser.parseFuncParams_loop n ids) N.
Proof.
  revert N ids. induction n as [|n IH]; intros N ids Hn; [lia|]. simpl.
  apply halts_if_peek; [done| |by apply halts_ret].
  intros HN. do 2 apply halts_next.
  eapply halts_bind; [apply halts_cur|]. intros c.
  eapply halts_weaken; [apply (IH (N - 1 - 1)); lia | lia | lia].
Qed.

Lemma halts_parseFuncParams (n N : nat) :
  N + 1 ≤ n → halts N (parser.parseFuncParams H n) N.
Proof.
  intros Hn. unfold parser.parseFuncParams.
  eapply halts_bind; [apply halts_isPeekToken|]. intros [].
  - apply halts_next. apply halts_ret. lia.
  - apply halts_next.
    eapply halts_bind; [apply halts_cur|]. intros c.
    eapply halts_bind; [apply halts_parseFuncParams_loop; lia|]. intros ids.
    eapply halts_bind; [apply halts_peek_any|]. intros []; apply halts_ret; lia.
Qed.

Lemma halts_skip_semicolons (n N : nat) :
  N + 1 ≤ n → halts N (parser.skip_semicolons n) N.
Proof.
  revert N. induction n as [|n IH]; intros N Hn; [lia|]. simpl.
  apply halts_if_peek; [done| |by apply halts_ret].
  intros HN. apply halts_next.
  eapply halts_weaken; [apply (IH (N - 1)); lia | lia | lia].
Qed.

Lemma halts_optional_semicolon (N : nat) : halts N parser.optional_semicolon N.
Proof.
  unfold parser.optional_semicolon.
  eapply halts_bind; [apply halts_isPeekToken|]. intros [].
  - apply (halts_weaken N N (N - 1) N); [apply halts_nextToken | lia | lia].
  - by apply halts_ret.
Qed.

End HaltsHelpers.

Section HaltsProductions.

Variable H : parser.Host.
Variable parseExpr : Z → parser.P (option ast.Expr).
Variable parseStmt : parser.P ast.Stmt.
Variables fuel K : nat.
Hypothesis halts_parseExpr : ∀ M prec, M ≤ K → halts M (parseExpr prec) M.
Hypothesis halts_parseStmt : ∀ M, M ≤ K → halts M parseStmt M.
Hypothesis enough_fuel : K + 2 ≤ fuel.

Lemma halts_parseExprList_loop (n M : nat) (exprs : list (option ast.Expr)) :
  M ≤ K → M + 1 ≤ n → halts M (parser.parseExprList_loop parseExpr n exprs) M.
Proof.
  revert M exprs. induction n as [|n IH]; intros M exprs HM Hn; [lia|]. simpl.
  apply halts_if_peek; [done| |by apply halts_ret].
  intros H2. do 2 apply halts_next.
  eapply halts_bind; [apply halts_parseExpr; lia|]. intros e.
  eapply halts_weaken; [apply (IH (M - 1 - 1)); lia | lia | lia].
Qed.

Lemma halts_parseExprList (M : nat) (endtok : token.TokenType) :
  M ≤ S K → halts M (parser.parseExprList H parseExpr fuel endtok) M.
Proof.
  intros HM. unfold parser.parseExprList.
  eapply halts_bind; [apply halts_isPeekToken|]. intros [].
  - apply halts_next. apply halts_ret. lia.
  - apply halts_next.
    eapply halts_bind; [apply halts_parseExpr; lia|]. intros e.
    eapply halts_bind; [apply halts_parseExprList_loop; lia|]. intros exprs.
    eapply halts_bind; [apply halts_peek_any|]. intros []; apply halts_ret; lia.
Qed.

Lemma halts_parseHashLit_loop (n M : nat)
    (pairs : list (option ast.Expr * option ast.Expr)) :
  M ≤ S K → M + 1 ≤ n → halts M (parser.parseHashLit_loop H parseExpr n pairs) M.
Proof.
  revert M pairs. induction n as [|n IH]; intros M pairs HM Hn; [lia|]. simpl.
  eapply halts_bind; [apply halts_isPeekToken|]. intros [].
  { by apply halts_ret. }
  apply halts_next.
  eapply halts_bind; [apply halts_parseExpr; lia|]. intros k.
  apply halts_peek; [done| |apply halts_ret; lia].
  intros H2. simpl. apply halts_next.
  eapply halts_bind; [apply halts_parseExpr; lia|]. intros val.
  eapply halts_bind; [apply halts_isPeekToken|]. intros [].
  - eapply halts_weaken; [apply (IH (M - 1 - 1 - 1)); lia | lia | lia].
  - apply halts_peek; [done| |apply halts_ret; lia].
    intros H3.
    eapply halts_weaken; [apply (IH (M - 1 - 1 - 1 - 1)); lia | lia | lia].
Qed.

Lemma halts_block_loop (n M : nat) (eT : token.TokenType) (stmts : list ast.Stmt) :
  M ≤ K → M + 1 ≤ n → halts M (parser.block_loop parseStmt n eT stmts) M.
Proof.
  revert M stmts. induction n as [|n IH]; intros M stmts HM Hn; [lia|]. simpl.
  apply halts_if_cur; [|by apply halts_ret].
  intros H1.
  eapply halts_bind; [by apply halts_parseStmt|]. intros s.
  apply halts_next.
  eapply halts_weaken; [apply (IH (M - 1)); lia | lia | lia].
Qed.

Lemma halts_parseBlockStmt (M : nat) (eT : token.TokenType) :
  M ≤ S K → halts M (parser.parseBlockStmt parseStmt fuel eT) M.
Proof.
  intros HM. unfold parser.parseBlockStmt.
  eapply halts_bind; [apply halts_cur|]. intros c.
  apply halts_next.
  eapply halts_bind; [apply halts_block_loop; lia|]. intros stmts.
  apply halts_ret. lia.
Qed.

Lemma halts_prefixParseFns (t : token.TokenType) (f : parser.P (option ast.Expr)) :
  parser.prefixParseFns H parseExpr parseStmt fuel t = Some f →
  halts (S K) f (S K).
Proof.
  destruct t; intros [= <-].
  - unfold parser.parseIdent.
    eapply halts_bind; [apply halts_cur|]. intros c. by apply halts_ret.
  - apply halts_parseNumLit.
  - unfold parser.parseStringLit.
    eapply halts_bind; [apply halts_cur|]. intros c. by apply halts_ret.
  - unfold parser.parseGroupedExpr. apply halts_next.
    eapply halts_bind; [apply halts_parseExpr; lia|]. intros e.
    eapply halts_bind; [apply halts_peek_any|]. intros []; apply halts_ret; lia.
  - unfold parser.parseHashLit.
    eapply halts_bind; [apply halts_cur|]. intros c.
    eapply halts_bind; [apply halts_parseHashLit_loop; lia|]. intros [pairs|].
    + eapply halts_bind; [apply halts_peek_any|]. intros []; by apply halts_ret.
    + by apply halts_ret.
  - unfold parser.parseArrLit.
    eapply halts_bind; [apply halts_cur|]. intros c.
    eapply halts_bind; [by apply halts_parseExprList|]. intros elms.
    by apply halts_ret.
  - unfold parser.parsePrefixExpr.
    eapply halts_bind; [apply halts_cur|]. intros c. apply halts_next.
    eapply halts_bind; [apply halts_parseExpr; lia|]. intros e.
    apply halts_ret. lia.
  - unfold parser.parsePrefixExpr.
    eapply halts_bind; [apply halts_cur|]. intros c. apply halts_next.
    eapply halts_bind; [apply halts_parseExpr; lia|]. intros e.
    apply halts_ret. lia.
  - unfold parser.parseFunc.
    apply halts_peek; [done| |by apply halts_ret].
    intros H2. simpl.
    eapply halts_bind; [apply halts_cur|]. intros c.
    eapply halts_bind; [apply halts_peek_any|]. intros [];
      [|apply halts_ret; lia]. simpl.
    eapply halts_bind; [apply halts_parseFuncParams; lia|]. intros params.
    eapply halts_bind; [apply halts_parseBlockStmt; lia|]. intros body.
    apply halts_ret. lia.
  - unfold parser.parseIfExpr.
    eapply halts_bind; [apply halts_cur|]. intros tok.
    apply halts_peek; [done| |by apply halts_ret].
    intros H2. simpl. apply halts_next.
    eapply halts_bind; [apply halts_parseExpr; lia|]. intros cond.
    eapply halts_bind; [apply halts_peek_any|]. intros [];
      [|apply halts_ret; lia]. simpl.
    eapply halts_bind; [apply halts_peek_any|]. intros [];
      [|apply halts_ret; lia]. simpl.
    apply halts_next.
    eapply halts_bind; [apply halts_cur|]. intros c.
    eapply halts_bind; [apply halts_block_loop; lia|]. intros tb.
    apply halts_next.
    eapply halts_bind; [apply halts_isCurToken|]. intros a.
    eapply halts_bind; [apply halts_isCurToken|]. intros b.
    eapply halts_bind.
    + destruct (negb a && negb b); cycle 1.
      * apply halts_ret. reflexivity.
      * eapply halts_bind; [apply halts_parseStmt; lia|]. intros s.
        apply halts_next. apply halts_ret. lia.
    + intros eb. apply halts_ret. lia.
  - unfold parser.parseWhileExpr.
    eapply halts_bind; [apply halts_cur|]. intros tok.
    apply halts_peek; [done| |by apply halts_ret].
    intros H2. simpl. apply halts_next.
    eapply halts_bind; [apply halts_parseExpr; lia|]. intros cond.
    eapply halts_bind; [apply halts_peek_any|]. intros [];
      [|apply halts_ret; lia]. simpl.
    eapply halts_bind; [apply halts_parseBlockStmt; lia|]. intros body.
    apply halts_ret. lia.
  - unfold parser.parseBool.
    eapply halts_bind; [apply halts_cur|]. intros c.
    eapply halts_bind; [apply halts_isCurToken|]. intros b. by apply halts_ret.
  - unfold parser.parseBool.
    eapply halts_bind; [apply halts_cur|]. intros c.
    eapply halts_bind; [apply halts_isCurToken|]. intros b. by apply halts_ret.
Qed.

Lemma halts_infixParseFns (t : token.TokenType)
    (f : option ast.Expr → parser.P (option ast.Expr)) (l : option ast.Expr)
    (M : nat) :
  parser.infixParseFns H parseExpr fuel t = Some f →
  M ≤ K → halts M (f l) M.
Proof.
  intros Hf HM.
  assert (Hinfix : halts M (parser.parseInfixExpr parseExpr l) M).
  { unfold parser.parseInfixExpr.
    eapply halts_bind; [apply halts_cur|]. intros c.
    eapply halts_bind; [apply halts_curPrec|]. intros prec.
    apply halts_next.
    eapply halts_bind; [apply halts_parseExpr; lia|]. intros e.
    apply halts_ret. lia. }
  destruct t; try discriminate Hf; injection Hf as <-; try exact Hinfix.
  - unfold parser.parseCallExpr.
    eapply halts_bind; [apply halts_cur|]. intros c.
    eapply halts_bind; [apply halts_parseExprList; lia|]. intros args.
    by apply halts_ret.
  - unfold parser.parseIndexExpr.
    eapply halts_bind; [apply halts_cur|]. intros c. apply halts_next.
    eapply halts_bind; [apply halts_parseExpr; lia|]. intros e.
    eapply halts_bind; [apply halts_peek_any|]. intros []; apply halts_ret; lia.
Qed.

Lemma infixParseFns_not_EOF (f : option ast.Expr → parser.P (option ast.Expr)) :
  parser.infixParseFns H parseExpr fuel token.EOF ≠ Some f.
Proof. done. Qed.

Lemma halts_parseExpr_loop (n M : nat) (prec : Z) (leftExpr : option ast.Expr) :
  M ≤ S K → M + 1 ≤ n →
  halts M (parser.parseExpr_loop H parseExpr fuel n prec leftExpr) M.
Proof.
  revert M leftExpr. induction n as [|n IH]; intros M leftExpr HM Hn; [lia|]. simpl.
  eapply halts_bind; [apply halts_isPeekToken|]. intros semi.
  eapply halts_bind; [apply halts_peekPrec|]. intros pp.
  destruct (_ && _); [|by apply halts_ret].
  intros p Hr.
  destruct (parser.infixParseFns H parseExpr fuel (token.Type_ (parser.peekTok p)))
    as [infix|] eqn:Hin; [|done].
  assert (H2 : 2 ≤ M).
  { eapply remaining_peek; [done|]. intros Heof. rewrite Heof in Hin.
    by eapply infixParseFns_not_EOF. }
  revert p Hr Hin. intros p Hr Hin.
  assert (Hgo : halts M (parser.nextToken;;
                         do l <- infix leftExpr;
                         parser.parseExpr_loop H parseExpr fuel n prec l) M).
  { apply halts_next.
    eapply halts_bind; [eapply halts_infixParseFns; [done | lia]|]. intros l.
    eapply halts_weaken; [apply (IH (M - 1)); lia | lia | lia]. }
  by apply Hgo.
Qed.

Lemma halts_parseExpr_body (prec : Z) :
  halts (S K) (parser.parseExpr_body H parseExpr parseStmt fuel prec) (S K).
Proof.
  unfold parser.parseExpr_body.
  eapply halts_bind; [apply halts_cur|]. intros c.
  destruct (parser.prefixParseFns H parseExpr parseStmt fuel (token.Type_ c))
    as [prefix|] eqn:Hpre.
  - eapply halts_bind; [by eapply halts_prefixParseFns|]. intros l.
    apply halts_parseExpr_loop; lia.
  - eapply halts_bind; [apply halts_noPrefixFunctionErr|]. intros _.
    by apply halts_ret.
Qed.

Lemma halts_parseStmt_body :
  halts K (parser.parseStmt_body H parseExpr fuel) K.
Proof.
  unfold parser.parseStmt_body.
  eapply halts_bind; [apply halts_cur|]. intros c.
  assert (Hexpr : halts K (parser.parseExprStmt parseExpr) K).
  { unfold parser.parseExprStmt.
    eapply halts_bind; [apply halts_cur|]. intros c'.
    eapply halts_bind; [by apply halts_parseExpr|]. intros e.
    eapply halts_bind; [apply halts_optional_semicolon|]. intros _.
    by apply halts_ret. }
  destruct (token.Type_ c); try exact Hexpr.
  - unfold parser.parseLetStmt.
    eapply halts_bind; [apply halts_cur|]. intros tok.
    eapply halts_bind; [apply halts_peek_any|]. intros [];
      [|by apply halts_ret]. simpl.
    eapply halts_bind; [apply halts_cur|]. intros c'.
    eapply halts_bind; [apply halts_peek_any|]. intros [];
      [|by apply halts_ret]. simpl.
    apply halts_next.
    eapply halts_bind; [apply halts_parseExpr; lia|]. intros v.
    eapply halts_bind; [apply halts_skip_semicolons; lia|]. intros _.
    apply halts_ret. lia.
  - unfold parser.parseReturnStmt.
    eapply halts_bind; [apply halts_cur|]. intros c'. apply halts_next.
    eapply halts_bind; [apply halts_parseExpr; lia|]. intros v.
    eapply halts_bind; [apply halts_optional_semicolon|]. intros _.
    apply halts_ret. lia.
  - unfold parser.parseShowStmt.
    eapply halts_bind; [apply halts_cur|]. intros c'. apply halts_next.
    eapply halts_bind; [apply halts_parseExprList; lia|]. intros v.
    eapply halts_bind; [apply halts_optional_semicolon|]. intros _.
    apply halts_ret. lia.
  - unfold parser.parseIncludeStmt.
    eapply halts_bind; [apply halts_cur|]. intros c'. apply halts_next.
    eapply halts_bind; [apply halts_parseExpr; lia|]. intros v.
    eapply halts_bind; [apply halts_optional_semicolon|]. intros _.
    apply halts_ret. lia.
  - unfold parser.comment_stmt.
    eapply halts_bind; [apply halts_cur|]. intros c'. by apply halts_ret.
Qed.

End HaltsProductions.

(** At the end of the input no prefix function is looked up with
    success: [parseExpr] records its error and returns. *)
Lemma halts_parseExpr_body_at_EOF (H : parser.Host)
    (parseExpr : Z → parser.P (option ast.Expr)) (parseStmt : parser.P ast.Stmt)
    (fuel : nat) (prec : Z) :
  halts 0 (parser.parseExpr_body H parseExpr parseStmt fuel prec) 0.
Proof.
  intros p Hr. unfold parser.parseExpr_body, bind. cbn [parser.cur].
  assert (Heof : token.Type_ (parser.curTok p) = token.EOF) by (by apply (Hr 0)).
  rewrite Heof. simpl.
  assert (Hn := halts_noPrefixFunctionErr 0 (parser.curTok p) p Hr).
  destruct (parser.noPrefixFunctionErr (parser.curTok p) p); simpl; done.
Qed.

Lemma halts_parseExpr_parseStmt (H : parser.Host) (n : nat) :
  ∀ N,
    (2 * N + 2 ≤ n → ∀ prec, halts N (parser.parseExpr H n prec) N)
    ∧ (2 * N + 3 ≤ n → halts N (parser.parseStmt H n) N).
Proof.
  induction n as [|n IH]; intros N; [split; lia|].
  split.
  - intros Hn prec. simpl. destruct N as [|K].
    + apply halts_parseExpr_body_at_EOF.
    + apply halts_parseExpr_body.
      * intros M prec' HM. apply (proj1 (IH M)). lia.
      * intros M HM. apply (proj2 (IH M)). lia.
      * lia.
  - intros Hn. simpl. apply halts_parseStmt_body.
    + intros M prec' HM. apply (proj1 (IH M)). lia.
    + lia.
Qed.

Lemma halts_ParseProg_loop (H : parser.Host) (n fuel N : nat) (stmts : list ast.Stmt) :
  N + 1 ≤ n → 2 * N + 3 ≤ fuel →
  halts N (parser.ParseProg_loop H n fuel stmts) N.
Proof.
  revert N stmts. induction n as [|n IH]; intros N stmts Hn Hfuel; [lia|]. simpl.
  intros p Hr. unfold bind at 1. unfold parser.isCurToken at 1.
  case_bool_decide as Heof; [done|].
  assert (H1 : 1 ≤ N) by (by eapply remaining_cur).
  assert (Hgo : halts N (do stmt <- parser.parseStmt H fuel;
                         parser.nextToken;;
                         parser.ParseProg_loop H n fuel (stmts ++ [stmt])) N).
  { eapply halts_bind; [by apply (proj2 (halts_parseExpr_parseStmt H fuel N))|].
    intros stmt. apply halts_next.
    eapply halts_weaken; [apply (IH (N - 1)); lia | lia | lia]. }
  by apply Hgo.
Qed.

Lemma remaining_NewParser (l : lexer.Lexer) :
  token.Type_ (lexer.eof l) = token.EOF →
  remaining (parser.NewParser l) (List.length (lexer.pending l)).
Proof.
  intros Heof. unfold parser.NewParser, bind.
  set (p0 := {| parser.lx := l; parser.curTok := token.virtual;
                parser.peekTok := token.virtual; parser.errs := [] |}).
  destruct (nextToken_stream p0) as (p1 & -> & Hs1).
  destruct (nextToken_stream p1) as (p2 & -> & Hs2).
  intros i Hi. rewrite Hs2, Hs1. unfold stream, window. simpl.
  rewrite lookup_ge_None_2 by done. done.
Qed.

(** X22: the parser terminates.  On the tokens of a lexer whose
    end-of-file token has the kind [EOF], every loop of the parser and
    its recursion come to an end: with a budget of twice the number of
    tokens and three more, [ParseProg] returns a program or panics (in
    the formatting of an error line), and does not run out of the
    budget. *)
Theorem parser_terminates
    (H : parser.Host) (l : lexer.Lexer) (fuel : nat) :
  token.Type_ (lexer.eof l) = token.EOF →
  2 * List.length (lexer.pending l) + 3 ≤ fuel →
  parser.ParseProg H fuel (parser.NewParser l) ≠ OutOfFuel.
Proof.
  intros Heof Hfuel.
  assert (Hrem := remaining_NewParser l Heof).
  assert (Hn : List.length (lexer.pending l) + 1 ≤ fuel) by lia.
  assert (Hloop := halts_ParseProg_loop H fuel fuel _ [] Hn Hfuel _ Hrem).
  unfold parser.ParseProg, bind.
  by destruct (parser.ParseProg_loop H fuel fuel [] (parser.NewParser l)).
Qed.

Lemma parser_terminates_witness :
  parser.ParseProg demo.parser_host 13 (parser.NewParser (demo.NewLexer scenario.src_let))
  ≠ OutOfFuel.
Proof.
  apply (parser_terminates demo.parser_host (demo.NewLexer scenario.src_let) 13).
  - reflexivity.
  - vm_compute. apply le_n.
Defined.

(** ** A parse without errors gives a tree without nil nodes *)

Lemma clean_ret {A} (a : A) (C : A → Prop) : C a → clean (ret a) C.
Proof. intros Ha p r p' [= <- <-]. by split. Qed.

Lemma clean_bind {A B} (m : parser.P A) (k : A → parser.P B)
    (C : A → Prop) (C' : B → Prop) :
  clean m C → (∀ a, clean (k a) (λ b, C a → C' b)) → clean (bind m k) C'.
Proof.
  intros Hm Hk p r p' Hrun. unfold bind in Hrun.
  destruct (m p) as [a p1| |] eqn:E; try discriminate.
  destruct (Hm _ _ _ E) as [H1 C1]. destruct (Hk a _ _ _ Hrun) as [H2 C2].
  split; [by etrans|]. intros Heq.
  assert (H3 : parser.errs p1 = parser.errs p).
  { symmetry. apply prefix_length_eq; [done|]. rewrite <- Heq.
    by apply prefix_length. }
  apply C2; [congruence | by apply C1].
Qed.

Lemma clean_weaken {A} (m : parser.P A) (C C' : A → Prop) :
  clean m C → (∀ a, C a → C' a) → clean m C'.
Proof. intros Hm HC p r p' Hrun. destruct (Hm _ _ _ Hrun). split; auto. Qed.

Lemma clean_panic {A} (C : A → Prop) : clean (panic : parser.P A) C.
Proof. by intros p r p' ?. Qed.

Lemma clean_out_of_fuel {A} (C : A → Prop) : clean (out_of_fuel : parser.P A) C.
Proof. by intros p r p' ?. Qed.

Lemma clean_lift_opt {A} (o : option A) : clean (lift_opt o : parser.P A) (λ _, True).
Proof. destruct o; [by apply clean_ret | apply clean_panic]. Qed.

(** A step that does not touch the errors. *)
Lemma clean_quiet {A} (m : parser.P A) :
  (∀ p r p', m p = Ok r p' → parser.errs p' = parser.errs p) →
  clean m (λ _, True).
Proof. intros Hm p r p' Hrun. rewrite (Hm _ _ _ Hrun). by split. Qed.

Lemma clean_isCurToken (t : token.TokenType) :
  clean (parser.isCurToken t) (λ _, True).
Proof. apply clean_quiet. by intros p r p' [= <- <-]. Qed.

Lemma clean_isPeekToken (t : token.TokenType) :
  clean (parser.isPeekToken t) (λ _, True).
Proof. apply clean_quiet. by intros p r p' [= <- <-]. Qed.

Lemma clean_cur : clean parser.cur (λ _, True).
Proof. apply clean_quiet. by intros p r p' [= <- <-]. Qed.

Lemma clean_peekPrec : clean parser.peekPrec (λ _, True).
Proof. apply clean_quiet. by intros p r p' [= <- <-]. Qed.

Lemma clean_curPrec : clean parser.curPrec (λ _, True).
Proof. apply clean_quiet. by intros p r p' [= <- <-]. Qed.

Lemma clean_error_line (t : token.Token) : clean (parser.error_line t) (λ _, True).
Proof.
  apply clean_quiet. intros p r p'. unfold parser.error_line.
  destruct (_ ≫= _); [|done]. by intros [= <- <-].
Qed.

Lemma clean_nextToken : clean parser.nextToken (λ _, True).
Proof.
  apply clean_quiet. intros p r p'. unfold parser.nextToken.
  destruct (lexer.NextToken _). by intros [= <- <-].
Qed.

(** A step that records an error establishes everything. *)
Lemma clean_add_err (e : errs.ParserError) : clean (parser.add_err e) (λ _, False).
Proof.
  intros p r p' [= <- <-]. simpl. split; [by apply prefix_app_r|].
  intros Heq. apply (f_equal List.length) in Heq. rewrite length_app in Heq.
  simpl in Heq. lia.
Qed.

(** One step of a proof of [clean] whose postcondition does not
    matter. *)
Ltac clean_step :=
  lazymatch goal with
  | |- clean (bind _ _) _ => eapply clean_bind; [|intros ?]
  | |- clean (ret _) _ => apply clean_ret
  | |- clean panic _ => apply clean_panic
  | |- clean out_of_fuel _ => apply clean_out_of_fuel
  | |- clean (lift_opt _) _ => apply clean_lift_opt
  | |- clean (parser.isCurToken _) _ => apply clean_isCurToken
  | |- clean (parser.isPeekToken _) _ => apply clean_isPeekToken
  | |- clean parser.cur _ => apply clean_cur
  | |- clean parser.peekPrec _ => apply clean_peekPrec
  | |- clean parser.curPrec _ => apply clean_curPrec
  | |- clean (parser.error_line _) _ => apply clean_error_line
  | |- clean parser.nextToken _ => apply clean_nextToken
  | |- clean (parser.add_err _) _ => apply clean_add_err
  | |- clean (if ?c then _ else _) _ => destruct c
  | |- clean (match ?x with _ => _ end) _ => destruct x
  end.

Section CleanHelpers.

Variable H : parser.Host.

Lemma clean_peekErr (t : token.TokenType) : clean (parser.peekErr H t) (λ _, False).
Proof.
  unfold parser.peekErr.
  eapply clean_bind; [apply clean_cur|]. intros c.
  eapply clean_bind; [apply clean_error_line|]. intros line.
  intros p r p' Hrun. destruct (clean_add_err _ _ _ _ Hrun) as [Hp Hc].
  split; [done|]. intros Heq. by destruct (Hc Heq).
Qed.

Lemma clean_peek (t : token.TokenType) :
  clean (parser.peek H t) (λ b, b = true).
Proof.
  unfold parser.peek. eapply clean_bind; [apply clean_isPeekToken|].
  intros [].
  - eapply clean_bind; [apply clean_nextToken|]. intros ?. by apply clean_ret.
  - eapply clean_bind; [apply clean_peekErr|]. intros ?. by apply clean_ret.
Qed.

Lemma clean_noPrefixFunctionErr (t : token.Token) :
  clean (parser.noPrefixFunctionErr t) (λ _, False).
Proof.
  unfold parser.noPrefixFunctionErr.
  eapply clean_bind; [apply clean_error_line|]. intros line.
  destruct (bool_decide _).
  - eapply clean_weaken; [apply clean_add_err|]. done.
  - eapply clean_bind; [apply clean_cur|]. intros c.
    eapply clean_weaken; [apply clean_add_err|]. done.
Qed.

Lemma clean_parseNumLit : clean (parser.parseNumLit H) complete_opt.
Proof.
  unfold parser.parseNumLit.
  eapply clean_bind; [apply clean_cur|]. intros c.
  destruct (parser.IsFloat H _);
    (eapply clean_bind; [apply clean_lift_opt|]; intros v; apply clean_ret;
     intros _ _; eexists; split; [reflexivity | constructor]).
Qed.

Lemma clean_parseFuncParams_loop (n : nat) (ids : list ast.Identifier) :
  clean (parser.parseFuncParams_loop n ids) (λ _, True).
Proof.
  revert ids. induction n as [|n IH]; intros ids; simpl.
  - apply clean_out_of_fuel.
  - eapply clean_bind; [apply clean_isPeekToken|]. intros [].
    + do 3 (eapply clean_bind; [clean_step|]; intros ?).
      eapply clean_weaken; [apply IH|]. done.
    + by apply clean_ret.
Qed.

Lemma clean_parseFuncParams (n : nat) :
  clean (parser.parseFuncParams H n) (λ _, True).
Proof.
  unfold parser.parseFuncParams.
  eapply clean_bind; [apply clean_isPeekToken|]. intros [].
  - eapply clean_bind; [apply clean_nextToken|]. intros ?. by apply clean_ret.
  - do 2 (eapply clean_bind; [clean_step|]; intros ?).
    eapply clean_bind; [apply clean_parseFuncParams_loop|]. intros ids.
    eapply clean_bind; [apply clean_peek|]. intros []; by apply clean_ret.
Qed.

Lemma clean_skip_semicolons (n : nat) :
  clean (parser.skip_semicolons n) (λ _, True).
Proof.
  induction n as [|n IH]; simpl.
  - apply clean_out_of_fuel.
  - eapply clean_bind; [apply clean_isPeekToken|]. intros [].
    + eapply clean_bind; [apply clean_nextToken|]. intros ?.
      eapply clean_weaken; [apply IH|]. done.
    + by apply clean_ret.
Qed.

Lemma clean_optional_semicolon : clean parser.optional_semicolon (λ _, True).
Proof.
  unfold parser.optional_semicolon.
  eapply clean_bind; [apply clean_isPeekToken|]. intros [].
  - eapply clean_weaken; [apply clean_nextToken|]. done.
  - by apply clean_ret.
Qed.

End CleanHelpers.

Lemma complete_pairs_insert (k v : option ast.Expr)
    (pairs : list (option ast.Expr * option ast.Expr)) :
  complete_opt k → complete_opt v → Forall complete_pair pairs →
  Forall complete_pair (parser.pairs_insert k v pairs).
Proof.
  intros [ke [-> Hk]] Hv Hp. simpl. apply Forall_app_2; [done|].
  constructor; [|done]. split; [by exists ke | done].
Qed.

Section CleanProductions.

Variable H : parser.Host.
Variable parseExpr : Z → parser.P (option ast.Expr).
Variable parseStmt : parser.P ast.Stmt.
Variable fuel : nat.
Hypothesis clean_parseExpr : ∀ prec, clean (parseExpr prec) complete_opt.
Hypothesis clean_parseStmt : clean parseStmt complete_stmt.

Lemma clean_parseExprList_loop (n : nat) (exprs : list (option ast.Expr)) :
  clean (parser.parseExprList_loop parseExpr n exprs)
    (λ r, Forall complete_opt exprs → Forall complete_opt r).
Proof.
  revert exprs. induction n as [|n IH]; intros exprs; simpl.
  - apply clean_out_of_fuel.
  - eapply clean_bind; [apply clean_isPeekToken|]. intros [].
    + eapply clean_bind; [apply clean_nextToken|]. intros ?.
      eapply clean_bind; [apply clean_nextToken|]. intros ?.
      eapply clean_bind; [apply clean_parseExpr|]. intros e.
      eapply clean_weaken; [apply IH|]. simpl.
      intros r Hr He _ _ _ Hex. apply Hr. apply Forall_app_2; [done|].
      by constructor.
    + apply clean_ret. done.
Qed.

Lemma clean_parseExprList (endtok : token.TokenType) :
  clean (parser.parseExprList H parseExpr fuel endtok) (Forall complete_opt).
Proof.
  unfold parser.parseExprList.
  eapply clean_bind; [apply clean_isPeekToken|]. intros [].
  - eapply clean_bind; [apply clean_nextToken|]. intros ?.
    apply clean_ret. by constructor.
  - eapply clean_bind; [apply clean_nextToken|]. intros ?.
    eapply clean_bind; [apply clean_parseExpr|]. intros e.
    eapply clean_bind; [apply clean_parseExprList_loop|]. intros exprs.
    eapply clean_bind; [apply clean_peek|]. intros [].
    + apply clean_ret. intros _ Hex He _ _. apply Hex. by constructor.
    + apply clean_ret. done.
Qed.

Lemma clean_parseHashLit_loop (n : nat)
    (pairs : list (option ast.Expr * option ast.Expr)) :
  clean (parser.parseHashLit_loop H parseExpr n pairs)
    (λ r, Forall complete_pair pairs →
          ∃ ps, r = Some ps ∧ Forall complete_pair ps).
Proof.
  revert pairs. induction n as [|n IH]; intros pairs; simpl.
  - apply clean_out_of_fuel.
  - eapply clean_bind; [apply clean_isPeekToken|]. intros [].
    { apply clean_ret. intros _ Hp. by exists pairs. }
    eapply clean_bind; [apply clean_nextToken|]. intros ?.
    eapply clean_bind; [apply clean_parseExpr|]. intros k.
    eapply clean_bind; [apply clean_peek|]. intros ok.
    destruct ok; simpl; [|apply clean_ret; done].
    eapply clean_bind; [apply clean_nextToken|]. intros ?.
    eapply clean_bind; [apply clean_parseExpr|]. intros val.
    eapply clean_bind; [apply clean_isPeekToken|]. intros close.
    assert (Hgo : ∀ (D : Prop),
      clean (parser.parseHashLit_loop H parseExpr n (parser.pairs_insert k val pairs))
        (λ r, D → True → complete_opt val → True → true = true →
              complete_opt k → True → True → Forall complete_pair pairs →
              ∃ ps, r = Some ps ∧ Forall complete_pair ps)).
    { intros D. eapply clean_weaken; [apply IH|]. simpl.
      intros r Hr _ _ Hval _ _ Hk _ _ Hp. apply Hr.
      by apply complete_pairs_insert. }
    destruct close.
    + eapply clean_weaken; [apply (Hgo True)|]. simpl. auto.
    + eapply clean_bind; [apply clean_peek|]. intros comma.
      destruct comma.
      * apply Hgo.
      * apply clean_ret. done.
Qed.

Lemma clean_block_loop (n : nat) (eT : token.TokenType) (stmts : list ast.Stmt) :
  clean (parser.block_loop parseStmt n eT stmts)
    (λ r, Forall complete_stmt stmts → Forall complete_stmt r).
Proof.
  revert stmts. induction n as [|n IH]; intros stmts; simpl.
  - apply clean_out_of_fuel.
  - eapply clean_bind; [apply clean_isCurToken|]. intros atEnd.
    eapply clean_bind; [apply clean_isCurToken|]. intros atEof.
    destruct (_ && _); [|apply clean_ret; done].
    eapply clean_bind; [apply clean_parseStmt|]. intros s.
    eapply clean_bind; [apply clean_nextToken|]. intros ?.
    eapply clean_weaken; [apply IH|]. simpl.
    intros r Hr _ Hs _ _ Hst. apply Hr. apply Forall_app_2; [done|].
    by constructor.
Qed.

Lemma clean_parseBlockStmt (eT : token.TokenType) :
  clean (parser.parseBlockStmt parseStmt fuel eT) complete_block.
Proof.
  unfold parser.parseBlockStmt.
  eapply clean_bind; [apply clean_cur|]. intros c.
  eapply clean_bind; [apply clean_nextToken|]. intros ?.
  eapply clean_bind; [apply clean_block_loop|]. intros stmts.
  apply clean_ret. intros Hst _ _. constructor. by apply Hst.
Qed.

Lemma complete_Some (e : ast.Expr) : complete_expr e → complete_opt (Some e).
Proof. intros He. by exists e. Qed.

Lemma clean_prefixParseFns (t : token.TokenType) (f : parser.P (option ast.Expr)) :
  parser.prefixParseFns H parseExpr parseStmt fuel t = Some f →
  clean f complete_opt.
Proof.
  destruct t; intros [= <-].
  - unfold parser.parseIdent.
    eapply clean_bind; [apply clean_cur|]. intros c.
    apply clean_ret. intros _. apply complete_Some. constructor.
  - apply clean_parseNumLit.
  - unfold parser.parseStringLit.
    eapply clean_bind; [apply clean_cur|]. intros c.
    apply clean_ret. intros _. apply complete_Some. constructor.
  - unfold parser.parseGroupedExpr.
    eapply clean_bind; [apply clean_nextToken|]. intros ?.
    eapply clean_bind; [apply clean_parseExpr|]. intros e.
    eapply clean_bind; [apply clean_peek|]. intros []; apply clean_ret; done.
  - unfold parser.parseHashLit.
    eapply clean_bind; [apply clean_cur|]. intros c.
    eapply clean_bind; [apply clean_parseHashLit_loop|]. intros r.
    destruct r as [pairs|].
    + eapply clean_bind; [apply clean_peek|]. intros []; apply clean_ret.
      * intros _ Hp _. destruct Hp as (ps & [= <-] & Hps); [by constructor|].
        apply complete_Some. by constructor.
      * done.
    + apply clean_ret. intros Hp _. by destruct Hp as (ps & ? & ?); [constructor|].
  - unfold parser.parseArrLit.
    eapply clean_bind; [apply clean_cur|]. intros c.
    eapply clean_bind; [apply clean_parseExprList|]. intros elms.
    apply clean_ret. intros Hel _. apply complete_Some. by constructor.
  - unfold parser.parsePrefixExpr.
    eapply clean_bind; [apply clean_cur|]. intros c.
    eapply clean_bind; [apply clean_nextToken|]. intros ?.
    eapply clean_bind; [apply clean_parseExpr|]. intros e.
    apply clean_ret. intros [r [-> Hr]] _ _. apply complete_Some. by constructor.
  - unfold parser.parsePrefixExpr.
    eapply clean_bind; [apply clean_cur|]. intros c.
    eapply clean_bind; [apply clean_nextToken|]. intros ?.
    eapply clean_bind; [apply clean_parseExpr|]. intros e.
    apply clean_ret. intros [r [-> Hr]] _ _. apply complete_Some. by constructor.
  - unfold parser.parseFunc.
    eapply clean_bind; [apply clean_peek|]. intros ok.
    destruct ok; simpl; [|apply clean_ret; done].
    eapply clean_bind; [apply clean_cur|]. intros c.
    eapply clean_bind; [apply clean_peek|]. intros ok.
    destruct ok; simpl; [|apply clean_ret; done].
    eapply clean_bind; [apply clean_parseFuncParams|]. intros params.
    eapply clean_bind; [apply clean_parseBlockStmt|]. intros body.
    apply clean_ret. intros Hb _ _ _ _. apply complete_Some. by constructor.
  - unfold parser.parseIfExpr.
    eapply clean_bind; [apply clean_cur|]. intros tok.
    eapply clean_bind; [apply clean_peek|]. intros ok.
    destruct ok; simpl; [|apply clean_ret; done].
    eapply clean_bind; [apply clean_nextToken|]. intros ?.
    eapply clean_bind; [apply clean_parseExpr|]. intros cond.
    eapply clean_bind; [apply clean_peek|]. intros ok.
    destruct ok; simpl; [|apply clean_ret; done].
    eapply clean_bind; [apply clean_peek|]. intros ok.
    destruct ok; simpl; [|apply clean_ret; done].
    eapply clean_bind; [apply clean_nextToken|]. intros ?.
    eapply clean_bind; [apply clean_cur|]. intros c.
    eapply clean_bind; [apply clean_block_loop|]. intros tb.
    eapply clean_bind; [apply clean_nextToken|]. intros ?.
    eapply clean_bind; [apply clean_isCurToken|]. intros atEnd.
    eapply clean_bind; [apply clean_isCurToken|]. intros atEof.
    eapply clean_bind with (C := Forall complete_stmt).
    + destruct (_ && _).
      * eapply clean_bind; [apply clean_parseStmt|]. intros s.
        eapply clean_bind; [apply clean_nextToken|]. intros ?.
        apply clean_ret. intros _ Hs. by constructor.
      * apply clean_ret. by constructor.
    + intros eb. apply clean_ret.
      intros Heb _ _ _ Htb _ _ _ _ [ce [-> Hc]] _ _ _.
      apply complete_Some. constructor; [done | |by constructor].
      constructor. by apply Htb.
  - unfold parser.parseWhileExpr.
    eapply clean_bind; [apply clean_cur|]. intros tok.
    eapply clean_bind; [apply clean_peek|]. intros ok.
    destruct ok; simpl; [|apply clean_ret; done].
    eapply clean_bind; [apply clean_nextToken|]. intros ?.
    eapply clean_bind; [apply clean_parseExpr|]. intros cond.
    eapply clean_bind; [apply clean_peek|]. intros ok.
    destruct ok; simpl; [|apply clean_ret; done].
    eapply clean_bind; [apply clean_parseBlockStmt|]. intros body.
    apply clean_ret. intros Hb _ [ce [-> Hc]] _ _ _.
    apply complete_Some. by constructor.
  - unfold parser.parseBool.
    eapply clean_bind; [apply clean_cur|]. intros c.
    eapply clean_bind; [apply clean_isCurToken|]. intros atEof.
    apply clean_ret. intros _ _. apply complete_Some. constructor.
  - unfold parser.parseBool.
    eapply clean_bind; [apply clean_cur|]. intros c.
    eapply clean_bind; [apply clean_isCurToken|]. intros atEof.
    apply clean_ret. intros _ _. apply complete_Some. constructor.
Qed.

Lemma clean_infixParseFns (t : token.TokenType)
    (f : option ast.Expr → parser.P (option ast.Expr)) (l : option ast.Expr) :
  parser.infixParseFns H parseExpr fuel t = Some f →
  clean (f l) (λ r, complete_opt l → complete_opt r).
Proof.
  assert (Hinfix : clean (parser.parseInfixExpr parseExpr l)
                     (λ r, complete_opt l → complete_opt r)).
  { unfold parser.parseInfixExpr.
    eapply clean_bind; [apply clean_cur|]. intros c.
    eapply clean_bind; [apply clean_curPrec|]. intros prec.
    eapply clean_bind; [apply clean_nextToken|]. intros ?.
    eapply clean_bind; [apply clean_parseExpr|]. intros e.
    apply clean_ret. intros [r [-> Hr]] _ _ _ [le [-> Hl]].
    apply complete_Some. by constructor. }
  destruct t; intros [= <-]; try exact Hinfix.
  - unfold parser.parseCallExpr.
    eapply clean_bind; [apply clean_cur|]. intros c.
    eapply clean_bind; [apply clean_parseExprList|]. intros args.
    apply clean_ret. intros Hargs _ [le [-> Hl]].
    apply complete_Some. by constructor.
  - unfold parser.parseIndexExpr.
    eapply clean_bind; [apply clean_cur|]. intros c.
    eapply clean_bind; [apply clean_nextToken|]. intros ?.
    eapply clean_bind; [apply clean_parseExpr|]. intros e.
    eapply clean_bind; [apply clean_peek|]. intros []; apply clean_ret.
    + intros _ [r [-> Hr]] _ _ [le [-> Hl]]. apply complete_Some. by constructor.
    + done.
Qed.

Lemma clean_parseExpr_loop (n : nat) (prec : Z) (leftExpr : option ast.Expr) :
  clean (parser.parseExpr_loop H parseExpr fuel n prec leftExpr)
    (λ r, complete_opt leftExpr → complete_opt r).
Proof.
  revert leftExpr. induction n as [|n IH]; intros leftExpr; simpl.
  - apply clean_out_of_fuel.
  - eapply clean_bind; [apply clean_isPeekToken|]. intros semi.
    eapply clean_bind; [apply clean_peekPrec|]. intros pp.
    destruct (_ && _); [|apply clean_ret; done].
    intros p r p' Hrun.
    destruct (parser.infixParseFns H parseExpr fuel (token.Type_ (parser.peekTok p)))
      as [infix|] eqn:Hin.
    + assert (Hgo : clean (parser.nextToken;;
                           do l <- infix leftExpr;
                           parser.parseExpr_loop H parseExpr fuel n prec l)
                      (λ r, complete_opt leftExpr → complete_opt r)).
      { eapply clean_bind; [apply clean_nextToken|]. intros ?.
        eapply clean_bind; [by eapply clean_infixParseFns|]. intros l.
        eapply clean_weaken; [apply IH|]. simpl. auto. }
      destruct (Hgo _ _ _ Hrun) as [Hp Hc]. split; [done|].
      intros Heq _ _. by apply Hc.
    + injection Hrun as <- <-. split; [done|]. auto.
Qed.

Lemma clean_parseExpr_body (prec : Z) :
  clean (parser.parseExpr_body H parseExpr parseStmt fuel prec) complete_opt.
Proof.
  unfold parser.parseExpr_body.
  eapply clean_bind; [apply clean_cur|]. intros c.
  destruct (parser.prefixParseFns H parseExpr parseStmt fuel (token.Type_ c))
    as [prefix|] eqn:Hpre.
  - eapply clean_bind; [by eapply clean_prefixParseFns|]. intros l.
    eapply clean_weaken; [apply clean_parseExpr_loop|]. simpl. auto.
  - eapply clean_bind; [apply clean_noPrefixFunctionErr|]. intros ?.
    apply clean_ret. done.
Qed.

Lemma clean_parseStmt_body :
  clean (parser.parseStmt_body H parseExpr fuel) complete_stmt.
Proof.
  unfold parser.parseStmt_body.
  eapply clean_bind; [apply clean_cur|]. intros c.
  assert (Hexpr : clean (parser.parseExprStmt parseExpr) (λ r, True → complete_stmt r)).
  { unfold parser.parseExprStmt.
    eapply clean_bind; [apply clean_cur|]. intros c'.
    eapply clean_bind; [apply clean_parseExpr|]. intros e.
    eapply clean_bind; [apply clean_optional_semicolon|]. intros ?.
    apply clean_ret. intros _ [r [-> Hr]] _ _. by constructor. }
  destruct (token.Type_ c); try exact Hexpr.
  - unfold parser.parseLetStmt.
    eapply clean_bind; [apply clean_cur|]. intros tok.
    eapply clean_bind; [apply clean_peek|]. intros ok.
    destruct ok; simpl; [|apply clean_ret; done].
    eapply clean_bind; [apply clean_cur|]. intros c'.
    eapply clean_bind; [apply clean_peek|]. intros ok.
    destruct ok; simpl; [|apply clean_ret; done].
    eapply clean_bind; [apply clean_nextToken|]. intros ?.
    eapply clean_bind; [apply clean_parseExpr|]. intros v.
    eapply clean_bind; [apply clean_skip_semicolons|]. intros ?.
    apply clean_ret. intros _ [r [-> Hr]] _ _ _ _ _ _. by constructor.
  - unfold parser.parseReturnStmt.
    eapply clean_bind; [apply clean_cur|]. intros c'.
    eapply clean_bind; [apply clean_nextToken|]. intros ?.
    eapply clean_bind; [apply clean_parseExpr|]. intros v.
    eapply clean_bind; [apply clean_optional_semicolon|]. intros ?.
    apply clean_ret. intros _ [r [-> Hr]] _ _ _. by constructor.
  - unfold parser.parseShowStmt.
    eapply clean_bind; [apply clean_cur|]. intros c'.
    eapply clean_bind; [apply clean_nextToken|]. intros ?.
    eapply clean_bind; [apply clean_parseExprList|]. intros v.
    eapply clean_bind; [apply clean_optional_semicolon|]. intros ?.
    apply clean_ret. intros _ Hv _ _ _. by constructor.
  - unfold parser.parseIncludeStmt.
    eapply clean_bind; [apply clean_cur|]. intros c'.
    eapply clean_bind; [apply clean_nextToken|]. intros ?.
    eapply clean_bind; [apply clean_parseExpr|]. intros v.
    eapply clean_bind; [apply clean_optional_semicolon|]. intros ?.
    apply clean_ret. intros _ [r [-> Hr]] _ _ _. by constructor.
  - unfold parser.comment_stmt.
    eapply clean_bind; [apply clean_cur|]. intros c'.
    apply clean_ret. intros _ _. constructor.
Qed.

End CleanProductions.

Lemma clean_parseExpr_parseStmt (H : parser.Host) (fuel : nat) :
  (∀ prec, clean (parser.parseExpr H fuel prec) complete_opt)
  ∧ clean (parser.parseStmt H fuel) complete_stmt.
Proof.
  induction fuel as [|n [IHe IHs]]; simpl.
  - split; [intros prec|]; apply clean_out_of_fuel.
  - split.
    + intros prec. by apply clean_parseExpr_body.
    + by apply clean_parseStmt_body.
Qed.

Lemma clean_ParseProg_loop (H : parser.Host) (n fuel : nat) (stmts : list ast.Stmt) :
  clean (parser.ParseProg_loop H n fuel stmts)
    (λ r, Forall complete_stmt stmts → Forall complete_stmt r).
Proof.
  revert stmts. induction n as [|n IH]; intros stmts; simpl.
  - apply clean_out_of_fuel.
  - eapply clean_bind; [apply clean_isCurToken|]. intros [].
    + apply clean_ret. done.
    + eapply clean_bind; [apply (proj2 (clean_parseExpr_parseStmt H fuel))|].
      intros stmt.
      eapply clean_bind; [apply clean_nextToken|]. intros ?.
      eapply clean_weaken; [apply IH|]. simpl.
      intros r Hr _ Hs _ Hst. apply Hr. apply Forall_app_2; [done|].
      by constructor.
Qed.

(** X24: a parse that records no error gives a program without a nil
    node: every operand, condition, argument, element, key and value is
    there, every if expression has its else block, and no statement is
    the nil let statement.  Every nil in a parsed program is accounted
    for by a recorded error. *)
Theorem parse_without_errors_is_complete
    (H : parser.Host) (fuel : nat) (p p' : parser.Parser) (prog : ast.Program) :
  parser.ParseProg H fuel p = Ok prog p' →
  parser.GetErrors p' = parser.GetErrors p →
  Forall complete_stmt (ast.Stmts prog).
Proof.
  unfold parser.ParseProg, parser.GetErrors. intros Hrun Heq.
  assert (Hc : clean (parser.ParseProg H fuel)
                 (λ prog, Forall complete_stmt (ast.Stmts prog))).
  { unfold parser.ParseProg.
    eapply clean_bind; [apply clean_ParseProg_loop|]. intros stmts.
    apply clean_ret. intros Hst. apply Hst. constructor. }
  by apply (Hc p prog p' Hrun).
Qed.

Lemma parse_without_errors_is_complete_witness :
  Forall complete_stmt [scenario.let_stmt].
Proof.
  apply (parse_without_errors_is_complete demo.parser_host 8
           (sample.parser_on scenario.src_let)
           (sample.parser_at_end scenario.src_let 12 [])
           (ast.mkProgram [scenario.let_stmt])).
  - vm_compute. reflexivity.
  - reflexivity.
Defined.

(** ** Errors are never stored *)

Lemma stored_sound (v : object.Val) : stored v → sound_val v.
Proof. by intros [_ ?]. Qed.

Lemma sound_val_None : sound_val None.
Proof. by intros o. Qed.

Lemma sound_val_Some (o : object.Obj) : sound o → sound_val (Some o).
Proof. by intros Ho o' [= <-]. Qed.

Lemma sound_getBoolObj (b : bool) : sound_val (evaluator.getBoolObj b).
Proof. destruct b; apply sound_val_Some; constructor. Qed.

Lemma sound_evalBangOp (r : object.Val) : sound_val (evaluator.evalBangOp r).
Proof. rewrite evalBangOp_isTruthy. apply sound_getBoolObj. Qed.

Lemma sound_NULL : sound_val evaluator.NULL.
Proof. apply sound_val_Some. constructor. Qed.

Lemma sound_unwrapRValue (v : object.Val) :
  sound_val v → sound_val (evaluator.unwrapRValue v).
Proof.
  intros Hv. destruct v as [[]|]; simpl; try done.
  specialize (Hv _ eq_refl). by inversion Hv.
Qed.

Lemma safe_ret {A} (a : A) (Q : A → Prop) : Q a → safe (ret a) Q.
Proof. by intros HQ s r s' Hs [= <- <-]. Qed.

Lemma safe_bind {A B} (m : evaluator.E A) (k : A → evaluator.E B)
    (Q : A → Prop) (Q' : B → Prop) :
  safe m Q → (∀ a, Q a → safe (k a) Q') → safe (bind m k) Q'.
Proof.
  intros Hm Hk s r s' Hs Hrun. unfold bind in Hrun.
  destruct (m s) as [a s1| |] eqn:E; try discriminate.
  destruct (Hm _ _ _ Hs E) as [HQ Hs1]. by eapply Hk.
Qed.

Lemma safe_weaken {A} (m : evaluator.E A) (Q Q' : A → Prop) :
  safe m Q → (∀ a, Q a → Q' a) → safe m Q'.
Proof. intros Hm HQ s r s' Hs Hrun. destruct (Hm _ _ _ Hs Hrun). auto. Qed.

Lemma safe_panic {A} (Q : A → Prop) : safe panic Q.
Proof. by intros s r s' _ ?. Qed.

Lemma safe_out_of_fuel {A} (Q : A → Prop) : safe out_of_fuel Q.
Proof. by intros s r s' _ ?. Qed.

(** A computation that does not touch the heap. *)
Lemma safe_heap_const {A} (m : evaluator.E A) (Q : A → Prop) :
  (∀ s r s', m s = Ok r s' → evaluator.heap s' = evaluator.heap s ∧ Q r) →
  safe m Q.
Proof.
  intros Hm s r s' Hs Hrun. destruct (Hm _ _ _ Hrun) as [Hh HQ].
  split; [done|]. unfold stored_state. by rewrite Hh.
Qed.

Lemma safe_lift_opt {A} (o : option A) (Q : A → Prop) :
  (∀ a, o = Some a → Q a) → safe (lift_opt o) Q.
Proof. intros HQ. destruct o; [apply safe_ret; auto | apply safe_panic]. Qed.

Lemma safe_deref (v : object.Val) :
  safe (evaluator.deref v) (λ o, v = Some o).
Proof. by apply safe_lift_opt. Qed.

Lemma safe_alloc_env (e : object.Env) :
  (∀ name v, object.store e !! name = Some v → stored v) →
  safe (evaluator.alloc_env e) (λ _, True).
Proof.
  intros He s r s' Hs [= <- <-]. split; [done|].
  intros a e' name v Ha Hn. simpl in Ha.
  apply lookup_app_Some in Ha as [Ha|[_ Ha]]; [by eapply Hs|].
  apply list_lookup_singleton_Some in Ha as [_ <-]. by eapply He.
Qed.

Lemma safe_env_Set (a : nat) (name : string) (v : object.Val) :
  stored v → safe (evaluator.env_Set a name v) (λ _, True).
Proof.
  intros Hv s r s' Hs Hrun. unfold evaluator.env_Set, object.Set_ in Hrun.
  destruct (evaluator.heap s !! a) as [e|] eqn:E; simpl in Hrun; [|done].
  injection Hrun as <- <-. split; [done|].
  intros a' e' name' v' Ha Hn. simpl in Ha.
  destruct (decide (a' = a)) as [->|Hne].
  - rewrite list_lookup_insert_eq in Ha by (by eapply lookup_lt_Some).
    injection Ha as <-. simpl in Hn.
    destruct (decide (name' = name)) as [->|Hnn].
    + rewrite lookup_insert_eq in Hn. by injection Hn as <-.
    + rewrite lookup_insert_ne in Hn by done. by eapply Hs.
  - rewrite list_lookup_insert_ne in Ha by done. by eapply Hs.
Qed.

Lemma safe_env_assign (a c : nat) :
  safe (evaluator.env_assign a c) (λ _, True).
Proof.
  intros s r s' Hs Hrun. unfold evaluator.env_assign in Hrun.
  destruct (evaluator.heap s !! a) as [ea|] eqn:Ea; [|done].
  destruct (evaluator.heap s !! c) as [ec|] eqn:Ec; [|done].
  injection Hrun as <- <-. split; [done|].
  intros a' e' name' v' Ha Hn. simpl in Ha.
  destruct (decide (a' = a)) as [->|Hne].
  - rewrite list_lookup_insert_eq in Ha by (by eapply lookup_lt_Some).
    injection Ha as <-. by eapply Hs.
  - rewrite list_lookup_insert_ne in Ha by done. by eapply Hs.
Qed.

Lemma safe_env_Get (n a : nat) (name : string) :
  safe (evaluator.env_Get n a name) (λ r, ∀ v, r = Some v → stored v).
Proof.
  intros s r s' Hs. revert a. induction n as [|n IH]; intros a Hrun;
    simpl in Hrun; [done|].
  destruct (evaluator.heap s !! a) as [e|] eqn:Ea; [|done].
  destruct (object.store e !! name) as [v|] eqn:En.
  - injection Hrun as <- <-. split; [|done]. intros v' [= <-]. by eapply Hs.
  - destruct (object.outer e); [by eapply IH|].
    injection Hrun as <- <-. by split.
Qed.

Lemma safe_fresh_id : safe evaluator.fresh_id (λ _, True).
Proof. apply safe_heap_const. by intros s r s' [= <- <-]. Qed.

Lemma safe_next_range : safe evaluator.next_range (λ _, True).
Proof. apply safe_heap_const. by intros s r s' [= <- <-]. Qed.

Lemma safe_write_buff (out : string) : safe (evaluator.write_buff out) (λ _, True).
Proof. apply safe_heap_const. by intros s r s' [= <- <-]. Qed.

Lemma safe_NewErr (eh : evaluator.ErrorHelper) (t : token.Token) (hint : bool)
    (msg : string) :
  safe (evaluator.NewErr eh t hint msg) sound_val.
Proof.
  unfold evaluator.NewErr.
  eapply safe_bind with (Q := λ _, True); [by apply safe_lift_opt|].
  intros line _. apply safe_ret. apply sound_val_Some. constructor.
Qed.

Lemma safe_NewBareErr (msg : string) : safe (evaluator.NewBareErr msg) sound_val.
Proof. apply safe_ret. apply sound_val_Some. constructor. Qed.

Section SafeHelpers.

Variable H : evaluator.Host.
Variable eh : evaluator.ErrorHelper.

Lemma safe_evalPrefixExpr (op : string) (r : object.Val) :
  safe (evaluator.evalPrefixExpr H op r) sound_val.
Proof.
  unfold evaluator.evalPrefixExpr, evaluator.evalMinusPrefOp.
  destruct (bool_decide _); [apply safe_ret, sound_evalBangOp|].
  destruct (bool_decide _).
  - eapply safe_bind; [apply safe_deref|]. intros o _.
    destruct o; try apply safe_NewBareErr.
    apply safe_ret. apply sound_val_Some. constructor.
  - eapply safe_bind; [apply safe_deref|]. intros o _. apply safe_NewBareErr.
Qed.

Lemma safe_evalInfixExpr (op : string) (l r : object.Val) :
  safe (evaluator.evalInfixExpr H eh op l r) sound_val.
Proof.
  unfold evaluator.evalInfixExpr.
  eapply safe_bind; [apply safe_deref|]. intros lo _.
  assert (Hrest : safe
    (if bool_decide (op = "==")
     then ret (evaluator.getBoolObj (evaluator.same_obj l r))
     else if bool_decide (op = "!=")
     then ret (evaluator.getBoolObj (negb (evaluator.same_obj l r)))
     else
       do ro <- evaluator.deref r;
       if bool_decide (object.Type_ lo ≠ object.Type_ ro)
       then evaluator.NewErr eh (object.GetToken lo) false
              ("Type mismatch:  " +:+ evaluator.type_name H (object.Type_ lo)
               +:+ " " +:+ op +:+ " " +:+ evaluator.type_name H (object.Type_ ro)
               +:+ " ")
       else evaluator.NewErr eh (object.GetToken lo) false
              ("unknown Operator : " +:+ evaluator.type_name H (object.Type_ lo)
               +:+ " " +:+ op +:+ " " +:+ evaluator.type_name H (object.Type_ ro)))
    sound_val).
  { destruct (bool_decide _); [apply safe_ret, sound_getBoolObj|].
    destruct (bool_decide _); [apply safe_ret, sound_getBoolObj|].
    eapply safe_bind; [apply safe_deref|]. intros ro _.
    destruct (bool_decide _); apply safe_NewErr. }
  destruct lo; try exact Hrest.
  - eapply safe_bind; [apply safe_deref|]. intros ro _.
    destruct ro; try exact Hrest. clear Hrest.
    unfold evaluator.evalNumInfixExpr.
    destruct (evaluator.NumberOperation H op _ _) as [[val cval] noerr].
    destruct (number.Value val), noerr; try apply safe_NewBareErr.
    + apply safe_ret. apply sound_val_Some. constructor.
    + apply safe_ret. apply sound_getBoolObj.
  - eapply safe_bind; [apply safe_deref|]. intros ro _.
    destruct ro; try exact Hrest. clear Hrest.
    unfold evaluator.evalStringInfixExpr.
    destruct (bool_decide _); [apply safe_ret, sound_val_Some; constructor|].
    destruct (bool_decide _); [apply safe_ret, sound_getBoolObj|].
    destruct (bool_decide _); [apply safe_ret, sound_getBoolObj|].
    apply safe_NewErr.
Qed.

Lemma safe_evalIndexExpr (l i : object.Val) :
  sound_val l →
  safe (evaluator.evalIndexExpr H eh l i) sound_val.
Proof.
  intros Hl. unfold evaluator.evalIndexExpr.
  eapply safe_bind; [apply safe_deref|]. intros lo ->.
  specialize (Hl lo eq_refl).
  destruct lo; try apply safe_NewErr.
  - eapply safe_bind; [apply safe_deref|]. intros io _.
    destruct io; try apply safe_NewErr.
    unfold evaluator.evalArrIndexExpr.
    destruct (evaluator.GetAsInt H _) as [idx noerr].
    destruct (negb noerr); [apply safe_NewBareErr|].
    destruct (_ || _); [apply safe_ret, sound_NULL|].
    apply safe_lift_opt. intros v Hv.
    inversion Hl as [| | | |? ? ? Helms| | | | |]; subst.
    apply stored_sound, (Helms v). by eapply list_elem_of_lookup_2.
  - unfold evaluator.evalHashIndexExpr.
    destruct (i ≫= evaluator.HashKeyOf H) as [key|].
    + destruct (Pairs !! key) as [kv|] eqn:Hk; [|apply safe_ret, sound_NULL].
      apply safe_ret.
      inversion Hl as [| | | | |? ? Hpairs| | | |]; subst.
      by destruct (Hpairs _ _ Hk) as [_ [_ ?]].
    + eapply safe_bind; [apply safe_deref|]. intros io _. apply safe_NewErr.
Qed.

Lemma safe_inspect_all (args : list object.Val) :
  safe (evaluator.inspect_all H args) (λ _, True).
Proof.
  induction args as [|a args IH]; simpl; [by apply safe_ret|].
  eapply safe_bind; [apply safe_deref|]. intros o _.
  eapply safe_bind; [apply IH|]. intros out _. by apply safe_ret.
Qed.

Lemma safe_evalShowStmt (args : list object.Val) :
  safe (evaluator.evalShowStmt H args) sound_val.
Proof.
  unfold evaluator.evalShowStmt.
  eapply safe_bind; [apply safe_inspect_all|]. intros out _.
  eapply safe_bind; [apply safe_write_buff|]. intros _ _.
  apply safe_ret, sound_NULL.
Qed.

End SafeHelpers.

Section SafeWalk.

Variable H : evaluator.Host.
Variable eh : evaluator.ErrorHelper.
Variable ev : ast.Node → nat → evaluator.E object.Val.
Variable fuel : nat.
Hypothesis builtins_sound : sound_builtins H.
Hypothesis safe_ev : ∀ node env, safe (ev node env) sound_val.

Lemma safe_evalProg_loop (stmts : list ast.Stmt) (env : nat) (res : object.Val) :
  sound_val res → safe (evaluator.evalProg_loop ev stmts env res) sound_val.
Proof.
  revert res. induction stmts as [|s stmts IH]; intros res Hres; simpl.
  - by apply safe_ret.
  - eapply safe_bind; [apply safe_ev|]. intros r Hr.
    destruct r as [o|]; [|by apply IH].
    destruct o; try (by apply IH); try (by apply safe_ret).
    apply safe_ret. specialize (Hr _ eq_refl). by inversion Hr.
Qed.

Lemma safe_evalBlockStmt_loop (stmts : list ast.Stmt) (env : nat)
    (res : object.Val) :
  sound_val res → safe (evaluator.evalBlockStmt_loop ev stmts env res) sound_val.
Proof.
  revert res. induction stmts as [|s stmts IH]; intros res Hres; simpl.
  - by apply safe_ret.
  - eapply safe_bind; [apply safe_ev|]. intros r Hr.
    destruct r as [o|]; [|by apply IH].
    destruct (_ || _); [by apply safe_ret | by apply IH].
Qed.

Lemma safe_evalExprs_loop (es : list (option ast.Expr)) (env : nat)
    (res : list object.Val) :
  Forall stored res →
  safe (evaluator.evalExprs_loop ev es env res) values_or_error.
Proof.
  revert res. induction es as [|e es IH]; intros res Hres; simpl.
  - apply safe_ret. by left.
  - eapply safe_bind; [apply safe_ev|]. intros r Hr.
    destruct (evaluator.isErr r) eqn:Herr.
    + apply safe_ret. right. by exists r.
    + apply IH. apply Forall_app_2; [done|]. by repeat constructor.
Qed.

Lemma safe_while_loop (n : nat) (wcond : option ast.Expr) (body : ast.BlockStmt)
    (env : nat) (cond result : object.Val) :
  sound_val result →
  safe (evaluator.while_loop ev n wcond body env cond result) sound_val.
Proof.
  revert cond result. induction n as [|n IH]; intros cond result Hres; simpl.
  - apply safe_out_of_fuel.
  - destruct (evaluator.isTruthy cond); [|by apply safe_ret].
    eapply safe_bind; [apply safe_ev|]. intros r Hr.
    eapply safe_bind; [apply safe_ev|]. intros c _. by apply IH.
Qed.

Lemma safe_evalHashLit_loop (t : token.Token)
    (nodes : list (option ast.Expr * option ast.Expr)) (env : nat)
    (pairs : gmap object.HashKey (object.Val * object.Val)) :
  stored_pairs pairs →
  safe (evaluator.evalHashLit_loop H eh ev t nodes env pairs)
    (λ r, match r with inl v => sound_val v | inr ps => stored_pairs ps end).
Proof.
  revert pairs. induction nodes as [|[k v] nodes IH]; intros pairs Hp; simpl.
  - by apply safe_ret.
  - eapply safe_bind; [apply safe_ev|]. intros key Hkey.
    destruct (evaluator.isErr key) eqn:Hke; [by apply safe_ret|].
    destruct (key ≫= evaluator.HashKeyOf H) as [hashed|].
    + eapply safe_bind; [apply safe_ev|]. intros val Hval.
      destruct (evaluator.isErr val) eqn:Hve; [by apply safe_ret|].
      apply IH. intros hk kv Hlook.
      destruct (decide (hk = hashed)) as [->|Hne].
      * rewrite lookup_insert_eq in Hlook. injection Hlook as <-. by split.
      * rewrite lookup_insert_ne in Hlook by done. by eapply Hp.
    + eapply safe_bind; [apply safe_deref|]. intros ko _.
      eapply safe_bind; [apply safe_NewErr|]. intros err Herr.
      by apply safe_ret.
Qed.

Lemma safe_bind_params (env : nat) (params : list ast.Identifier)
    (args : list object.Val) :
  Forall stored args →
  safe (evaluator.bind_params env params args) (λ _, True).
Proof.
  revert args. induction params as [|p params IH]; intros [|a args] Hargs; simpl;
    try (by apply safe_ret); try apply safe_panic.
  inversion Hargs; subst.
  eapply safe_bind; [by apply safe_env_Set|]. intros _ _. by apply IH.
Qed.

Lemma safe_applyFunc (fn : object.Val) (caller : token.Token)
    (args : list object.Val) :
  Forall stored args →
  safe (evaluator.applyFunc H eh ev fn caller args) sound_val.
Proof.
  intros Hargs. unfold evaluator.applyFunc.
  eapply safe_bind; [apply safe_deref|]. intros f _.
  destruct f; try apply safe_NewBareErr.
  - destruct (bool_decide _); [|apply safe_NewErr].
    unfold evaluator.extendFuncEnv, evaluator.NewEnclosedEnv.
    eapply safe_bind with (Q := λ _, True).
    + eapply safe_bind; [by apply safe_alloc_env|]. intros a _.
      eapply safe_bind; [by apply safe_bind_params|]. intros _ _.
      by apply safe_ret.
    + intros a _. eapply safe_bind; [apply safe_ev|]. intros r Hr.
      apply safe_ret. by apply sound_unwrapRValue.
  - apply safe_heap_const. intros s r s' Hrun.
    specialize (builtins_sound name args (evaluator.next_id s) Hargs).
    destruct (evaluator.builtin_Fn _ _ _ _). by injection Hrun as <- <-.
Qed.

(** A call, or an array, on the values of a list of expressions. *)
Lemma safe_on_values (args : list object.Val) (k : evaluator.E object.Val) :
  values_or_error args →
  (Forall stored args → safe k sound_val) →
  safe (match args with
        | [a] => if evaluator.isErr a then ret a else k
        | _ => k
        end) sound_val.
Proof.
  intros [Hst|(e & -> & Herr & Hs)] Hk.
  - destruct args as [|a [|]]; try by apply Hk.
    inversion Hst as [|? ? [Ha _] _]; subst. rewrite Ha. by apply Hk.
  - rewrite Herr. by apply safe_ret.
Qed.

Lemma safe_run_parser (l : lexer.Lexer) :
  safe (evaluator.run_parser H fuel l) (λ _, True).
Proof.
  apply safe_heap_const. intros s r s' Hrun. unfold evaluator.run_parser in Hrun.
  destruct (parser.ParseProg _ _ _); try done. by injection Hrun as <- <-.
Qed.

Lemma safe_evalIncludeStmt (t : token.Token) (filename : option ast.Expr)
    (env : nat) :
  safe (evaluator.evalIncludeStmt H eh ev fuel t filename env)
    (λ r, sound_val r.2).
Proof.
  unfold evaluator.evalIncludeStmt, evaluator.NewEnv.
  eapply safe_bind; [apply safe_ev|]. intros raw _.
  eapply safe_bind; [by apply safe_alloc_env|]. intros enx _.
  eapply safe_bind; [apply safe_deref|]. intros o _.
  assert (Herr : ∀ tok hint msg,
            safe (do err <- evaluator.NewErr eh tok hint msg; ret (enx, err))
              (λ r, sound_val r.2)).
  { intros. eapply safe_bind; [apply safe_NewErr|]. intros. by apply safe_ret. }
  destruct o; try apply Herr.
  destruct (evaluator.stat_not_exist H _); [apply Herr|].
  destruct (evaluator.ReadFile H _); [|apply Herr].
  eapply safe_bind; [by apply safe_alloc_env|]. intros ex _.
  eapply safe_bind; [apply safe_run_parser|]. intros parsed _.
  eapply safe_bind; [apply safe_ev|]. intros _ _.
  destruct (bool_decide _); [apply Herr | apply safe_ret, sound_NULL].
Qed.

Lemma safe_ev_if_not_error (node : ast.Node) (env : nat)
    (k : object.Val → evaluator.E object.Val) :
  (∀ v, stored v → safe (k v) sound_val) →
  safe (do v <- ev node env; if evaluator.isErr v then ret v else k v) sound_val.
Proof.
  intros Hk. eapply safe_bind; [apply safe_ev|]. intros v Hv.
  destruct (evaluator.isErr v) eqn:Herr; [by apply safe_ret|]. by apply Hk.
Qed.

Lemma safe_Eval_body (node : ast.Node) (env : nat) :
  safe (evaluator.Eval_body H eh ev fuel node env) sound_val.
Proof.
  destruct node as [|p|s|blk|e]; simpl.
  - apply safe_ret, sound_val_None.
  - apply safe_evalProg_loop, sound_val_None.
  - destruct s; simpl.
    + apply safe_ev_if_not_error. intros v Hv.
      eapply safe_bind; [by apply safe_env_Set|]. intros _ _.
      apply safe_ret, sound_val_None.
    + apply safe_panic.
    + apply safe_ev_if_not_error. intros v [Herr Hv].
      eapply safe_bind; [apply safe_fresh_id|]. intros id _.
      apply safe_ret, sound_val_Some. by constructor.
    + eapply safe_bind; [by apply safe_evalExprs_loop|]. intros args _.
      apply safe_evalShowStmt.
    + eapply safe_bind; [apply safe_evalIncludeStmt|]. intros r Hr.
      eapply safe_bind; [apply safe_deref|]. intros v _.
      destruct (bool_decide _); [|by apply safe_ret].
      unfold evaluator.NewEnclosedEnv.
      eapply safe_bind; [by apply safe_alloc_env|]. intros a _.
      eapply safe_bind; [apply safe_env_assign|]. intros _ _.
      apply safe_ret, sound_val_None.
    + apply safe_ev.
    + apply safe_ret, sound_val_None.
  - apply safe_evalBlockStmt_loop, sound_val_None.
  - destruct e; simpl.
    + unfold evaluator.evalId.
      eapply safe_bind; [apply safe_env_Get|]. intros r Hr.
      destruct r as [v|]; [apply safe_ret; by apply stored_sound, Hr|].
      destruct (evaluator.builtins H _); [|apply safe_NewErr].
      apply safe_ret, sound_val_Some. constructor.
    + apply safe_ret, sound_val_Some. constructor.
    + apply safe_ret, sound_val_Some. constructor.
    + apply safe_ret, sound_getBoolObj.
    + apply safe_ev_if_not_error. intros v _. apply safe_evalPrefixExpr.
    + apply safe_ev_if_not_error. intros l _.
      apply safe_ev_if_not_error. intros r _. apply safe_evalInfixExpr.
    + unfold evaluator.evalIfExpr.
      apply safe_ev_if_not_error. intros c _.
      destruct (evaluator.isTruthy c); [apply safe_ev|].
      destruct ElseBlock; [apply safe_ev | apply safe_ret, sound_NULL].
    + unfold evaluator.evalWhileExpr.
      apply safe_ev_if_not_error. intros c _.
      apply safe_while_loop, sound_val_None.
    + eapply safe_bind; [apply safe_fresh_id|]. intros id _.
      apply safe_ret, sound_val_Some. constructor.
    + apply safe_ev_if_not_error. intros f _.
      eapply safe_bind; [by apply safe_evalExprs_loop|]. intros args Hargs.
      apply safe_on_values; [done|]. intros Hst. by apply safe_applyFunc.
    + eapply safe_bind; [by apply safe_evalExprs_loop|]. intros elms Helms.
      apply safe_on_values; [done|]. intros Hst.
      eapply safe_bind; [apply safe_fresh_id|]. intros id _.
      apply safe_ret, sound_val_Some. constructor.
      intros v Hv. by apply (proj1 (Forall_forall _ _) Hst).
    + unfold evaluator.evalHashLit.
      eapply safe_bind; [apply safe_next_range|]. intros n _.
      eapply safe_bind; [by apply safe_evalHashLit_loop|]. intros r Hr.
      destruct r as [v|ps]; [by apply safe_ret|].
      eapply safe_bind; [apply safe_fresh_id|]. intros id _.
      apply safe_ret, sound_val_Some. constructor. exact Hr.
    + eapply safe_bind; [apply safe_ev|]. intros lv Hlv.
      destruct (evaluator.isErr lv); [apply safe_ret, sound_val_None|].
      apply safe_ev_if_not_error. intros iv _. by apply safe_evalIndexExpr.
Qed.

End SafeWalk.

Lemma safe_Eval (H : evaluator.Host) (eh : evaluator.ErrorHelper) (n : nat)
    (node : ast.Node) (env : nat) :
  sound_builtins H → safe (evaluator.Eval H eh n node env) sound_val.
Proof.
  intros HH. revert node env. induction n as [|n IH]; intros node env; simpl.
  - apply safe_out_of_fuel.
  - apply safe_Eval_body; [done|]. intros node' env'. apply IH.
Qed.

(** X25: an error is never stored.  Evaluation starts and ends in a
    state in which no variable is bound to an [Error] or to a value that
    holds one, and its result holds none either: no array has an [Error]
    among its elements, no hash as a key or a value, and no return value
    carries one.  An [Error] only ever is the result of an evaluation. *)
Theorem errors_are_never_stored
    (H : evaluator.Host) (eh : evaluator.ErrorHelper) (n : nat)
    (node : ast.Node) (env : nat) (s s' : evaluator.State) (v : object.Val) :
  sound_builtins H →
  stored_state s →
  evaluator.Eval H eh n node env s = Ok v s' →
  stored_state s' ∧ sound_val v.
Proof.
  intros HH Hs Hrun. destruct (safe_Eval H eh n node env HH s v s' Hs Hrun).
  by split.
Qed.

Lemma errors_are_never_stored_witness :
  stored_state
    (evaluator.with_heap
       [scenario.bound "x" scenario.five
          {| object.store := ∅; object.outer := None |}] scenario.top)
  ∧ sound_val None.
Proof.
  apply (errors_are_never_stored scenario.h0
           {| evaluator.Source := scenario.src_let |} 3
           (ast.NodeStmt scenario.let_stmt) 0 scenario.top).
  - intros name args n _ o Ho. discriminate Ho.
  - intros a e name v Ha Hn. destruct a as [|a]; [|discriminate Ha].
    injection Ha as <-. discriminate Hn.
  - reflexivity.
Defined.

